(** * SharedMemoryAudioRing: a shallow embedding of the shared-memory ring
      transport (src/common/SharedMemoryAudioRing.{h,cpp})

    The mapped region is modelled in 4-byte cells: every field of [Header] is a
    32-bit unsigned integer at a 4-byte offset, every sample is a 32-bit float
    that the code only ever moves with [memcpy] (so a sample is its bit
    pattern), and [MappingSize] is always a multiple of 4.  A cell is a [Z].

    The backing files live in a finite map from paths to contents; a mapping
    is [MAP_SHARED], so a pointer into it is modelled by the path of the file
    it views, and loads and stores through it read and update that file.
    A mapping views the first [mapping_size_] bytes of its file, the length
    [Open] gave to [mmap]: what the file holds past them (after another
    [Open] made it longer) is out of the instance's reach.

    Operations return [option]: [None] is an access outside the mapped region
    or outside the caller's buffer, which is undefined behaviour in C++.
    The atomics are modelled sequentially (one process, one thread). *)

From Stdlib Require Import ZArith Lia Ascii String.
From stdpp Require Import gmap strings list fin_maps.

Local Open Scope Z_scope.

(** ** Machine integers *)

(** [uint32_t] and [size_t] (64 bits on the platforms the bridge targets)
    values are integers in range; arithmetic wraps explicitly. *)
Definition is_u32 (z : Z) : Prop := 0 ≤ z < 2 ^ 32.
Definition is_size_t (z : Z) : Prop := 0 ≤ z < 2 ^ 64.

Definition wrap32 (z : Z) : Z := z mod 2 ^ 32.
Definition wrap64 (z : Z) : Z := z mod 2 ^ 64.

Definition MinU32 (a b : Z) : Z := if a <? b then a else b.
Definition MinSizeT (a b : Z) : Z := if a <? b then a else b.

(** ** Layout *)

Definition kMagic : Z := 0x53415242.
Definition kVersion : Z := 1.

Definition sizeof_Header : Z := 24.
Definition sizeof_float : Z := 4.

(** Cell offsets of the fields of [Header] inside the mapping. *)
Definition off_magic : nat := 0.
Definition off_version : nat := 1.
Definition off_channels : nat := 2.
Definition off_capacity_frames : nat := 3.
Definition off_write_index : nat := 4.
Definition off_read_index : nat := 5.

(** [DataStart]: the first cell after the header. *)
Definition DataStart : Z := sizeof_Header / sizeof_float.

Definition MappingSize (channels capacity_frames : Z) : Z :=
  wrap64 (sizeof_Header +
          wrap64 (wrap64 (sizeof_float * channels) * capacity_frames)).

(** ** Checked memory accesses *)

Definition load (region : list Z) (i : nat) : option Z := region !! i.

Definition store (region : list Z) (i : nat) (v : Z) : option (list Z) :=
  if (i <? length region)%nat then Some (<[i := v]> region) else None.

(** [memset(p, 0, 4 * cells)] on the start of a region. *)
Definition memset0 (region : list Z) (cells : Z) : option (list Z) :=
  if cells <=? Z.of_nat (length region)
  then Some (replicate (Z.to_nat cells) 0 ++ drop (Z.to_nat cells) region)
  else None.

(** [memcpy(&dst[d], &src[s], 4 * n)] between two distinct arrays. *)
Definition memcpy (dst : list Z) (d : Z) (src : list Z) (s : Z) (n : Z)
  : option (list Z) :=
  if (d + n <=? Z.of_nat (length dst)) && (s + n <=? Z.of_nat (length src))
  then Some (take (Z.to_nat d) dst
             ++ take (Z.to_nat n) (drop (Z.to_nat s) src)
             ++ drop (Z.to_nat (d + n)) dst)
  else None.

(** ** The instance *)

Record SharedMemoryAudioRing := mkRing {
  shm_fd_ : Z;
  mapping_ : option string;   (* nullptr, or the shared mapping of that file *)
  mapping_size_ : Z;
  header_ : option string;    (* nullptr, or the start of that mapping *)
  name_ : string
}.

(** The constructor's state. *)
Definition unopened : SharedMemoryAudioRing :=
  {| shm_fd_ := -1; mapping_ := None; mapping_size_ := 0;
     header_ := None; name_ := "" |}.

(** [munmap] and [close] release process resources and leave every file as it
    is, so [Close] only changes the instance. *)
Definition Close (r : SharedMemoryAudioRing) : SharedMemoryAudioRing :=
  {| shm_fd_ := if 0 <=? shm_fd_ r then -1 else shm_fd_ r;
     mapping_ := match mapping_ r with Some _ => None | None => None end;
     mapping_size_ := 0;
     header_ := None;
     name_ := "" |}.

Definition is_open (r : SharedMemoryAudioRing) : bool :=
  match header_ r with Some _ => true | None => false end.

(** The memory behind [mapping_] and [header_]: the cells of the file that
    lie in the first [mapping_size_] bytes. The methods below never compare
    an address with [mapping_size_]; an access past the mapping is an access
    outside this list. *)
Definition mapping_cells (r : SharedMemoryAudioRing) : nat :=
  Z.to_nat (mapping_size_ r / sizeof_float).

Definition in_mapping (r : SharedMemoryAudioRing) (file : list Z) : list Z :=
  take (mapping_cells r) file.

(** The rest of the file, which no store through the mapping changes. *)
Definition past_mapping (r : SharedMemoryAudioRing) (file : list Z) : list Z :=
  drop (mapping_cells r) file.

Definition channels (r : SharedMemoryAudioRing) (fs : gmap string (list Z))
  : option Z :=
  match header_ r with
  | None => Some 0
  | Some p => file ← fs !! p; load (in_mapping r file) off_channels
  end.

Definition capacity_frames (r : SharedMemoryAudioRing)
    (fs : gmap string (list Z)) : option Z :=
  match header_ r with
  | None => Some 0
  | Some p => file ← fs !! p; load (in_mapping r file) off_capacity_frames
  end.

(** ** Write *)

(** The storage slot of the frame with (wrapping) index [index]:
    [(write + frame) % capacity], the sum taken in [uint32_t]. *)
Definition frame_slot (index capacity : Z) : Z := wrap32 index mod capacity.

(** [static_cast<size_t>(frame) * channels]. *)
Definition sample_index (frame channels : Z) : Z := wrap64 (frame * channels).

(** The body of the [for] loop of [Write], run for the [count] frames
    [frame, frame + 1, ...]. *)
Fixpoint Write_loop (count : nat) (frame write channels capacity : Z)
    (interleaved_frames data : list Z) : option (list Z) :=
  match count with
  | O => Some data
  | S count' =>
      let dst_frame := frame_slot (write + frame) capacity in
      let src_idx := sample_index frame channels in
      let dst_idx := sample_index dst_frame channels in
      data' ← memcpy data (DataStart + dst_idx) interleaved_frames src_idx channels;
      Write_loop count' (wrap32 (frame + 1)) write channels capacity
                 interleaved_frames data'
  end.

(** [Write] once [header_], the input pointer and [frame_count] passed the
    first test; [region] is the memory [header_] points to, as far as it is
    mapped. *)
Definition Write_mapped (region interleaved_frames : list Z) (frame_count : Z)
  : option (Z * list Z) :=
  channels ← load region off_channels;
  capacity ← load region off_capacity_frames;
  write ← load region off_write_index;
  read ← load region off_read_index;
  let used := wrap32 (write - read) in
  let free_frames := wrap32 (capacity - MinU32 used capacity) in
  let to_write := wrap32 (MinSizeT frame_count free_frames) in
  if to_write =? 0 then Some (0, region) else
  region' ← Write_loop (Z.to_nat to_write) 0 write channels capacity
                       interleaved_frames region;
  region'' ← store region' off_write_index (wrap32 (write + to_write));
  Some (to_write, region'').

Definition Write (r : SharedMemoryAudioRing) (fs : gmap string (list Z))
    (interleaved_frames : option (list Z)) (frame_count : Z)
  : option (Z * gmap string (list Z)) :=
  match header_ r, interleaved_frames with
  | Some p, Some src =>
      if frame_count =? 0 then Some (0, fs) else
      file ← fs !! p;
      '(n, region') ← Write_mapped (in_mapping r file) src frame_count;
      Some (n, <[p := region' ++ past_mapping r file]> fs)
  | _, _ => Some (0, fs)
  end.

(** ** Read *)

Fixpoint Read_loop (count : nat) (frame read channels capacity : Z)
    (data interleaved_frames : list Z) : option (list Z) :=
  match count with
  | O => Some interleaved_frames
  | S count' =>
      let src_frame := frame_slot (read + frame) capacity in
      let src_idx := sample_index src_frame channels in
      let dst_idx := sample_index frame channels in
      out ← memcpy interleaved_frames dst_idx data (DataStart + src_idx) channels;
      Read_loop count' (wrap32 (frame + 1)) read channels capacity data out
  end.

Definition Read_mapped (region interleaved_frames : list Z) (frame_count : Z)
  : option (Z * list Z * list Z) :=
  channels ← load region off_channels;
  capacity ← load region off_capacity_frames;
  write ← load region off_write_index;
  read ← load region off_read_index;
  let available := MinU32 (wrap32 (write - read)) capacity in
  let to_read := wrap32 (MinSizeT frame_count available) in
  if to_read =? 0 then Some (0, interleaved_frames, region) else
  out ← Read_loop (Z.to_nat to_read) 0 read channels capacity
                  region interleaved_frames;
  region' ← store region off_read_index (wrap32 (read + to_read));
  Some (to_read, out, region').

(** The result carries the caller's buffer as [Read] leaves it. *)
Definition Read (r : SharedMemoryAudioRing) (fs : gmap string (list Z))
    (interleaved_frames : option (list Z)) (frame_count : Z)
  : option (Z * option (list Z) * gmap string (list Z)) :=
  match header_ r, interleaved_frames with
  | Some p, Some buf =>
      if frame_count =? 0 then Some (0, Some buf, fs) else
      file ← fs !! p;
      '(n, out, region') ← Read_mapped (in_mapping r file) buf frame_count;
      Some (n, Some out, <[p := region' ++ past_mapping r file]> fs)
  | _, _ => Some (0, interleaved_frames, fs)
  end.

(** ** The backing store *)

(** A file is its content in whole cells. [Open] reads a file only after it
    has sized it to [MappingSize], a multiple of 4 bytes, so the trailing
    bytes of an older file of another size are read as [ftruncate] leaves
    them: cut, or padded with zero bytes. Permission bits ([0666], [fchmod])
    are not modelled: whether [open] is allowed is one of the answers of the
    operating system below. *)

(** What the operating system answers to the fallible calls of one [Open]:
    the descriptor [open] returns (negative when it refuses for a reason of
    its own), and whether [ftruncate] and [mmap] go through. *)
Record OsAnswers := mkOs {
  open_fd : Z;
  ftruncate_ok : bool;
  mmap_ok : bool
}.

(** [open(path, O_RDWR)] or [open(path, O_CREAT | O_RDWR, 0666)]: a missing
    file is created empty with [O_CREAT] and is an error without it. *)
Definition sys_open (os : OsAnswers) (fs : gmap string (list Z))
    (path : string) (o_creat : bool) : Z * gmap string (list Z) :=
  if open_fd os <? 0 then (-1, fs) else
  match fs !! path with
  | Some _ => (open_fd os, fs)
  | None => if o_creat then (open_fd os, <[path := []]> fs) else (-1, fs)
  end.

(** [static_cast<off_t>(size_t)]: the same 64 bits read as signed. *)
Definition to_off_t (z : Z) : Z := if z <? 2 ^ 63 then z else z - 2 ^ 64.

(** [ftruncate(fd, length)] on the file behind the descriptor: cut, or
    extended with zero bytes; a negative length is [EINVAL]. [Open] only
    passes multiples of 4, so the new size is a whole number of cells. *)
Definition sys_ftruncate (os : OsAnswers) (fs : gmap string (list Z))
    (path : string) (length : Z) : bool * gmap string (list Z) :=
  if negb (ftruncate_ok os) || (length <? 0) then (false, fs) else
  match fs !! path with
  | Some file =>
      (true, <[path := resize (Z.to_nat (length / sizeof_float)) 0 file]> fs)
  | None => (false, fs)
  end.

(** [mmap(nullptr, length, PROT_READ | PROT_WRITE, MAP_SHARED, fd, 0)]:
    [None] is [MAP_FAILED]; a zero length is [EINVAL]. *)
Definition sys_mmap (os : OsAnswers) (path : string) (length : Z)
  : option string :=
  if negb (mmap_ok os) || (length =? 0) then None else Some path.

(** ** Open *)

(** [std::string::c_str()] as a C function reads it: up to the first NUL. *)
Fixpoint c_str (s : string) : string :=
  match s with
  | EmptyString => EmptyString
  | String c rest =>
      if Ascii.eqb c Ascii.zero then EmptyString else String c (c_str rest)
  end.

Definition empty (s : string) : bool :=
  match s with EmptyString => true | String _ _ => false end.

(** [s[0] == c], on a non-empty string. *)
Definition front_is (c : Ascii.ascii) (s : string) : bool :=
  match s with EmptyString => false | String a _ => Ascii.eqb a c end.

(** [s.erase(0, 1)]. *)
Definition erase_front (s : string) : string :=
  match s with EmptyString => EmptyString | String _ rest => rest end.

(** [std::replace(s.begin(), s.end(), old, new)]. *)
Fixpoint replace (old new : Ascii.ascii) (s : string) : string :=
  match s with
  | EmptyString => EmptyString
  | String a rest =>
      String (if Ascii.eqb a old then new else a) (replace old new rest)
  end.

(** Lines 75-80 of [Open]: the name of the backing file. *)
Definition backing_file (name : string) : string :=
  let path_name := name in
  let path_name :=
    if negb (empty path_name) && front_is "/"%char path_name
    then erase_front path_name else path_name in
  let path_name := replace "/"%char "_"%char path_name in
  "/tmp/" +:+ path_name +:+ ".ring".

(** The condition of the [if] of [InitializeIfNeeded], evaluated left to
    right with the short circuit of [||]. *)
Definition reset_needed (region : list Z) (create : bool)
    (channels capacity_frames : Z) : option bool :=
  if create then Some true else
  magic ← load region off_magic;
  if negb (magic =? kMagic) then Some true else
  version ← load region off_version;
  if negb (version =? kVersion) then Some true else
  ch ← load region off_channels;
  if negb (ch =? channels) then Some true else
  cap ← load region off_capacity_frames;
  Some (negb (cap =? capacity_frames)).

(** The body of that [if]. *)
Definition reset (region : list Z) (mapping_size channels capacity_frames : Z)
  : option (list Z) :=
  region ← memset0 region (mapping_size / sizeof_float);
  region ← store region off_magic kMagic;
  region ← store region off_version kVersion;
  region ← store region off_channels channels;
  region ← store region off_capacity_frames capacity_frames;
  region ← store region off_write_index 0;
  store region off_read_index 0.

(** [mapping_] and [header_] are the same pointer whenever this runs ([Open]
    sets one from the other just before), so the [memset] through [mapping_]
    is a write to the region [header_] points to. *)
Definition InitializeIfNeeded (r : SharedMemoryAudioRing)
    (fs : gmap string (list Z)) (create : bool) (channels capacity_frames : Z)
  : option (bool * gmap string (list Z)) :=
  match header_ r with
  | None => Some (false, fs)
  | Some p =>
      region ← fs !! p;
      needed ← reset_needed region create channels capacity_frames;
      if needed : bool then
        region' ← reset region (mapping_size_ r) channels capacity_frames;
        Some (true, <[p := region']> fs)
      else Some (true, fs)
  end.

Definition Open (os : OsAnswers) (r : SharedMemoryAudioRing)
    (fs : gmap string (list Z)) (name : string) (create : bool)
    (channels capacity_frames : Z)
  : option (bool * SharedMemoryAudioRing * gmap string (list Z)) :=
  let r := Close r in
  if empty name || (channels =? 0) || (capacity_frames =? 0)
  then Some (false, r, fs) else
  let backing_file := backing_file name in
  let path := c_str backing_file in
  let '(fd, fs) := sys_open os fs path create in
  let r := {| shm_fd_ := fd; mapping_ := mapping_ r;
              mapping_size_ := mapping_size_ r; header_ := header_ r;
              name_ := name_ r |} in
  if fd <? 0 then Some (false, r, fs) else
  let r := {| shm_fd_ := shm_fd_ r; mapping_ := mapping_ r;
              mapping_size_ := MappingSize channels capacity_frames;
              header_ := header_ r; name_ := name_ r |} in
  let '(truncated, fs) :=
    sys_ftruncate os fs path (to_off_t (mapping_size_ r)) in
  if negb truncated then Some (false, Close r, fs) else
  match sys_mmap os path (mapping_size_ r) with
  | None => Some (false, Close r, fs)
  | Some m =>
      let r := {| shm_fd_ := shm_fd_ r; mapping_ := Some m;
                  mapping_size_ := mapping_size_ r; header_ := Some m;
                  name_ := name_ r |} in
      '(initialized, fs) ← InitializeIfNeeded r fs create channels capacity_frames;
      if initialized : bool
      then Some (true,
                 {| shm_fd_ := shm_fd_ r; mapping_ := mapping_ r;
                    mapping_size_ := mapping_size_ r; header_ := header_ r;
                    name_ := backing_file |},
                 fs)
      else Some (false, Close r, fs)
  end.

(** * VirtualAudioDriver: the driver's use of the two rings

    The driver keeps its state in globals; [Driver] holds the ones the
    functions below touch ([g_sample_rate] and [g_buffer_frame_size] belong
    to the property functions). Atomics are read and written in program
    order, and [g_ring_mutex], which only keeps two threads from using the
    rings at once, has no effect on one thread. The I/O buffer the host
    passes is a list of samples, like the buffers of [Write] and [Read];
    [None] is a null pointer, and a result [None] is an access outside a
    buffer. *)

(** The statuses the functions below return; their numeric values come from
    the CoreAudio headers and are never inspected by the driver. *)
Inductive OSStatus :=
| kAudioHardwareNoError
| kAudioHardwareBadObjectError
| kAudioHardwareUnsupportedOperationError
| kAudioHardwareIllegalOperationError
| kAudioHardwareUnknownPropertyError.

Definition kObjectIDDevice : Z := 2.
Definition kObjectIDStreamInput : Z := 3.
Definition kObjectIDStreamOutput : Z := 4.
Definition kChannelCount : Z := 2.
Definition kMicFeedRingName : string := "/virtual_audio_bridge_mic_feed".
Definition kSpeakerTapRingName : string := "/virtual_audio_bridge_speaker_tap".

Record Driver := mkDriver {
  g_host : option Z;          (* nullptr, or the host interface *)
  g_ref_count : Z;            (* UInt32 *)
  g_io_client_count : Z;      (* UInt32 *)
  g_clock_seed : Z;           (* UInt64 *)
  g_anchor_host_time : Z;     (* UInt64 *)
  g_anchor_sample_time : Z;   (* Float64, as its bits: 0 is 0.0 *)
  g_mic_feed_ring : SharedMemoryAudioRing;
  g_speaker_tap_ring : SharedMemoryAudioRing
}.

(** The globals as their initialisers leave them. *)
Definition loaded : Driver :=
  {| g_host := None; g_ref_count := 1; g_io_client_count := 0;
     g_clock_seed := 1; g_anchor_host_time := 0; g_anchor_sample_time := 0;
     g_mic_feed_ring := unopened; g_speaker_tap_ring := unopened |}.

(** [fetch_add(1) + 1], in [UInt32]. *)
Definition DriverAddRef (d : Driver) : Z * Driver :=
  let previous := g_ref_count d in
  (wrap32 (previous + 1),
   {| g_host := g_host d; g_ref_count := wrap32 (previous + 1);
      g_io_client_count := g_io_client_count d;
      g_clock_seed := g_clock_seed d;
      g_anchor_host_time := g_anchor_host_time d;
      g_anchor_sample_time := g_anchor_sample_time d;
      g_mic_feed_ring := g_mic_feed_ring d;
      g_speaker_tap_ring := g_speaker_tap_ring d |}).

Definition DriverRelease (d : Driver) : Z * Driver :=
  let current := g_ref_count d in
  if current =? 0 then (0, d) else
  (wrap32 (current - 1),
   {| g_host := g_host d; g_ref_count := wrap32 (current - 1);
      g_io_client_count := g_io_client_count d;
      g_clock_seed := g_clock_seed d;
      g_anchor_host_time := g_anchor_host_time d;
      g_anchor_sample_time := g_anchor_sample_time d;
      g_mic_feed_ring := g_mic_feed_ring d;
      g_speaker_tap_ring := g_speaker_tap_ring d |}).

(** Both rings are opened with [create = true]; the results of [Open] are
    discarded. [os_mic] and [os_tap] are the answers of the operating system
    to the two calls. *)
Definition DriverInitialize (os_mic os_tap : OsAnswers) (d : Driver)
    (fs : gmap string (list Z)) (in_host : option Z)
  : option (OSStatus * Driver * gmap string (list Z)) :=
  '(_, mic, fs) ← Open os_mic (g_mic_feed_ring d) fs kMicFeedRingName true
                       kChannelCount 48000;
  '(_, tap, fs) ← Open os_tap (g_speaker_tap_ring d) fs kSpeakerTapRingName true
                       kChannelCount 48000;
  Some (kAudioHardwareNoError,
        {| g_host := in_host; g_ref_count := g_ref_count d;
           g_io_client_count := g_io_client_count d;
           g_clock_seed := g_clock_seed d;
           g_anchor_host_time := g_anchor_host_time d;
           g_anchor_sample_time := g_anchor_sample_time d;
           g_mic_feed_ring := mic; g_speaker_tap_ring := tap |},
        fs).

(** [now] is what [AudioGetCurrentHostTime()] returns. *)
Definition DriverStartIO (d : Driver) (now : Z) (in_device_object_id : Z)
  : OSStatus * Driver :=
  if negb (in_device_object_id =? kObjectIDDevice)
  then (kAudioHardwareBadObjectError, d) else
  let previous := g_io_client_count d in
  let first := previous =? 0 in
  (kAudioHardwareNoError,
   {| g_host := g_host d; g_ref_count := g_ref_count d;
      g_io_client_count := wrap32 (previous + 1);
      g_clock_seed :=
        if first then wrap64 (g_clock_seed d + 1) else g_clock_seed d;
      g_anchor_host_time := if first then now else g_anchor_host_time d;
      g_anchor_sample_time := if first then 0 else g_anchor_sample_time d;
      g_mic_feed_ring := g_mic_feed_ring d;
      g_speaker_tap_ring := g_speaker_tap_ring d |}).

Definition DriverStopIO (d : Driver) (in_device_object_id : Z)
  : OSStatus * Driver :=
  if negb (in_device_object_id =? kObjectIDDevice)
  then (kAudioHardwareBadObjectError, d) else
  let current := g_io_client_count d in
  (kAudioHardwareNoError,
   if 0 <? current
   then {| g_host := g_host d; g_ref_count := g_ref_count d;
           g_io_client_count := wrap32 (current - 1);
           g_clock_seed := g_clock_seed d;
           g_anchor_host_time := g_anchor_host_time d;
           g_anchor_sample_time := g_anchor_sample_time d;
           g_mic_feed_ring := g_mic_feed_ring d;
           g_speaker_tap_ring := g_speaker_tap_ring d |}
   else d).

(** [memset(p + start, 0, 4 * cells)] on a buffer of samples. *)
Definition memset_at (buf : list Z) (start cells : Z) : option (list Z) :=
  if start + cells <=? Z.of_nat (length buf)
  then Some (take (Z.to_nat start) buf ++ replicate (Z.to_nat cells) 0
             ++ drop (Z.to_nat (start + cells)) buf)
  else None.

(** [AudioObjectPropertyAddress]. *)
Record AudioObjectPropertyAddress := {
  mSelector : Z;
  mScope : Z;
  mElement : Z
}.

(** [case l1: case l2: ...]: the value is one of the labels. *)
Definition is_case (x : Z) (labels : list Z) : bool :=
  existsb (Z.eqb x) labels.

(** Sizes of the scalar types: [UInt32] and its typedefs [AudioClassID] and
    [AudioObjectID], [Float64], and the pointer [CFStringRef]. *)
Definition sizeof_UInt32 : Z := 4.
Definition sizeof_AudioClassID : Z := 4.
Definition sizeof_AudioObjectID : Z := 4.
Definition sizeof_Float64 : Z := 8.
Definition sizeof_CFStringRef : Z := 8.

Section CoreAudio.
(** The identifiers below are constants of the CoreAudio headers, which are
    not part of the sources: the functions are given for any values of
    them. The labels of one [switch] are different values, or the driver
    would not compile. *)
Variables kAudioServerPlugInIOOperationReadInput
          kAudioServerPlugInIOOperationWriteMix : Z.
Variable kAudioObjectPlugInObject : Z.
Variables kAudioObjectPropertyScopeInput kAudioObjectPropertyScopeOutput : Z.
Variables kAudioObjectPropertyBaseClass kAudioObjectPropertyClass
          kAudioObjectPropertyOwner kAudioObjectPropertyName
          kAudioObjectPropertyManufacturer kAudioObjectPropertyOwnedObjects
          kAudioObjectPropertyControlList : Z.
Variables kAudioPlugInPropertyDeviceList
          kAudioPlugInPropertyTranslateUIDToDevice kAudioPlugInPropertyBoxList
          kAudioPlugInPropertyClockDeviceList
          kAudioPlugInPropertyResourceBundle : Z.
Variables kAudioDevicePropertyDeviceUID kAudioDevicePropertyModelUID
          kAudioDevicePropertyTransportType kAudioDevicePropertyStreams
          kAudioDevicePropertyStreamConfiguration
          kAudioDevicePropertyNominalSampleRate
          kAudioDevicePropertyAvailableNominalSampleRates
          kAudioDevicePropertyBufferFrameSize
          kAudioDevicePropertyBufferFrameSizeRange
          kAudioDevicePropertyZeroTimeStampPeriod
          kAudioDevicePropertyDeviceIsAlive kAudioDevicePropertyDeviceIsRunning
          kAudioDevicePropertyClockDomain kAudioDevicePropertyRelatedDevices
          kAudioDevicePropertyClockIsStable kAudioDevicePropertyIsHidden
          kAudioDevicePropertySafetyOffset kAudioDevicePropertyLatency
          kAudioDevicePropertyPreferredChannelsForStereo
          kAudioDevicePropertyDeviceCanBeDefaultDevice
          kAudioDevicePropertyDeviceCanBeDefaultSystemDevice : Z.
Variables kAudioStreamPropertyDirection kAudioStreamPropertyTerminalType
          kAudioStreamPropertyStartingChannel kAudioStreamPropertyLatency
          kAudioStreamPropertyVirtualFormat
          kAudioStreamPropertyAvailableVirtualFormats
          kAudioStreamPropertyPhysicalFormat
          kAudioStreamPropertyAvailablePhysicalFormats
          kAudioStreamPropertyIsActive : Z.
(** [sizeof] of the structures of the headers, and
    [offsetof(AudioBufferList, mBuffers)]. *)
Variables sizeof_AudioStreamBasicDescription sizeof_AudioValueRange
          sizeof_AudioStreamRangedDescription sizeof_AudioBuffer
          offsetof_AudioBufferList_mBuffers : Z.

Definition kObjectIDPlugIn : Z := kAudioObjectPlugInObject.

Definition IsKnownObject (object_id : Z) : bool :=
  (object_id =? kObjectIDPlugIn) || (object_id =? kObjectIDDevice)
  || (object_id =? kObjectIDStreamInput) || (object_id =? kObjectIDStreamOutput).

Definition DriverHasProperty (in_object_id : Z)
    (in_address : option AudioObjectPropertyAddress) : bool :=
  match in_address with
  | None => false
  | Some address =>
      if negb (IsKnownObject in_object_id) then false else
      if in_object_id =? kObjectIDPlugIn then
        if is_case (mSelector address)
             [kAudioObjectPropertyBaseClass; kAudioObjectPropertyClass;
              kAudioObjectPropertyOwner; kAudioObjectPropertyName;
              kAudioObjectPropertyManufacturer;
              kAudioObjectPropertyOwnedObjects;
              kAudioPlugInPropertyDeviceList;
              kAudioPlugInPropertyTranslateUIDToDevice;
              kAudioPlugInPropertyBoxList;
              kAudioPlugInPropertyClockDeviceList;
              kAudioPlugInPropertyResourceBundle]
        then true else false
      else if in_object_id =? kObjectIDDevice then
        if is_case (mSelector address)
             [kAudioObjectPropertyBaseClass; kAudioObjectPropertyClass;
              kAudioObjectPropertyOwner; kAudioObjectPropertyName;
              kAudioObjectPropertyManufacturer;
              kAudioObjectPropertyOwnedObjects;
              kAudioObjectPropertyControlList;
              kAudioDevicePropertyDeviceUID; kAudioDevicePropertyModelUID;
              kAudioDevicePropertyTransportType; kAudioDevicePropertyStreams;
              kAudioDevicePropertyStreamConfiguration;
              kAudioDevicePropertyNominalSampleRate;
              kAudioDevicePropertyAvailableNominalSampleRates;
              kAudioDevicePropertyBufferFrameSize;
              kAudioDevicePropertyBufferFrameSizeRange;
              kAudioDevicePropertyZeroTimeStampPeriod;
              kAudioDevicePropertyDeviceIsAlive;
              kAudioDevicePropertyDeviceIsRunning;
              kAudioDevicePropertyClockDomain;
              kAudioDevicePropertyRelatedDevices;
              kAudioDevicePropertyClockIsStable; kAudioDevicePropertyIsHidden]
        then true
        else if is_case (mSelector address)
             [kAudioDevicePropertySafetyOffset; kAudioDevicePropertyLatency;
              kAudioDevicePropertyPreferredChannelsForStereo;
              kAudioDevicePropertyDeviceCanBeDefaultDevice;
              kAudioDevicePropertyDeviceCanBeDefaultSystemDevice]
        then (mScope address =? kAudioObjectPropertyScopeInput)
             || (mScope address =? kAudioObjectPropertyScopeOutput)
        else false
      else if is_case in_object_id [kObjectIDStreamInput; kObjectIDStreamOutput]
      then
        if is_case (mSelector address)
             [kAudioObjectPropertyBaseClass; kAudioObjectPropertyClass;
              kAudioObjectPropertyOwner; kAudioObjectPropertyName;
              kAudioStreamPropertyDirection; kAudioStreamPropertyTerminalType;
              kAudioStreamPropertyStartingChannel; kAudioStreamPropertyLatency;
              kAudioStreamPropertyVirtualFormat;
              kAudioStreamPropertyAvailableVirtualFormats;
              kAudioStreamPropertyPhysicalFormat;
              kAudioStreamPropertyAvailablePhysicalFormats;
              kAudioStreamPropertyIsActive]
        then true else false
      else false
  end.

(** [out_is_settable] tells whether the pointer is non-null; the result
    carries the value stored through it. *)
Definition DriverIsPropertySettable (in_object_id : Z)
    (in_address : option AudioObjectPropertyAddress) (out_is_settable : bool)
  : OSStatus * option bool :=
  match in_address with
  | None => (kAudioHardwareIllegalOperationError, None)
  | Some address =>
      if negb out_is_settable
      then (kAudioHardwareIllegalOperationError, None) else
      if negb (IsKnownObject in_object_id)
      then (kAudioHardwareBadObjectError, None) else
      let is_settable := false in
      let is_settable :=
        if (in_object_id =? kObjectIDDevice)
           && ((mSelector address =? kAudioDevicePropertyNominalSampleRate)
               || (mSelector address =? kAudioDevicePropertyBufferFrameSize))
        then true else is_settable in
      let is_settable :=
        if ((in_object_id =? kObjectIDStreamInput)
            || (in_object_id =? kObjectIDStreamOutput))
           && ((mSelector address =? kAudioStreamPropertyVirtualFormat)
               || (mSelector address =? kAudioStreamPropertyPhysicalFormat))
        then true else is_settable in
      (kAudioHardwareNoError, Some is_settable)
  end.

(** [out_data_size] tells whether the pointer is non-null; the result
    carries the size stored through it, a [size_t] converted to [UInt32]. *)
Definition DriverGetPropertyDataSize (in_object_id : Z)
    (in_address : option AudioObjectPropertyAddress) (out_data_size : bool)
  : OSStatus * option Z :=
  match in_address with
  | None => (kAudioHardwareIllegalOperationError, None)
  | Some address =>
      if negb out_data_size
      then (kAudioHardwareIllegalOperationError, None) else
      if negb (IsKnownObject in_object_id)
      then (kAudioHardwareBadObjectError, None) else
      let scoped :=
        (mScope address =? kAudioObjectPropertyScopeInput)
        || (mScope address =? kAudioObjectPropertyScopeOutput) in
      let selector := mSelector address in
      if in_object_id =? kObjectIDPlugIn then
        if is_case selector
             [kAudioObjectPropertyBaseClass; kAudioObjectPropertyClass;
              kAudioObjectPropertyOwner]
        then (kAudioHardwareNoError, Some (wrap32 sizeof_AudioClassID))
        else if is_case selector
             [kAudioObjectPropertyName; kAudioObjectPropertyManufacturer;
              kAudioPlugInPropertyResourceBundle]
        then (kAudioHardwareNoError, Some (wrap32 sizeof_CFStringRef))
        else if is_case selector
             [kAudioObjectPropertyOwnedObjects; kAudioPlugInPropertyDeviceList;
              kAudioPlugInPropertyTranslateUIDToDevice]
        then (kAudioHardwareNoError, Some (wrap32 sizeof_AudioObjectID))
        else if is_case selector
             [kAudioPlugInPropertyBoxList; kAudioPlugInPropertyClockDeviceList]
        then (kAudioHardwareNoError, Some 0)
        else (kAudioHardwareUnknownPropertyError, None)
      else if in_object_id =? kObjectIDDevice then
        if is_case selector
             [kAudioObjectPropertyBaseClass; kAudioObjectPropertyClass;
              kAudioObjectPropertyOwner]
        then (kAudioHardwareNoError, Some (wrap32 sizeof_AudioClassID))
        else if is_case selector
             [kAudioObjectPropertyName; kAudioObjectPropertyManufacturer;
              kAudioDevicePropertyDeviceUID; kAudioDevicePropertyModelUID]
        then (kAudioHardwareNoError, Some (wrap32 sizeof_CFStringRef))
        else if is_case selector [kAudioObjectPropertyOwnedObjects]
        then (kAudioHardwareNoError,
              Some (if scoped then wrap32 sizeof_AudioObjectID
                    else wrap32 (wrap64 (sizeof_AudioObjectID * 2))))
        else if is_case selector [kAudioObjectPropertyControlList]
        then (kAudioHardwareNoError, Some 0)
        else if is_case selector
             [kAudioDevicePropertyTransportType;
              kAudioDevicePropertyBufferFrameSize;
              kAudioDevicePropertySafetyOffset; kAudioDevicePropertyLatency;
              kAudioDevicePropertyZeroTimeStampPeriod;
              kAudioDevicePropertyDeviceIsAlive;
              kAudioDevicePropertyDeviceIsRunning;
              kAudioDevicePropertyClockDomain;
              kAudioDevicePropertyDeviceCanBeDefaultDevice;
              kAudioDevicePropertyDeviceCanBeDefaultSystemDevice;
              kAudioDevicePropertyClockIsStable; kAudioDevicePropertyIsHidden]
        then (kAudioHardwareNoError, Some (wrap32 sizeof_UInt32))
        else if is_case selector [kAudioDevicePropertyRelatedDevices]
        then (kAudioHardwareNoError, Some (wrap32 sizeof_AudioObjectID))
        else if is_case selector
             [kAudioDevicePropertyPreferredChannelsForStereo]
        then (kAudioHardwareNoError, Some (wrap32 (wrap64 (sizeof_UInt32 * 2))))
        else if is_case selector [kAudioDevicePropertyStreams]
        then (kAudioHardwareNoError,
              Some (if scoped then wrap32 sizeof_AudioObjectID
                    else wrap32 (wrap64 (sizeof_AudioObjectID * 2))))
        else if is_case selector [kAudioDevicePropertyStreamConfiguration]
        then (kAudioHardwareNoError,
              Some (wrap32 (wrap64 (offsetof_AudioBufferList_mBuffers
                                    + sizeof_AudioBuffer))))
        else if is_case selector [kAudioDevicePropertyNominalSampleRate]
        then (kAudioHardwareNoError, Some (wrap32 sizeof_Float64))
        else if is_case selector
             [kAudioDevicePropertyAvailableNominalSampleRates;
              kAudioDevicePropertyBufferFrameSizeRange]
        then (kAudioHardwareNoError, Some (wrap32 sizeof_AudioValueRange))
        else (kAudioHardwareUnknownPropertyError, None)
      else if is_case in_object_id [kObjectIDStreamInput; kObjectIDStreamOutput]
      then
        if is_case selector
             [kAudioObjectPropertyBaseClass; kAudioObjectPropertyClass;
              kAudioObjectPropertyOwner; kAudioStreamPropertyDirection;
              kAudioStreamPropertyTerminalType;
              kAudioStreamPropertyStartingChannel; kAudioStreamPropertyLatency;
              kAudioStreamPropertyIsActive]
        then (kAudioHardwareNoError, Some (wrap32 sizeof_UInt32))
        else if is_case selector [kAudioObjectPropertyName]
        then (kAudioHardwareNoError, Some (wrap32 sizeof_CFStringRef))
        else if is_case selector
             [kAudioStreamPropertyVirtualFormat;
              kAudioStreamPropertyPhysicalFormat]
        then (kAudioHardwareNoError,
              Some (wrap32 sizeof_AudioStreamBasicDescription))
        else if is_case selector
             [kAudioStreamPropertyAvailableVirtualFormats;
              kAudioStreamPropertyAvailablePhysicalFormats]
        then (kAudioHardwareNoError,
              Some (wrap32 sizeof_AudioStreamRangedDescription))
        else (kAudioHardwareUnknownPropertyError, None)
      else (kAudioHardwareBadObjectError, None)
  end.

(** The result carries [*out_will_do] and [*out_will_do_in_place], when the
    function stores them; the two pointers are null or not. *)
Definition DriverWillDoIOOperation (in_device_object_id in_operation_id : Z)
    (out_will_do out_will_do_in_place : bool)
  : OSStatus * option (bool * bool) :=
  if negb (in_device_object_id =? kObjectIDDevice)
  then (kAudioHardwareBadObjectError, None) else
  if negb out_will_do || negb out_will_do_in_place
  then (kAudioHardwareIllegalOperationError, None) else
  let supported :=
    (in_operation_id =? kAudioServerPlugInIOOperationReadInput)
    || (in_operation_id =? kAudioServerPlugInIOOperationWriteMix) in
  (kAudioHardwareNoError, Some (supported, supported)).

(** The result carries the I/O buffer as the call leaves it. *)
Definition DriverDoIOOperation (d : Driver) (fs : gmap string (list Z))
    (in_device_object_id in_operation_id in_io_buffer_frame_size : Z)
    (io_main_buffer : option (list Z))
  : option (OSStatus * option (list Z) * gmap string (list Z)) :=
  if negb (in_device_object_id =? kObjectIDDevice)
  then Some (kAudioHardwareBadObjectError, io_main_buffer, fs) else
  if negb (in_operation_id =? kAudioServerPlugInIOOperationReadInput)
     && negb (in_operation_id =? kAudioServerPlugInIOOperationWriteMix)
  then Some (kAudioHardwareUnsupportedOperationError, io_main_buffer, fs) else
  match io_main_buffer with
  | None => Some (kAudioHardwareIllegalOperationError, io_main_buffer, fs)
  | Some frames =>
      let frame_count := in_io_buffer_frame_size in
      if in_operation_id =? kAudioServerPlugInIOOperationReadInput then
        '(got, frames, fs) ← Read (g_mic_feed_ring d) fs (Some frames) frame_count;
        frames ← frames;
        if got <? frame_count then
          let start := wrap64 (got * kChannelCount) in
          let count := wrap64 ((frame_count - got) * kChannelCount) in
          frames ← memset_at frames start
                              (wrap64 (sizeof_float * count) / sizeof_float);
          Some (kAudioHardwareNoError, Some frames, fs)
        else Some (kAudioHardwareNoError, Some frames, fs)
      else
        '(_, fs) ← Write (g_speaker_tap_ring d) fs (Some frames) frame_count;
        Some (kAudioHardwareNoError, Some frames, fs)
  end.
End CoreAudio.

(** * Vocabulary of the statements *)

(** What a [memcpy] within bounds leaves in [dst]. *)
Definition memcpy_result (dst : list Z) (d : Z) (src : list Z) (s n : Z)
  : list Z :=
  take (Z.to_nat d) dst ++ take (Z.to_nat n) (drop (Z.to_nat s) src)
    ++ drop (Z.to_nat (d + n)) dst.

(** The cells the frame with index [index] occupies in the mapping. *)
Definition in_slot (channels capacity index k : Z) : Prop :=
  DataStart + frame_slot index capacity * channels ≤ k
  < DataStart + frame_slot index capacity * channels + channels.

(** [region] holds a ring of [channels] x [capacity] samples whose header
    stores the indices [write] and [read], and is large enough for the
    whole frame buffer. *)
Record ring_region (region : list Z) (channels capacity write read : Z)
  : Prop := {
  rr_channels : region !! off_channels = Some channels;
  rr_capacity : region !! off_capacity_frames = Some capacity;
  rr_write : region !! off_write_index = Some write;
  rr_read : region !! off_read_index = Some read;
  rr_channels_u32 : is_u32 channels;
  rr_capacity_u32 : is_u32 capacity;
  rr_write_u32 : is_u32 write;
  rr_read_u32 : is_u32 read;
  rr_size : DataStart + capacity * channels ≤ Z.of_nat (length region)
}.

(** The mapping of [r] reaches the end of [file]: the instance sees the whole
    file, as it does from its own [Open] on, until another [Open] makes the
    file longer. *)
Definition whole_file_mapped (r : SharedMemoryAudioRing) (file : list Z)
  : Prop :=
  (length file ≤ mapping_cells r)%nat.

(** Frames buffered, as both [Write] and [Read] compute it. *)
Definition used_frames (capacity write read : Z) : Z :=
  Z.min (wrap32 (write - read)) capacity.

(** A freshly stamped region of [cells] cells. *)
Definition fresh_region (cells : nat) (channels capacity_frames : Z) : list Z :=
  [kMagic; kVersion; channels; capacity_frames; 0; 0] ++ replicate (cells - 6) 0.

(** The instance a successful [Open] leaves. *)
Definition opened (os : OsAnswers) (name : string)
    (channels capacity_frames : Z) : SharedMemoryAudioRing :=
  {| shm_fd_ := open_fd os;
     mapping_ := Some (c_str (backing_file name));
     mapping_size_ := MappingSize channels capacity_frames;
     header_ := Some (c_str (backing_file name));
     name_ := backing_file name |}.

(** The backing file as [ftruncate] leaves it, before the header is
    examined. *)
Definition sized_file (fs : gmap string (list Z)) (name : string)
    (channels capacity_frames : Z) : list Z :=
  resize (Z.to_nat (MappingSize channels capacity_frames / sizeof_float)) 0
         (default [] (fs !! c_str (backing_file name))).

(** Calls on an open ring, for sequences of them. *)
Inductive Call :=
| CallWrite (interleaved_frames : option (list Z)) (frame_count : Z)
| CallRead (interleaved_frames : option (list Z)) (frame_count : Z).

Definition do_call (r : SharedMemoryAudioRing) (fs : gmap string (list Z))
    (c : Call) : option (gmap string (list Z)) :=
  match c with
  | CallWrite buf n => '(_, fs') ← Write r fs buf n; Some fs'
  | CallRead buf n => '(_, _, fs') ← Read r fs buf n; Some fs'
  end.

Fixpoint do_calls (r : SharedMemoryAudioRing) (fs : gmap string (list Z))
    (calls : list Call) : option (gmap string (list Z)) :=
  match calls with
  | [] => Some fs
  | c :: calls' => fs' ← do_call r fs c; do_calls r fs' calls'
  end.

(** A call a C++ caller may make on a ring of [chans] channels: the count is
    a [size_t] and the pointer is null or points to that many frames. *)
Definition valid_call (chans : Z) (c : Call) : Prop :=
  match c with
  | CallWrite buf n | CallRead buf n =>
      is_size_t n
      ∧ match buf with
        | None => True
        | Some b => n * chans ≤ Z.of_nat (length b)
        end
  end.


(** The header stored in a backing file is the one a caller asks for. *)
Definition header_matches (file : list Z) (chans capacity : Z) : Prop :=
  file !! off_magic = Some kMagic
  ∧ file !! off_version = Some kVersion
  ∧ file !! off_channels = Some chans
  ∧ file !! off_capacity_frames = Some capacity.

(** A separator becomes an underscore, any other character stays. *)
Definition underscore_separator (c : Ascii.ascii) : Ascii.ascii :=
  if Ascii.eqb c "/"%char then "_"%char else c.

(** The samples of the frame with index [index], as they lie in the mapping. *)
Definition frame_at (region : list Z) (chans capacity index : Z) : list Z :=
  take (Z.to_nat chans)
       (drop (Z.to_nat (DataStart + frame_slot index capacity * chans)) region).

(** The samples of [n] consecutive frames from index [index] on, in order:
    with [index] the read index and [n] the frames buffered, what the ring
    holds. *)
Fixpoint frames_from (region : list Z) (chans capacity index : Z) (n : nat)
  : list Z :=
  match n with
  | O => []
  | S n' =>
      frame_at region chans capacity index
        ++ frames_from region chans capacity (index + 1) n'
  end.

(** The frames a call accepts and the frames it returns. *)
Definition transferred (r : SharedMemoryAudioRing) (fs : gmap string (list Z))
    (c : Call) : option (Z * Z * gmap string (list Z)) :=
  match c with
  | CallWrite buf n => '(k, fs') ← Write r fs buf n; Some (k, 0, fs')
  | CallRead buf n => '(k, _, fs') ← Read r fs buf n; Some (0, k, fs')
  end.

(** The totals over a sequence of calls. *)
Fixpoint total_transferred (r : SharedMemoryAudioRing)
    (fs : gmap string (list Z)) (calls : list Call)
  : option (Z * Z * gmap string (list Z)) :=
  match calls with
  | [] => Some (0, 0, fs)
  | c :: calls' =>
      '(w1, t1, fs1) ← transferred r fs c;
      '(w2, t2, fs2) ← total_transferred r fs1 calls';
      Some (w1 + w2, t1 + t2, fs2)
  end.

(** The clock of the device: seed, anchor host time, anchor sample time. *)
Definition clock (d : Driver) : Z * Z * Z :=
  (g_clock_seed d, g_anchor_host_time d, g_anchor_sample_time d).

(** Clients starting I/O on the device one after the other, at the host
    times [times]; clients stopping; references taken and dropped. *)
Definition start_clients (d : Driver) (times : list Z) : Driver :=
  fold_left (λ d now, (DriverStartIO d now kObjectIDDevice).2) times d.

Definition stop_clients (d : Driver) (n : nat) : Driver :=
  Nat.iter n (λ d, (DriverStopIO d kObjectIDDevice).2) d.

Definition add_refs (d : Driver) (n : nat) : Driver :=
  Nat.iter n (λ d, (DriverAddRef d).2) d.

Definition releases (d : Driver) (n : nat) : Driver :=
  Nat.iter n (λ d, (DriverRelease d).2) d.

(** One [case] group after the other: either the selector is in the group
    and the [switch] is decided, or it is not and the next group is tried. *)
Ltac next_case :=
  match goal with
  | |- context [if is_case ?x ?l then _ else _] =>
      let E := fresh "E" in destruct (is_case x l) eqn:E
  end.

Ltac case_in H :=
  match type of H with
  | context [if is_case ?x ?l then _ else _] =>
      let E := fresh "E" in destruct (is_case x l) eqn:E in H
  end.

(** A selector that is in none of the groups of one [switch] is not in a
    group of labels taken from them. *)
Ltac no_label H :=
  unfold is_case in H; cbn [existsb] in H;
  repeat (let H1 := fresh in apply orb_false_iff in H as [H1 H]);
  clear H.

Ltac not_a_case :=
  repeat match goal with
         | H : is_case _ _ = false |- _ => no_label H
         end;
  match goal with
  | H : is_case _ _ = true |- _ =>
      unfold is_case in H; cbn [existsb] in H;
      repeat match goal with
             | Hf : (_ =? _) = false |- _ => rewrite ?Hf in H; clear Hf
             end;
      discriminate H
  end.

(** The size a [case] stores is a [UInt32]. *)
Ltac stored_size :=
  eexists; split; [reflexivity|];
  try match goal with |- is_u32 (if ?b then _ else _) => destruct b end;
  unfold is_u32, wrap32; first [lia | apply Z.mod_pos_bound; lia].

(** * Properties *)

(** ** Machine arithmetic *)

Lemma wrap32_small z : is_u32 z → wrap32 z = z.
Proof. unfold is_u32, wrap32. intros H. apply Z.mod_small. lia. Qed.

Lemma wrap64_small z : is_size_t z → wrap64 z = z.
Proof. unfold is_size_t, wrap64. intros H. apply Z.mod_small. lia. Qed.

Lemma wrap32_range z : is_u32 (wrap32 z).
Proof. unfold is_u32, wrap32. apply Z.mod_pos_bound. lia. Qed.

Lemma MinU32_spec a b : MinU32 a b = Z.min a b.
Proof. unfold MinU32. destruct (Z.ltb_spec a b); lia. Qed.

Lemma MinSizeT_spec a b : MinSizeT a b = Z.min a b.
Proof. unfold MinSizeT. destruct (Z.ltb_spec a b); lia. Qed.

(** The product of two 32-bit values fits [size_t]. *)
Lemma sample_index_exact frame channels :
  is_u32 frame → is_u32 channels →
  sample_index frame channels = frame * channels.
Proof.
  unfold sample_index, is_u32. intros Hf Hc.
  apply wrap64_small. unfold is_size_t. nia.
Qed.

Lemma frame_slot_range index capacity :
  0 < capacity → 0 ≤ frame_slot index capacity < capacity.
Proof. intros H. unfold frame_slot. apply Z.mod_pos_bound. lia. Qed.

(** [MappingSize] is what the layout says, reduced modulo 2^64. *)
Lemma MappingSize_wraps channels capacity_frames :
  MappingSize channels capacity_frames
  = (24 + 4 * channels * capacity_frames) mod 2 ^ 64.
Proof.
  unfold MappingSize, wrap64, sizeof_Header, sizeof_float.
  rewrite Zplus_mod_idemp_r.
  rewrite <- (Zplus_mod_idemp_r ((4 * channels) mod 2 ^ 64 * capacity_frames)).
  rewrite Zmult_mod_idemp_l. apply Zplus_mod_idemp_r.
Qed.

Lemma MappingSize_exact channels capacity_frames :
  0 ≤ channels → 0 ≤ capacity_frames →
  24 + 4 * channels * capacity_frames < 2 ^ 64 →
  MappingSize channels capacity_frames = 24 + 4 * channels * capacity_frames.
Proof.
  intros Hc Hf Hlt. rewrite MappingSize_wraps. apply Z.mod_small. nia.
Qed.

(** ** Memory accesses *)

Lemma store_Some region i v :
  (i < length region)%nat → store region i v = Some (<[i := v]> region).
Proof.
  intros H. unfold store. destruct (Nat.ltb_spec i (length region)); [done | lia].
Qed.

Section memcpy.
Variables (dst : list Z) (d : Z) (src : list Z) (s n : Z).
Hypothesis (Hd : 0 ≤ d) (Hs : 0 ≤ s) (Hn : 0 ≤ n).
Hypothesis (Hdst : d + n ≤ Z.of_nat (length dst)).
Hypothesis (Hsrc : s + n ≤ Z.of_nat (length src)).

Lemma memcpy_Some : memcpy dst d src s n = Some (memcpy_result dst d src s n).
Proof using Hdst Hsrc.
  unfold memcpy.
  destruct (Z.leb_spec (d + n) (Z.of_nat (length dst))); [|lia].
  destruct (Z.leb_spec (s + n) (Z.of_nat (length src))); [done | lia].
Qed.

Lemma memcpy_length : length (memcpy_result dst d src s n) = length dst.
Proof using Hd Hs Hn Hdst Hsrc.
  unfold memcpy_result.
  rewrite !length_app, !length_take, !length_drop. lia.
Qed.

(** Inside the destination range the source is read. *)
Lemma memcpy_lookup_in k :
  d ≤ k < d + n →
  (memcpy_result dst d src s n) !! Z.to_nat k = src !! Z.to_nat (s + (k - d)).
Proof using Hd Hs Hn Hdst Hsrc.
  intros Hk. unfold memcpy_result.
  rewrite lookup_app_r by (rewrite length_take; lia).
  rewrite length_take.
  rewrite lookup_app_l by (rewrite length_take, length_drop; lia).
  rewrite lookup_take_lt by lia.
  rewrite lookup_drop. f_equal. lia.
Qed.

(** Outside it the destination is left as it was. *)
Lemma memcpy_lookup_out k :
  0 ≤ k → ¬ (d ≤ k < d + n) →
  (memcpy_result dst d src s n) !! Z.to_nat k = dst !! Z.to_nat k.
Proof using Hd Hs Hn Hdst Hsrc.
  intros Hk0 Hk. unfold memcpy_result.
  destruct (Z.lt_ge_cases k d) as [Hlt | Hge].
  - rewrite lookup_app_l by (rewrite length_take; lia).
    apply lookup_take_lt. lia.
  - rewrite lookup_app_r by (rewrite length_take; lia).
    rewrite lookup_app_r by (rewrite !length_take, length_drop; lia).
    rewrite lookup_drop, !length_take, length_drop. f_equal. lia.
Qed.
End memcpy.

(** ** The copy loops *)

(** Two different slots occupy disjoint cell ranges. *)
Lemma slot_ranges_disjoint p q channels c :
  p ≠ q → 0 ≤ c < channels →
  ¬ (q * channels ≤ p * channels + c < q * channels + channels).
Proof. intros Hpq Hc. nia. Qed.

Section loops.
Variables (channels capacity : Z).
Hypothesis (Hch : is_u32 channels).
Hypothesis (Hcap : is_u32 capacity) (Hcap0 : 0 < capacity).

Lemma slot_index_exact index :
  sample_index (frame_slot index capacity) channels
  = frame_slot index capacity * channels.
Proof using Hch Hcap Hcap0.
  apply sample_index_exact; [|done].
  pose proof (frame_slot_range index capacity Hcap0).
  unfold is_u32 in *. lia.
Qed.


Lemma Write_loop_spec count : ∀ frame write src data,
  0 ≤ frame → frame + Z.of_nat count < 2 ^ 32 →
  DataStart + capacity * channels ≤ Z.of_nat (length data) →
  (frame + Z.of_nat count) * channels ≤ Z.of_nat (length src) →
  ∃ data',
    Write_loop count frame write channels capacity src data = Some data'
    ∧ length data' = length data
    ∧ (∀ k, 0 ≤ k →
         (∀ f, frame ≤ f < frame + Z.of_nat count → ¬ in_slot channels capacity (write + f) k) →
         data' !! Z.to_nat k = data !! Z.to_nat k)
    ∧ ((∀ f g, frame ≤ f < g → g < frame + Z.of_nat count →
          frame_slot (write + f) capacity ≠ frame_slot (write + g) capacity) →
       ∀ f c, frame ≤ f < frame + Z.of_nat count → 0 ≤ c < channels →
         data' !! Z.to_nat (DataStart + frame_slot (write + f) capacity * channels + c)
         = src !! Z.to_nat (f * channels + c)).
Proof using Hch Hcap Hcap0.
  induction count as [|count IH]; intros frame write src data Hf Hfc Hdata Hsrc.
  - exists data. simpl. repeat split; [intros; lia..|].
    intros _ f c ?. lia.
  - cbn [Write_loop].
    assert (Hfr : is_u32 frame) by (unfold is_u32; lia).
    rewrite slot_index_exact, (sample_index_exact frame) by done.
    pose proof (frame_slot_range (write + frame) capacity Hcap0) as Hslot.
    assert (Hds : DataStart = 6) by reflexivity.
    set (slot := frame_slot (write + frame) capacity) in *.
    assert (H1 : 0 ≤ DataStart + slot * channels) by (unfold is_u32 in *; nia).
    assert (H2 : 0 ≤ frame * channels) by (unfold is_u32 in *; nia).
    assert (H3 : 0 ≤ channels) by (unfold is_u32 in *; lia).
    assert (H4 : DataStart + slot * channels + channels ≤ Z.of_nat (length data))
      by (unfold is_u32 in *; nia).
    assert (H5 : frame * channels + channels ≤ Z.of_nat (length src))
      by (unfold is_u32 in *; nia).
    rewrite (memcpy_Some _ _ _ _ _ H4 H5). simpl.
    set (data1 := memcpy_result data (DataStart + slot * channels) src
                    (frame * channels) channels).
    assert (Hlen1 : length data1 = length data) by (by apply memcpy_length).
    assert (Hw : wrap32 (frame + 1) = frame + 1)
      by (apply wrap32_small; unfold is_u32; lia).
    rewrite Hw.
    destruct (IH (frame + 1) write src data1) as (data' & Hrun & Hlen & Hout & Hin);
      [lia | lia | lia | nia |].
    exists data'. split; [done|]. split; [congruence|]. split.
    + intros k Hk Hno. rewrite Hout; [|done|].
      * apply memcpy_lookup_out; try done.
        specialize (Hno frame). unfold in_slot in Hno. fold slot in Hno. lia.
      * intros f Hfr'. apply Hno. lia.
    + intros Hdistinct f c Hfr' Hc.
      destruct (Z.eq_dec f frame) as [-> | Hne].
      * fold slot. rewrite Hout.
        -- unfold data1. rewrite memcpy_lookup_in by (try done; lia).
           f_equal. lia.
        -- lia.
        -- intros g Hg. unfold in_slot.
           assert (Hd : slot ≠ frame_slot (write + g) capacity)
             by (apply Hdistinct; lia).
           pose proof (slot_ranges_disjoint slot
                         (frame_slot (write + g) capacity) channels c Hd Hc).
           lia.
      * apply Hin; [|lia|done].
        intros f' g' ? ?. apply Hdistinct; lia.
Qed.

Lemma Read_loop_spec count : ∀ frame read data out,
  0 ≤ frame → frame + Z.of_nat count < 2 ^ 32 →
  DataStart + capacity * channels ≤ Z.of_nat (length data) →
  (frame + Z.of_nat count) * channels ≤ Z.of_nat (length out) →
  ∃ out',
    Read_loop count frame read channels capacity data out = Some out'
    ∧ length out' = length out
    ∧ (∀ k, 0 ≤ k →
         ¬ (frame * channels ≤ k < (frame + Z.of_nat count) * channels) →
         out' !! Z.to_nat k = out !! Z.to_nat k)
    ∧ (∀ f c, frame ≤ f < frame + Z.of_nat count → 0 ≤ c < channels →
         out' !! Z.to_nat (f * channels + c)
         = data !! Z.to_nat (DataStart + frame_slot (read + f) capacity * channels + c)).
Proof using Hch Hcap Hcap0.
  induction count as [|count IH]; intros frame read data out Hf Hfc Hdata Hout.
  - exists out. simpl. repeat split; [intros; lia..|].
    intros f c ?. lia.
  - cbn [Read_loop].
    assert (Hfr : is_u32 frame) by (unfold is_u32; lia).
    rewrite slot_index_exact, (sample_index_exact frame) by done.
    pose proof (frame_slot_range (read + frame) capacity Hcap0) as Hslot.
    set (slot := frame_slot (read + frame) capacity) in *.
    assert (H1 : 0 ≤ DataStart + slot * channels)
      by (change DataStart with 6; unfold is_u32 in *; nia).
    assert (H2 : 0 ≤ frame * channels) by (unfold is_u32 in *; nia).
    assert (H3 : 0 ≤ channels) by (unfold is_u32 in *; lia).
    assert (H4 : DataStart + slot * channels + channels ≤ Z.of_nat (length data))
      by (unfold is_u32 in *; nia).
    assert (H5 : frame * channels + channels ≤ Z.of_nat (length out))
      by (unfold is_u32 in *; nia).
    rewrite (memcpy_Some _ _ _ _ _ H5 H4). simpl.
    set (out1 := memcpy_result out (frame * channels) data
                   (DataStart + slot * channels) channels).
    assert (Hlen1 : length out1 = length out) by (by apply memcpy_length).
    assert (Hw : wrap32 (frame + 1) = frame + 1)
      by (apply wrap32_small; unfold is_u32; lia).
    rewrite Hw.
    destruct (IH (frame + 1) read data out1) as (out' & Hrun & Hlen & Hsame & Hin);
      [lia | lia | lia | nia |].
    exists out'. split; [done|]. split; [congruence|]. split.
    + intros k Hk Hno. rewrite Hsame; [|done|nia].
      apply memcpy_lookup_out; try done. nia.
    + intros f c Hfr' Hc.
      destruct (Z.eq_dec f frame) as [-> | Hne].
      * fold slot. rewrite Hsame by nia.
        unfold out1. rewrite memcpy_lookup_in by (try done; lia).
        f_equal. lia.
      * apply Hin; [lia|done].
Qed.
End loops.

(** ** A mapped ring *)

Lemma used_frames_range capacity write read :
  0 ≤ capacity → 0 ≤ used_frames capacity write read ≤ capacity.
Proof.
  intros H. unfold used_frames. pose proof (wrap32_range (write - read)).
  unfold is_u32 in *. lia.
Qed.

Lemma header_not_in_slot channels capacity index k :
  0 ≤ channels → 0 < capacity → k < DataStart →
  ¬ in_slot channels capacity index k.
Proof.
  intros Hc Hcap Hk. unfold in_slot.
  pose proof (frame_slot_range index capacity Hcap). nia.
Qed.

Section mapped.
Variables (region : list Z) (channels capacity write read : Z).
Hypothesis (Hring : ring_region region channels capacity write read).

Local Abbreviation used := (used_frames capacity write read).

(** The count [Write] transfers and the region it leaves. *)
Lemma Write_mapped_spec src frame_count :
  is_size_t frame_count →
  frame_count * channels ≤ Z.of_nat (length src) →
  let to_write := Z.min frame_count (capacity - used) in
  ∃ region',
    Write_mapped region src frame_count = Some (to_write, region')
    ∧ length region' = length region
    ∧ ring_region region' channels capacity (wrap32 (write + to_write)) read
    ∧ (to_write = 0 → region' = region)
    ∧ (∀ k, 0 ≤ k →
         Z.to_nat k ≠ off_write_index →
         (∀ f, 0 ≤ f < to_write → ¬ in_slot channels capacity (write + f) k) →
         region' !! Z.to_nat k = region !! Z.to_nat k)
    ∧ ((∀ f g, 0 ≤ f < g → g < to_write →
          frame_slot (write + f) capacity ≠ frame_slot (write + g) capacity) →
       ∀ f c, 0 ≤ f < to_write → 0 ≤ c < channels →
         region' !! Z.to_nat (DataStart + frame_slot (write + f) capacity * channels + c)
         = src !! Z.to_nat (f * channels + c)).
Proof using Hring.
  intros Hfc Hsrc to_write.
  pose proof Hring as [Hc Hcap Hw Hr Hcu Hcapu Hwu Hru Hsize].
  pose proof (used_frames_range capacity write read ltac:(unfold is_u32 in *; lia))
    as Hused. fold used in Hused.
  unfold Write_mapped, load. rewrite Hc, Hcap, Hw, Hr. cbn [mbind option_bind].
  rewrite !MinU32_spec, ?MinSizeT_spec.
  change (Z.min (wrap32 (write - read)) capacity) with used.
  rewrite (wrap32_small (capacity - used)) by (unfold is_u32 in *; lia).
  fold to_write.
  assert (Htw : 0 ≤ to_write ≤ capacity)
    by (unfold to_write, is_size_t in *; lia).
  rewrite (wrap32_small to_write) by (unfold is_u32 in *; lia).
  destruct (Z.eqb_spec to_write 0) as [H0 | Hpos].
  - exists region. rewrite H0, Z.add_0_r, (wrap32_small write) by done.
    do 5 (split; [done|]). intros _ f c ?. lia.
  - assert (Hcap0 : 0 < capacity) by lia.
    destruct (Write_loop_spec channels capacity Hcu Hcapu Hcap0
                (Z.to_nat to_write) 0 write src region)
      as (data' & Hrun & Hlen & Hout & Hin);
      [lia | unfold is_u32 in *; lia | done | nia |].
    rewrite Hrun. cbn [mbind option_bind].
    pose proof (lookup_lt_Some _ _ _ Hr) as Hlt.
    unfold off_read_index in Hlt.
    rewrite store_Some by (unfold off_write_index; lia). cbn [mbind option_bind].
    eexists. split; [done|]. split; [by rewrite length_insert|].
    assert (Hhdr : ∀ i : nat, (i < 6)%nat →
              data' !! i = region !! i).
    { intros i Hi. rewrite <- (Nat2Z.id i). apply Hout; [lia|].
      intros f _. apply header_not_in_slot;
        [unfold is_u32 in *; lia | done | change DataStart with 6; lia]. }
    split; [|split; [|split]].
    + split; try done.
      * rewrite list_lookup_insert_ne by done. by rewrite Hhdr by (unfold off_channels; lia).
      * rewrite list_lookup_insert_ne by done.
        by rewrite Hhdr by (unfold off_capacity_frames; lia).
      * apply list_lookup_insert_eq. unfold off_write_index. lia.
      * rewrite list_lookup_insert_ne by done.
        by rewrite Hhdr by (unfold off_read_index; lia).
      * apply wrap32_range.
      * rewrite length_insert. lia.
    + done.
    + intros k Hk Hne Hno. rewrite list_lookup_insert_ne by done.
      apply Hout; [done|]. intros f Hf. apply Hno. lia.
    + intros Hdistinct f c Hf Hcc.
      rewrite list_lookup_insert_ne.
      * apply Hin; [|lia|done]. intros f' g' ? ?. apply Hdistinct; lia.
      * pose proof (frame_slot_range (write + f) capacity Hcap0).
        unfold off_write_index. change DataStart with 6. nia.
Qed.

(** The count [Read] transfers, the caller's buffer and the region it
    leaves. *)
Lemma Read_mapped_spec out frame_count :
  is_size_t frame_count →
  frame_count * channels ≤ Z.of_nat (length out) →
  let to_read := Z.min frame_count used in
  ∃ out',
    Read_mapped region out frame_count
    = Some (to_read, out',
            <[off_read_index := wrap32 (read + to_read)]> region)
    ∧ length out' = length out
    ∧ ring_region (<[off_read_index := wrap32 (read + to_read)]> region)
                  channels capacity write (wrap32 (read + to_read))
    ∧ (to_read = 0 →
         out' = out ∧ <[off_read_index := wrap32 (read + to_read)]> region = region)
    ∧ (∀ k, to_read * channels ≤ k → out' !! Z.to_nat k = out !! Z.to_nat k)
    ∧ (∀ f c, 0 ≤ f < to_read → 0 ≤ c < channels →
         out' !! Z.to_nat (f * channels + c)
         = region !! Z.to_nat (DataStart + frame_slot (read + f) capacity * channels + c)).
Proof using Hring.
  intros Hfc Hout to_read.
  pose proof Hring as [Hc Hcap Hw Hr Hcu Hcapu Hwu Hru Hsize].
  pose proof (used_frames_range capacity write read ltac:(unfold is_u32 in *; lia))
    as Hused. fold used in Hused.
  unfold Read_mapped, load. rewrite Hc, Hcap, Hw, Hr. cbn [mbind option_bind].
  rewrite !MinU32_spec, ?MinSizeT_spec.
  change (Z.min (wrap32 (write - read)) capacity) with used.
  fold to_read.
  assert (Htr : 0 ≤ to_read ≤ capacity)
    by (unfold to_read, is_size_t in *; lia).
  rewrite (wrap32_small to_read) by (unfold is_u32 in *; lia).
  pose proof (lookup_lt_Some _ _ _ Hr) as Hlt. unfold off_read_index in Hlt.
  assert (Hreg : ring_region (<[off_read_index := wrap32 (read + to_read)]> region)
                   channels capacity write (wrap32 (read + to_read))).
  { split; try done; try (by rewrite list_lookup_insert_ne by done).
    - apply list_lookup_insert_eq. unfold off_read_index. lia.
    - apply wrap32_range.
    - rewrite length_insert. lia. }
  destruct (Z.eqb_spec to_read 0) as [H0 | Hpos].
  - assert (Hid : <[off_read_index := wrap32 (read + to_read)]> region = region).
    { rewrite H0, Z.add_0_r, (wrap32_small read) by done.
      by apply list_insert_id. }
    exists out. rewrite Hid in *. rewrite H0.
    rewrite Z.add_0_r, (wrap32_small read) by done.
    do 5 (split; [done|]). intros f c ?. lia.
  - assert (Hcap0 : 0 < capacity) by lia.
    destruct (Read_loop_spec channels capacity Hcu Hcapu Hcap0
                (Z.to_nat to_read) 0 read region out)
      as (out' & Hrun & Hlen & Hsame & Hin);
      [lia | unfold is_u32 in *; lia | done | nia |].
    rewrite Hrun. cbn [mbind option_bind].
    rewrite store_Some by (unfold off_read_index; lia). cbn [mbind option_bind].
    exists out'. split; [done|]. split; [done|]. split; [done|].
    split; [lia|]. split.
    + intros k Hk. apply Hsame; [unfold is_u32 in *; nia | lia].
    + intros f c Hf Hcc. apply Hin; [lia | done].
Qed.
End mapped.

(** ** Write and Read on an open instance *)

Lemma in_mapping_whole r file :
  whole_file_mapped r file → in_mapping r file = file.
Proof. intros H. unfold in_mapping. by apply take_ge. Qed.

Lemma past_mapping_whole r file :
  whole_file_mapped r file → past_mapping r file = [].
Proof. intros H. unfold past_mapping. by apply drop_ge. Qed.

Lemma whole_file_mapped_length r file file' :
  length file' = length file →
  whole_file_mapped r file → whole_file_mapped r file'.
Proof. unfold whole_file_mapped. by intros ->. Qed.

Lemma in_mapping_past_mapping r file :
  in_mapping r file ++ past_mapping r file = file.
Proof. apply take_drop. Qed.

Section open_ring.
Variables (r : SharedMemoryAudioRing) (fs : gmap string (list Z)).
Variables (p : string) (region : list Z).
Hypothesis (Hheader : header_ r = Some p) (Hfile : fs !! p = Some region).
Hypothesis (Hmap : whole_file_mapped r region).

Lemma Write_unfold src frame_count region' n :
  Write_mapped region src frame_count = Some (n, region') →
  (frame_count = 0 → n = 0 ∧ region' = region) →
  Write r fs (Some src) frame_count = Some (n, <[p := region']> fs).
Proof using Hheader Hfile Hmap.
  intros Hm H0. unfold Write. rewrite Hheader.
  destruct (Z.eqb_spec frame_count 0) as [Hz | Hnz].
  - destruct (H0 Hz) as [-> ->]. by rewrite insert_id.
  - rewrite Hfile. cbn [mbind option_bind].
    rewrite (in_mapping_whole _ _ Hmap), (past_mapping_whole _ _ Hmap), Hm.
    cbn [mbind option_bind]. by rewrite app_nil_r.
Qed.

Lemma Read_unfold out frame_count out' region' n :
  Read_mapped region out frame_count = Some (n, out', region') →
  (frame_count = 0 → n = 0 ∧ out' = out ∧ region' = region) →
  Read r fs (Some out) frame_count = Some (n, Some out', <[p := region']> fs).
Proof using Hheader Hfile Hmap.
  intros Hm H0. unfold Read. rewrite Hheader.
  destruct (Z.eqb_spec frame_count 0) as [Hz | Hnz].
  - destruct (H0 Hz) as (-> & -> & ->). by rewrite insert_id.
  - rewrite Hfile. cbn [mbind option_bind].
    rewrite (in_mapping_whole _ _ Hmap), (past_mapping_whole _ _ Hmap), Hm.
    cbn [mbind option_bind]. by rewrite app_nil_r.
Qed.
End open_ring.

(** With a null buffer neither call touches anything. *)
Lemma Write_null r fs frame_count : Write r fs None frame_count = Some (0, fs).
Proof. unfold Write. by destruct (header_ r). Qed.

Lemma Read_null r fs frame_count :
  Read r fs None frame_count = Some (0, None, fs).
Proof. unfold Read. by destruct (header_ r). Qed.

(** ** Index arithmetic modulo 2^32 *)

Lemma wrap32_advance_write write read n :
  wrap32 (wrap32 (write + n) - read) = wrap32 (wrap32 (write - read) + n).
Proof.
  unfold wrap32. rewrite Zminus_mod_idemp_l, Zplus_mod_idemp_l. f_equal. lia.
Qed.

Lemma wrap32_advance_read write read n :
  wrap32 (write - wrap32 (read + n)) = wrap32 (wrap32 (write - read) - n).
Proof.
  unfold wrap32. rewrite Zminus_mod_idemp_r, Zminus_mod_idemp_l. f_equal. lia.
Qed.

(** ** The reset of [InitializeIfNeeded] *)

Lemma reset_inv region mapping_size channels capacity_frames region' :
  0 ≤ mapping_size →
  length region = Z.to_nat (mapping_size / sizeof_float) →
  reset region mapping_size channels capacity_frames = Some region' →
  (6 ≤ length region)%nat
  ∧ region' = fresh_region (length region) channels capacity_frames.
Proof.
  intros Hsz Hlen. unfold reset, memset0.
  assert (H0 : 0 ≤ mapping_size / sizeof_float)
    by (apply Z.div_pos; [done | reflexivity]).
  destruct (Z.leb_spec (mapping_size / sizeof_float) (Z.of_nat (length region)));
    [|lia].
  rewrite <- Hlen, drop_all, app_nil_r. cbn [mbind option_bind].
  destruct (length region) as [|[|[|[|[|[|m]]]]]] eqn:El; try done.
  intros [= <-]. split; [lia|].
  unfold fresh_region. simpl. by rewrite Nat.sub_0_r.
Qed.

Lemma reset_Some region mapping_size channels capacity_frames :
  0 ≤ mapping_size →
  length region = Z.to_nat (mapping_size / sizeof_float) →
  (6 ≤ length region)%nat →
  reset region mapping_size channels capacity_frames
  = Some (fresh_region (length region) channels capacity_frames).
Proof.
  intros Hsz Hlen H6. unfold reset, memset0.
  assert (H0 : 0 ≤ mapping_size / sizeof_float)
    by (apply Z.div_pos; [done | reflexivity]).
  destruct (Z.leb_spec (mapping_size / sizeof_float) (Z.of_nat (length region)));
    [|lia].
  rewrite <- Hlen, drop_all, app_nil_r. cbn [mbind option_bind].
  destruct (length region) as [|[|[|[|[|[|m]]]]]] eqn:El; try lia.
  unfold fresh_region. simpl. by rewrite Nat.sub_0_r.
Qed.

Lemma fresh_region_length cells channels capacity_frames :
  (6 ≤ cells)%nat →
  length (fresh_region cells channels capacity_frames) = cells.
Proof.
  intros H. unfold fresh_region. rewrite length_app, length_replicate.
  simpl. lia.
Qed.

Lemma fresh_region_ring cells channels capacity_frames :
  is_u32 channels → is_u32 capacity_frames →
  DataStart + capacity_frames * channels ≤ Z.of_nat cells →
  ring_region (fresh_region cells channels capacity_frames)
              channels capacity_frames 0 0.
Proof.
  intros Hc Hcap Hsize.
  assert (6 ≤ cells)%nat
    by (change DataStart with 6 in Hsize; unfold is_u32 in *; nia).
  split; try done.
  rewrite fresh_region_length by done. done.
Qed.

(** Whatever [reset_needed] answers [false] on carries the requested
    header. *)
Lemma reset_not_needed region create channels capacity_frames :
  reset_needed region create channels capacity_frames = Some false →
  create = false
  ∧ region !! off_magic = Some kMagic
  ∧ region !! off_version = Some kVersion
  ∧ region !! off_channels = Some channels
  ∧ region !! off_capacity_frames = Some capacity_frames.
Proof.
  unfold reset_needed, load. destruct create; [done|].
  destruct (region !! off_magic) as [magic|]; [|done]. cbn [mbind option_bind].
  destruct (Z.eqb_spec magic kMagic) as [->|]; [|done]. cbn [negb].
  destruct (region !! off_version) as [version|]; [|done]. cbn [mbind option_bind].
  destruct (Z.eqb_spec version kVersion) as [->|]; [|done]. cbn [negb].
  destruct (region !! off_channels) as [ch|]; [|done]. cbn [mbind option_bind].
  destruct (Z.eqb_spec ch channels) as [->|]; [|done]. cbn [negb].
  destruct (region !! off_capacity_frames) as [cap|]; [|done].
  cbn [mbind option_bind].
  destruct (Z.eqb_spec cap capacity_frames) as [->|]; [|done]. done.
Qed.

(** ** System calls *)

Lemma sys_open_inv os fs path o_creat fd fs1 :
  sys_open os fs path o_creat = (fd, fs1) → (fd <? 0) = false →
  fd = open_fd os ∧ 0 ≤ open_fd os
  ∧ (o_creat = true ∨ is_Some (fs !! path))
  ∧ fs1 !! path = Some (default [] (fs !! path))
  ∧ ∀ x, <[path := x]> fs1 = <[path := x]> fs.
Proof.
  unfold sys_open. destruct (Z.ltb_spec (open_fd os) 0) as [|Hfd].
  { intros [= <- <-]. done. }
  destruct (fs !! path) as [file|] eqn:Efile.
  - intros [= <- <-] _. rewrite Efile. eauto 10.
  - destruct o_creat.
    + intros [= <- <-] _. rewrite lookup_insert_eq. simpl.
      repeat split; eauto. intros x. apply insert_insert_eq.
    + intros [= <- <-]. done.
Qed.

Lemma sys_ftruncate_inv os fs path len fs2 :
  sys_ftruncate os fs path len = (true, fs2) →
  0 ≤ len
  ∧ ∃ file, fs !! path = Some file
      ∧ fs2 = <[path := resize (Z.to_nat (len / sizeof_float)) 0 file]> fs.
Proof.
  unfold sys_ftruncate. destruct (ftruncate_ok os); [|done]. simpl.
  destruct (Z.ltb_spec len 0); [done|].
  destruct (fs !! path) as [file|]; [|done].
  intros [= <-]. eauto.
Qed.

Lemma sys_mmap_inv os path len m :
  sys_mmap os path len = Some m → m = path ∧ len ≠ 0.
Proof.
  unfold sys_mmap. destruct (mmap_ok os); [|done]. simpl.
  destruct (Z.eqb_spec len 0); [done|]. by intros [= <-].
Qed.

Lemma MappingSize_range channels capacity_frames :
  is_size_t (MappingSize channels capacity_frames).
Proof. unfold MappingSize, wrap64, is_size_t. apply Z.mod_pos_bound. lia. Qed.

Lemma to_off_t_nonneg z : is_size_t z → 0 ≤ to_off_t z → to_off_t z = z ∧ z < 2 ^ 63.
Proof.
  unfold to_off_t, is_size_t. destruct (Z.ltb_spec z (2 ^ 63)); lia.
Qed.

(** ** What a successful [Open] establishes *)

Lemma Open_true_inv os r fs name create channels capacity_frames r' fs' :
  Open os r fs name create channels capacity_frames = Some (true, r', fs') →
  let region0 := sized_file fs name channels capacity_frames in
  name ≠ "" ∧ channels ≠ 0 ∧ capacity_frames ≠ 0
  ∧ 0 ≤ open_fd os
  ∧ (create = true ∨ is_Some (fs !! c_str (backing_file name)))
  ∧ 0 < MappingSize channels capacity_frames < 2 ^ 63
  ∧ r' = opened os name channels capacity_frames
  ∧ ∃ needed final,
      reset_needed region0 create channels capacity_frames = Some needed
      ∧ (if needed : bool
         then reset region0 (MappingSize channels capacity_frames)
                    channels capacity_frames
         else Some region0) = Some final
      ∧ fs' = <[c_str (backing_file name) := final]> fs.
Proof.
  intros Hopen region0. unfold Open in Hopen.
  destruct (empty name) eqn:Ename; [done|].
  destruct (Z.eqb_spec channels 0) as [|Hch]; [done|].
  destruct (Z.eqb_spec capacity_frames 0) as [|Hcap]; [done|].
  cbn [orb] in Hopen.
  destruct (sys_open _ _ _ _) as [fd fs1] eqn:Eopen.
  destruct (fd <? 0) eqn:Efd; [done|].
  destruct (sys_open_inv _ _ _ _ _ _ Eopen Efd)
    as (-> & Hfd & Hexists & Hfile1 & Hins1).
  cbn [mapping_size_] in Hopen.
  destruct (sys_ftruncate _ _ _ _) as [truncated fs2] eqn:Etrunc.
  destruct truncated; [|done]. cbn [negb] in Hopen.
  destruct (sys_ftruncate_inv _ _ _ _ _ Etrunc) as (Hlen & file & Hfile & ->).
  pose proof (MappingSize_range channels capacity_frames) as Hrange.
  destruct (to_off_t_nonneg _ Hrange Hlen) as [Hoff Hlt].
  rewrite Hoff in *.
  assert (file = default [] (fs !! c_str (backing_file name))) as ->
    by congruence.
  destruct (sys_mmap _ _ _) as [m|] eqn:Emap; [|done].
  destruct (sys_mmap_inv _ _ _ _ Emap) as [-> Hnz].
  unfold InitializeIfNeeded in Hopen. cbn [header_ mapping_size_] in Hopen.
  rewrite lookup_insert_eq in Hopen. cbn [mbind option_bind] in Hopen.
  fold (sized_file fs name channels capacity_frames) in Hopen.
  fold region0 in Hopen.
  destruct (reset_needed region0 create channels capacity_frames)
    as [needed|] eqn:Eneeded; cbn [mbind option_bind] in Hopen; [|done].
  assert (Hname : name ≠ "") by (intros ->; discriminate Ename).
  unfold is_size_t in Hrange.
  destruct needed.
  - destruct (reset region0 _ _ _) as [final|] eqn:Ereset;
      cbn [mbind option_bind] in Hopen; [|done].
    injection Hopen as <- <-.
    repeat (split; [done || lia|]).
    exists true, final. do 2 (split; [done|]).
    rewrite insert_insert_eq. apply Hins1.
  - cbn [mbind option_bind] in Hopen. injection Hopen as <- <-.
    repeat (split; [done || lia|]).
    exists false, region0. do 2 (split; [done|]).
    apply Hins1.
Qed.

(** ** Slots of consecutive frames *)

Lemma mod_distinct a b m :
  0 < b - a < m → a mod m ≠ b mod m.
Proof.
  intros Hab Heq.
  assert (H0 : (b - a) mod m = 0)
    by (rewrite Zminus_mod, Heq, Z.sub_diag; apply Z.mod_0_l; lia).
  rewrite Z.mod_small in H0 by lia. lia.
Qed.

(** While the 32-bit index does not wrap inside the window, fewer than
    [capacity] consecutive frames never share a slot. *)
Lemma slots_distinct_no_wrap write capacity n f g :
  0 ≤ write → write + n ≤ 2 ^ 32 → n ≤ capacity →
  0 ≤ f < g → g < n →
  frame_slot (write + f) capacity ≠ frame_slot (write + g) capacity.
Proof.
  intros Hw Hn Hcap Hfg Hg. unfold frame_slot.
  rewrite !wrap32_small by (unfold is_u32; lia).
  apply mod_distinct. lia.
Qed.

(** When [capacity] divides 2^32 the wrap of the index is invisible. *)
Lemma slots_distinct_divides write capacity n f g :
  0 < capacity → (capacity | 2 ^ 32) → n ≤ capacity →
  0 ≤ f < g → g < n →
  frame_slot (write + f) capacity ≠ frame_slot (write + g) capacity.
Proof.
  intros Hcap Hdiv Hn Hfg Hg. unfold frame_slot, wrap32.
  rewrite !Z.mod_mod_divide by done.
  apply mod_distinct. lia.
Qed.

(** ** Writing into an empty ring and reading back *)

Section roundtrip.
Variables (r : SharedMemoryAudioRing) (fs : gmap string (list Z)).
Variables (p : string) (region : list Z) (channels capacity index : Z).
Hypothesis (Hheader : header_ r = Some p) (Hfile : fs !! p = Some region).
Hypothesis (Hmap : whole_file_mapped r region).
Hypothesis (Hring : ring_region region channels capacity index index).
Hypothesis (Hch : 0 < channels).

Lemma used_frames_empty : used_frames capacity index index = 0.
Proof using Hring.
  destruct Hring as [_ _ _ _ _ Hcap _ _ _].
  unfold used_frames. rewrite Z.sub_diag.
  rewrite wrap32_small by (unfold is_u32; lia). unfold is_u32 in Hcap. lia.
Qed.

Lemma roundtrip_empty n src out :
  0 < n ≤ capacity →
  Z.of_nat (length src) = n * channels →
  n * channels ≤ Z.of_nat (length out) →
  (∀ f g, 0 ≤ f < g → g < n →
     frame_slot (index + f) capacity ≠ frame_slot (index + g) capacity) →
  ∃ fs1 out' fs2,
    Write r fs (Some src) n = Some (n, fs1)
    ∧ Read r fs1 (Some out) n = Some (n, Some out', fs2)
    ∧ take (Z.to_nat (n * channels)) out' = src
    ∧ drop (Z.to_nat (n * channels)) out' = drop (Z.to_nat (n * channels)) out.
Proof using Hheader Hfile Hmap Hring Hch.
  intros Hn Hsrc Hout Hdistinct.
  pose proof Hring as [_ _ _ _ Hcu Hcapu Hiu _ _].
  assert (Hsz : is_size_t n) by (unfold is_size_t, is_u32 in *; lia).
  destruct (Write_mapped_spec region channels capacity index index Hring
              src n Hsz ltac:(lia))
    as (region1 & Hw & Hlen1 & Hring1 & _ & _ & Hcontent).
  rewrite used_frames_empty, Z.sub_0_r, Z.min_l in * by lia.
  specialize (Hcontent Hdistinct).
  exists (<[p := region1]> fs).
  destruct (Read_mapped_spec region1 channels capacity (wrap32 (index + n))
              index Hring1 out n Hsz Hout)
    as (out' & Hr & Hlen' & _ & _ & Hrest & Hread).
  assert (Hused : used_frames capacity (wrap32 (index + n)) index = n).
  { unfold used_frames. rewrite wrap32_advance_write, Z.sub_diag.
    rewrite (wrap32_small 0) by (unfold is_u32; lia).
    rewrite wrap32_small by (unfold is_u32 in *; lia). lia. }
  rewrite Hused, Z.min_id in *.
  exists out', (<[p := <[off_read_index := wrap32 (index + n)]> region1]>
                 (<[p := region1]> fs)).
  split; [|split; [|split]].
  - apply (Write_unfold r fs p region Hheader Hfile Hmap _ _ _ _ Hw). lia.
  - apply (Read_unfold r _ p region1 Hheader (lookup_insert_eq _ _ _)
             (whole_file_mapped_length _ _ _ Hlen1 Hmap) _ _ _ _ _ Hr).
    lia.
  - apply list_eq. intros i.
    destruct (decide (i < Z.to_nat (n * channels))%nat) as [Hi | Hi].
    + rewrite lookup_take_lt by done.
      set (f := Z.of_nat i / channels). set (c := Z.of_nat i mod channels).
      assert (Hi' : Z.of_nat i = f * channels + c)
        by (unfold f, c; rewrite Z.mul_comm; apply Z.div_mod; lia).
      assert (Hc : 0 ≤ c < channels) by (apply Z.mod_pos_bound; lia).
      assert (Hf : 0 ≤ f < n).
      { split; [apply Z.div_pos; lia|].
        apply Z.div_lt_upper_bound; [lia|]. lia. }
      rewrite <- (Nat2Z.id i), Hi'.
      rewrite Hread by done. by apply Hcontent.
    + rewrite lookup_take_ge by lia. symmetry.
      apply lookup_ge_None. lia.
  - apply list_eq. intros i. rewrite !lookup_drop.
    rewrite <- (Nat2Z.id (Z.to_nat (n * channels) + i)).
    apply Hrest. lia.
Qed.
End roundtrip.

(** ** Reading an empty ring *)

Lemma Read_mapped_empty region channels capacity index out frame_count :
  ring_region region channels capacity index index →
  is_size_t frame_count →
  Read_mapped region out frame_count = Some (0, out, region).
Proof.
  intros Hring Hfc.
  pose proof (used_frames_empty region channels capacity index Hring) as Hused.
  destruct Hring as [Hc Hcap Hw Hr _ Hcapu _ _ _].
  unfold Read_mapped, load. rewrite Hc, Hcap, Hw, Hr. cbn [mbind option_bind].
  rewrite !MinU32_spec. change (Z.min (wrap32 (index - index)) capacity)
    with (used_frames capacity index index). rewrite Hused.
  rewrite Z.min_r by (unfold is_size_t in Hfc; lia).
  reflexivity.
Qed.

Lemma Read_empty r fs p region channels capacity index out frame_count :
  header_ r = Some p → fs !! p = Some region →
  whole_file_mapped r region →
  ring_region region channels capacity index index →
  is_size_t frame_count →
  Read r fs out frame_count = Some (0, out, fs).
Proof.
  intros Hheader Hfile Hmap Hring Hfc.
  destruct out as [buf|]; [|apply Read_null].
  rewrite (Read_unfold r fs p region Hheader Hfile Hmap buf frame_count buf
             region 0).
  - by rewrite insert_id.
  - by eapply Read_mapped_empty.
  - done.
Qed.

(** ** The ring a creating [Open] leaves *)

Lemma sized_file_length fs name channels capacity_frames :
  length (sized_file fs name channels capacity_frames)
  = Z.to_nat (MappingSize channels capacity_frames / sizeof_float).
Proof. unfold sized_file. apply length_resize. Qed.

Lemma cells_exact channels capacity_frames :
  0 ≤ channels → 0 ≤ capacity_frames →
  24 + 4 * channels * capacity_frames < 2 ^ 64 →
  MappingSize channels capacity_frames / sizeof_float
  = DataStart + capacity_frames * channels.
Proof.
  intros Hc Hcap Hfit. rewrite MappingSize_exact by done.
  change sizeof_float with 4. change DataStart with 6.
  replace (24 + 4 * channels * capacity_frames)
    with ((6 + capacity_frames * channels) * 4) by lia.
  apply Z.div_mul. done.
Qed.

Lemma Open_create_inv os r fs name channels capacity_frames r' fs' :
  Open os r fs name true channels capacity_frames = Some (true, r', fs') →
  let cells := Z.to_nat (MappingSize channels capacity_frames / sizeof_float) in
  r' = opened os name channels capacity_frames
  ∧ (6 ≤ cells)%nat
  ∧ fs' = <[c_str (backing_file name) :=
              fresh_region cells channels capacity_frames]> fs.
Proof.
  intros Hopen cells.
  destruct (Open_true_inv _ _ _ _ _ _ _ _ _ Hopen)
    as (_ & _ & _ & _ & _ & Hsize & -> & needed & final & Hneeded & Hfinal & ->).
  injection Hneeded as <-.
  apply reset_inv in Hfinal; [|lia|apply sized_file_length].
  rewrite sized_file_length in Hfinal. destruct Hfinal as [H6 ->]. done.
Qed.

(** The instance [Open] leaves maps the file [Open] leaves, and every file
    of that length. *)
Lemma opened_maps os name channels capacity_frames file :
  length file = Z.to_nat (MappingSize channels capacity_frames / sizeof_float) →
  whole_file_mapped (opened os name channels capacity_frames) file.
Proof.
  intros Hlen. unfold whole_file_mapped, mapping_cells. cbn [mapping_size_ opened].
  by rewrite Hlen.
Qed.

Lemma opened_maps_fresh os name channels capacity_frames chans capacity :
  (6 ≤ Z.to_nat (MappingSize channels capacity_frames / sizeof_float))%nat →
  whole_file_mapped
    (opened os name channels capacity_frames)
    (fresh_region (Z.to_nat (MappingSize channels capacity_frames / sizeof_float))
                  chans capacity).
Proof. intros H6. apply opened_maps. by apply fresh_region_length. Qed.

(** With the operating system willing and a mapping size that fits, a
    creating [Open] does succeed. *)
Lemma Open_create_succeeds os r fs name chans capacity :
  0 ≤ open_fd os → ftruncate_ok os = true → mmap_ok os = true →
  name ≠ "" → 0 < chans → 0 < capacity →
  24 + 4 * chans * capacity < 2 ^ 63 →
  Open os r fs name true chans capacity
  = Some (true, opened os name chans capacity,
          <[c_str (backing_file name) :=
              fresh_region (Z.to_nat (DataStart + capacity * chans))
                           chans capacity]> fs).
Proof.
  intros Hfd Htrunc Hmap Hname Hc Hcap Hfit.
  assert (Hsize : MappingSize chans capacity = 24 + 4 * chans * capacity)
    by (apply MappingSize_exact; lia).
  assert (Hcells : MappingSize chans capacity / sizeof_float
                   = DataStart + capacity * chans)
    by (apply cells_exact; lia).
  unfold Open.
  destruct name as [|a rest]; [done|]. cbn [empty orb].
  destruct (Z.eqb_spec chans 0); [lia|].
  destruct (Z.eqb_spec capacity 0); [lia|]. cbn [orb].
  set (p := c_str (backing_file (String a rest))).
  assert (Hopen : ∃ fs1, sys_open os fs p true = (open_fd os, fs1)
                    ∧ is_Some (fs1 !! p)
                    ∧ ∀ x, <[p := x]> fs1 = <[p := x]> fs).
  { unfold sys_open. destruct (Z.ltb_spec (open_fd os) 0); [lia|].
    destruct (fs !! p) as [file|] eqn:Efile.
    - exists fs. by rewrite Efile.
    - exists (<[p := []]> fs). rewrite lookup_insert_eq.
      split; [done|]. split; [done|]. intros x. apply insert_insert_eq. }
  destruct Hopen as (fs1 & -> & [file Hfile] & Hins).
  destruct (Z.ltb_spec (open_fd os) 0); [lia|]. cbn [mapping_size_].
  unfold sys_ftruncate, to_off_t. rewrite Htrunc, Hsize.
  destruct (Z.ltb_spec (24 + 4 * chans * capacity) (2 ^ 63)); [|lia].
  destruct (Z.ltb_spec (24 + 4 * chans * capacity) 0); [lia|].
  cbn [negb orb]. rewrite Hfile. cbn [negb].
  unfold sys_mmap. rewrite Hmap.
  destruct (Z.eqb_spec (24 + 4 * chans * capacity) 0); [lia|]. cbn [negb orb].
  unfold InitializeIfNeeded. cbn [header_ mapping_size_ reset_needed].
  rewrite lookup_insert_eq. cbn [mbind option_bind].
  rewrite <- Hsize, Hcells.
  rewrite reset_Some; rewrite ?length_resize;
    [|rewrite Hsize; lia | by rewrite Hcells
     | change DataStart with 6; apply Nat2Z.inj_le; rewrite Z2Nat.id; nia].
  cbn [mbind option_bind]. rewrite insert_insert_eq, Hins.
  unfold opened. fold p. by rewrite Hsize.
Qed.

(** ** Round trip after a creating [Open] *)

(** C1 (as the code has it). When the mapping size
    [24 + 4 * channels * capacity_frames] fits [size_t], a successful [Open]
    with [create = true] leaves an empty ring: any [Read] returns 0 frames,
    and [n] frames written, [0 < n <= capacity_frames], followed by a [Read]
    of [n] frames give back [n] frames, the written samples unchanged and in
    order. *)
Theorem C1_roundtrip_after_create os r fs name chans capacity r' fs' :
  is_u32 chans → is_u32 capacity →
  24 + 4 * chans * capacity < 2 ^ 64 →
  Open os r fs name true chans capacity = Some (true, r', fs') →
  (∀ out frame_count, is_size_t frame_count →
     Read r' fs' out frame_count = Some (0, out, fs'))
  ∧ (∀ n src out,
       0 < n ≤ capacity →
       Z.of_nat (length src) = n * chans →
       n * chans ≤ Z.of_nat (length out) →
       ∃ fs1 out' fs2,
         Write r' fs' (Some src) n = Some (n, fs1)
         ∧ Read r' fs1 (Some out) n = Some (n, Some out', fs2)
         ∧ take (Z.to_nat (n * chans)) out' = src).
Proof.
  intros Hc Hcap Hfit Hopen.
  destruct (Open_true_inv _ _ _ _ _ _ _ _ _ Hopen) as (_ & Hc0 & Hcap0 & _).
  destruct (Open_create_inv _ _ _ _ _ _ _ _ Hopen) as (-> & H6 & ->).
  set (p := c_str (backing_file name)).
  set (cells := Z.to_nat (MappingSize chans capacity / sizeof_float)) in *.
  assert (Hcells : Z.of_nat cells = DataStart + capacity * chans).
  { unfold cells. rewrite cells_exact by (unfold is_u32 in *; lia).
    rewrite Z2Nat.id; [done|]. change DataStart with 6. unfold is_u32 in *. nia. }
  assert (Hring : ring_region (fresh_region cells chans capacity) chans capacity 0 0)
    by (apply fresh_region_ring; [done..|lia]).
  assert (Hheader : header_ (opened os name chans capacity) = Some p) by done.
  assert (Hfile : <[p := fresh_region cells chans capacity]> fs !! p
                  = Some (fresh_region cells chans capacity))
    by apply lookup_insert_eq.
  assert (Hmap : whole_file_mapped (opened os name chans capacity)
                   (fresh_region cells chans capacity))
    by (by apply opened_maps_fresh).
  split.
  - intros out frame_count Hfc. by eapply Read_empty.
  - intros n src out Hn Hsrc Hout.
    destruct (roundtrip_empty _ _ _ _ chans capacity 0 Hheader Hfile Hmap Hring
                ltac:(unfold is_u32 in *; lia) n src out Hn Hsrc Hout)
      as (fs1 & out' & fs2 & Hw & Hr & Htake & _).
    + intros f g Hfg Hg. apply (slots_distinct_no_wrap 0 capacity n); try lia.
      unfold is_u32 in *. lia.
    + by exists fs1, out', fs2.
Qed.

Lemma C1_roundtrip_after_create_witness :
  ∃ fs1 out' fs2,
    Write (opened (mkOs 3 true true) "/mic" 2 3)
          {[ "/tmp/mic.ring" := fresh_region 12 2 3 ]}
          (Some [11; 12; 21; 22]) 2 = Some (2, fs1)
    ∧ Read (opened (mkOs 3 true true) "/mic" 2 3) fs1 (Some [0; 0; 0; 0; 0; 0]) 2
      = Some (2, Some out', fs2)
    ∧ take (Z.to_nat (2 * 2)) out' = [11; 12; 21; 22].
Proof.
  refine (proj2 (C1_roundtrip_after_create (mkOs 3 true true) unopened ∅ "/mic" 2 3
                   (opened (mkOs 3 true true) "/mic" 2 3)
                   {[ "/tmp/mic.ring" := fresh_region 12 2 3 ]} _ _ _ _)
                2 [11; 12; 21; 22] [0; 0; 0; 0; 0; 0] _ _ _).
  - unfold is_u32. lia.
  - unfold is_u32. lia.
  - lia.
  - vm_compute. reflexivity.
  - lia.
  - simpl. lia.
  - simpl. lia.
Defined.

(** C1 (counterexample). [MappingSize] wraps modulo 2^64: with 2^31 channels
    and 2^31 frames it is 24 bytes, [Open] succeeds on a mapping that holds
    the header only, and the [memcpy] of the first frame written starts at
    its end, whatever buffer the caller passes. *)
Lemma C1_mapping_size_wraps :
  MappingSize (2 ^ 31) (2 ^ 31) = 24
  ∧ Open (mkOs 3 true true) unopened ∅ "/mic" true (2 ^ 31) (2 ^ 31)
    = Some (true, opened (mkOs 3 true true) "/mic" (2 ^ 31) (2 ^ 31),
            {[ "/tmp/mic.ring" := [kMagic; kVersion; 2 ^ 31; 2 ^ 31; 0; 0] ]})
  ∧ ∀ src,
      Write (opened (mkOs 3 true true) "/mic" (2 ^ 31) (2 ^ 31))
            {[ "/tmp/mic.ring" := [kMagic; kVersion; 2 ^ 31; 2 ^ 31; 0; 0] ]}
            (Some src) 1
      = None.
Proof.
  split; [reflexivity|]. split; [vm_compute; reflexivity|].
  intros src. vm_compute. reflexivity.
Qed.

(** ** Sequences of calls *)









(** ** Writing into a full ring *)











(** ** Reopening *)

Lemma lookup_resized_Some (file : list Z) n i z v :
  resize n 0 file !! i = Some z → file !! i = Some v → z = v.
Proof.
  intros Hz Hv. pose proof (lookup_lt_Some _ _ _ Hz) as Hn.
  rewrite length_resize in Hn. pose proof (lookup_lt_Some _ _ _ Hv).
  rewrite lookup_resize in Hz by done. congruence.
Qed.

Lemma lookup_resized_nonzero (file : list Z) n i v :
  v ≠ 0 → resize n 0 file !! i = Some v → file !! i = Some v.
Proof.
  intros Hv Hz. pose proof (lookup_lt_Some _ _ _ Hz) as Hn.
  rewrite length_resize in Hn.
  destruct (decide (i < length file)%nat).
  - by rewrite lookup_resize in Hz.
  - rewrite lookup_resize_new in Hz by lia. congruence.
Qed.

(** Without [create], the reset happens exactly when the stored header
    differs from the requested one. *)
Lemma reset_needed_sized file n chans capacity needed :
  chans ≠ 0 → capacity ≠ 0 →
  reset_needed (resize n 0 file) false chans capacity = Some needed →
  needed = false ↔ header_matches file chans capacity.
Proof.
  intros Hc Hcap Hneeded. split.
  - intros ->. apply reset_not_needed in Hneeded as (_ & H0 & H1 & H2 & H3).
    repeat split; by apply (lookup_resized_nonzero file n).
  - intros (M0 & M1 & M2 & M3). revert Hneeded. unfold reset_needed, load.
    destruct (resize n 0 file !! off_magic) as [z|] eqn:E0; [|done].
    rewrite (lookup_resized_Some _ _ _ _ _ E0 M0). cbn [mbind option_bind].
    rewrite Z.eqb_refl. cbn [negb].
    destruct (resize n 0 file !! off_version) as [z1|] eqn:E1; [|done].
    rewrite (lookup_resized_Some _ _ _ _ _ E1 M1). cbn [mbind option_bind].
    rewrite Z.eqb_refl. cbn [negb].
    destruct (resize n 0 file !! off_channels) as [z2|] eqn:E2; [|done].
    rewrite (lookup_resized_Some _ _ _ _ _ E2 M2). cbn [mbind option_bind].
    rewrite Z.eqb_refl. cbn [negb].
    destruct (resize n 0 file !! off_capacity_frames) as [z3|] eqn:E3; [|done].
    rewrite (lookup_resized_Some _ _ _ _ _ E3 M3). cbn [mbind option_bind].
    rewrite Z.eqb_refl. cbn [negb]. by intros [= <-].
Qed.

(** C5. After a successful [Open] of the backing file [file] (empty when it
    did not exist), with [cells] the size of the mapping: without [create]
    and with the stored magic, version, channels and capacity matching, the
    file is only brought to size, every cell it keeps is unchanged, and a
    file that already has the size of the mapping is left untouched, like all
    the file system; with [create], or with any of the four mismatched, the
    mapped region is all zeroes except for the freshly stamped magic,
    version, channels and capacity: both indices and every sample are 0. *)
Theorem C5_reopen os r fs name create chans capacity r' fs' :
  Open os r fs name create chans capacity = Some (true, r', fs') →
  let p := c_str (backing_file name) in
  let file := default [] (fs !! p) in
  let cells := Z.to_nat (MappingSize chans capacity / sizeof_float) in
  (create = false → header_matches file chans capacity →
     fs' = <[p := resize cells 0 file]> fs
     ∧ (∀ i, (i < length file)%nat → (i < cells)%nat →
          resize cells 0 file !! i = file !! i)
     ∧ (length file = cells → fs' = fs))
  ∧ (create = true ∨ ¬ header_matches file chans capacity →
     fs' = <[p := [kMagic; kVersion; chans; capacity; 0; 0]
                   ++ replicate (cells - 6) 0]> fs).
Proof.
  intros Hopen p file cells.
  destruct (Open_true_inv _ _ _ _ _ _ _ _ _ Hopen)
    as (_ & Hc & Hcap & _ & Hexists & Hsize & _ & needed & final
        & Hneeded & Hfinal & ->).
  fold p in Hexists, Hneeded, Hfinal |- *.
  unfold sized_file in Hneeded, Hfinal. fold p file cells in Hneeded, Hfinal.
  assert (Hreset : needed = true →
            final = [kMagic; kVersion; chans; capacity; 0; 0]
                      ++ replicate (cells - 6) 0).
  { intros ->. apply reset_inv in Hfinal; [|lia|by rewrite length_resize].
    rewrite length_resize in Hfinal. by destruct Hfinal as [_ ->]. }
  split.
  - intros -> Hmatch.
    apply (reset_needed_sized file cells chans capacity needed Hc Hcap Hneeded)
      in Hmatch as ->.
    injection Hfinal as <-. split; [done|]. split.
    + intros i Hi Hn. by apply lookup_resize.
    + intros Hlen. rewrite resize_all_alt by done.
      destruct Hexists as [|[file' Hfile']]; [done|].
      apply insert_id. unfold file. by rewrite Hfile'.
  - intros [-> | Hmismatch].
    + injection Hneeded as <-. by rewrite Hreset.
    + destruct create; [injection Hneeded as <-; by rewrite Hreset|].
      destruct needed; [by rewrite Hreset|].
      exfalso. apply Hmismatch.
      by apply (reset_needed_sized file cells chans capacity false).
Qed.

Lemma C5_reopen_witness :
  Open (mkOs 3 true true) unopened
       {[ "/tmp/mic.ring" := [kMagic; kVersion; 2; 3; 5; 4; 1; 2; 3; 4; 5; 6] ]}
       "/mic" false 2 3
  = Some (true, opened (mkOs 3 true true) "/mic" 2 3,
          {[ "/tmp/mic.ring" := [kMagic; kVersion; 2; 3; 5; 4; 1; 2; 3; 4; 5; 6] ]})
  ∧ ({[ "/tmp/mic.ring" := [kMagic; kVersion; 2; 3; 5; 4; 1; 2; 3; 4; 5; 6] ]}
       : gmap string (list Z))
    = <[ "/tmp/mic.ring" :=
           resize 12 0 [kMagic; kVersion; 2; 3; 5; 4; 1; 2; 3; 4; 5; 6] ]>
        {[ "/tmp/mic.ring" := [kMagic; kVersion; 2; 3; 5; 4; 1; 2; 3; 4; 5; 6] ]}.
Proof.
  assert (Hopen :
    Open (mkOs 3 true true) unopened
         {[ "/tmp/mic.ring" := [kMagic; kVersion; 2; 3; 5; 4; 1; 2; 3; 4; 5; 6] ]}
         "/mic" false 2 3
    = Some (true, opened (mkOs 3 true true) "/mic" 2 3,
            {[ "/tmp/mic.ring" := [kMagic; kVersion; 2; 3; 5; 4; 1; 2; 3; 4; 5; 6] ]}))
    by (vm_compute; reflexivity).
  split; [exact Hopen|].
  refine (proj1 (proj1 (C5_reopen _ _ _ _ _ _ _ _ _ Hopen) eq_refl _)).
  repeat split.
Defined.

(** ** Rejected arguments *)

(** C7 (as the code has it). [Open] with an empty name, zero channels or zero
    capacity returns false and leaves every file as it is; the instance is
    what the [Close] that [Open] starts with makes of it: unopened, and
    unchanged when it was already closed. *)
Theorem C7_invalid_arguments os r fs name create chans capacity :
  name = "" ∨ chans = 0 ∨ capacity = 0 →
  Open os r fs name create chans capacity = Some (false, Close r, fs)
  ∧ is_open (Close r) = false
  ∧ Close (Close r) = Close r.
Proof.
  intros Hbad. split; [|split].
  - unfold Open. destruct Hbad as [-> | [-> | ->]].
    + reflexivity.
    + by destruct (empty name).
    + by destruct (empty name), (chans =? 0).
  - reflexivity.
  - unfold Close. cbn [shm_fd_ mapping_]. f_equal.
    + destruct (Z.leb_spec 0 (shm_fd_ r)) as [H|H]; [reflexivity|].
      destruct (Z.leb_spec 0 (shm_fd_ r)); [lia | reflexivity].
    + by destruct (mapping_ r).
Qed.

Lemma C7_invalid_arguments_witness :
  Open (mkOs 3 true true) unopened ∅ "" true 2 3
  = Some (false, Close unopened, ∅)
  ∧ is_open (Close unopened) = false
  ∧ Close (Close unopened) = Close unopened.
Proof.
  apply (C7_invalid_arguments (mkOs 3 true true) unopened ∅ "" true 2 3).
  left. reflexivity.
Defined.

(** C7 (counterexample). The call is not free of side effects on every
    instance: an instance that holds an open ring is closed by it. *)
Lemma C7_open_instance_is_closed :
  Open (mkOs 3 true true) unopened ∅ "/mic" true 2 3
  = Some (true, opened (mkOs 3 true true) "/mic" 2 3,
          {[ "/tmp/mic.ring" := fresh_region 12 2 3 ]})
  ∧ is_open (opened (mkOs 3 true true) "/mic" 2 3) = true
  ∧ Open (mkOs 4 true true) (opened (mkOs 3 true true) "/mic" 2 3)
         {[ "/tmp/mic.ring" := fresh_region 12 2 3 ]} "/speaker" true 0 3
    = Some (false, unopened, {[ "/tmp/mic.ring" := fresh_region 12 2 3 ]})
  ∧ is_open unopened = false
  ∧ unopened ≠ opened (mkOs 3 true true) "/mic" 2 3.
Proof.
  split; [vm_compute; reflexivity|]. split; [reflexivity|].
  split; [vm_compute; reflexivity|]. split; [reflexivity|].
  discriminate.
Qed.

(** ** Accessors *)

(** C10. After a successful [Open] the accessors return the requested
    channels and capacity, whatever the backing file held before; on an
    instance that is not open both return 0. *)
Theorem C10_accessors :
  (∀ os r fs name create chans capacity r' fs',
     Open os r fs name create chans capacity = Some (true, r', fs') →
     is_open r' = true
     ∧ channels r' fs' = Some chans
     ∧ capacity_frames r' fs' = Some capacity)
  ∧ (∀ r fs,
       is_open r = false →
       channels r fs = Some 0 ∧ capacity_frames r fs = Some 0).
Proof.
  split.
  - intros os r fs name create chans capacity r' fs' Hopen.
    destruct (Open_true_inv _ _ _ _ _ _ _ _ _ Hopen)
      as (_ & _ & _ & _ & _ & Hsize & -> & needed & final
          & Hneeded & Hfinal & ->).
    split; [reflexivity|].
    assert (Hlen : length final
                   = Z.to_nat (MappingSize chans capacity / sizeof_float)).
    { destruct needed.
      - apply reset_inv in Hfinal as [H6 ->]; [|lia|apply sized_file_length].
        rewrite fresh_region_length by done. apply sized_file_length.
      - injection Hfinal as <-. apply sized_file_length. }
    unfold channels, capacity_frames. cbn [header_ opened].
    rewrite lookup_insert_eq. cbn [mbind option_bind].
    rewrite (in_mapping_whole _ _ (opened_maps os name chans capacity final Hlen)).
    unfold load. destruct needed.
    + apply reset_inv in Hfinal as [_ ->];
        [done | lia | apply sized_file_length].
    + injection Hfinal as <-.
      apply reset_not_needed in Hneeded as (_ & _ & _ & H2 & H3). done.
  - intros r fs Hclosed. unfold is_open in Hclosed.
    unfold channels, capacity_frames. by destruct (header_ r).
Qed.

Lemma C10_accessors_witness :
  is_open (opened (mkOs 3 true true) "/mic" 1 2) = true
  ∧ channels (opened (mkOs 3 true true) "/mic" 1 2)
             {[ "/tmp/mic.ring" := fresh_region 8 1 2 ]} = Some 1
  ∧ capacity_frames (opened (mkOs 3 true true) "/mic" 1 2)
                    {[ "/tmp/mic.ring" := fresh_region 8 1 2 ]} = Some 2.
Proof.
  apply (proj1 C10_accessors (mkOs 3 true true) unopened
           {[ "/tmp/mic.ring" := [kMagic; kVersion; 2; 3; 5; 4; 1; 2; 3; 4; 5; 6] ]}
           "/mic" false 1 2).
  vm_compute. reflexivity.
Defined.

(** ** The name of the backing file *)

Lemma get_replace old new s i :
  String.get i (replace old new s)
  = (λ a, if Ascii.eqb a old then new else a) <$> String.get i s.
Proof.
  revert i. induction s as [|a s IH]; intros i; [done|].
  destruct i; simpl; [done | apply IH].
Qed.

Lemma length_replace old new s :
  String.length (replace old new s) = String.length s.
Proof. induction s; simpl; congruence. Qed.

(** C9. The backing file of a non-empty logical name is
    ["/tmp/" ++ t ++ ".ring"], where [t] is the name without its first
    character when that is a separator, with every separator left turned
    into an underscore (so [t] holds no separator and only one leading
    separator is dropped); a name and the same name behind one more leading
    slash give the same backing file; and that file is the one a successful
    [Open] maps and records. *)
Theorem C9_backing_file name :
  name ≠ "" →
  (∃ t,
     backing_file name = "/tmp/" +:+ t +:+ ".ring"
     ∧ String.length t
       = (String.length name - (if front_is "/"%char name then 1 else 0))%nat
     ∧ (∀ i, String.get i t
             = underscore_separator
                 <$> String.get (if front_is "/"%char name then S i else i) name)
     ∧ (∀ i, String.get i t ≠ Some "/"%char))
  ∧ (front_is "/"%char name = false →
     backing_file (String "/"%char name) = backing_file name
     ∧ c_str (backing_file (String "/"%char name)) = c_str (backing_file name))
  ∧ (∀ os r fs create chans capacity r' fs',
       Open os r fs name create chans capacity = Some (true, r', fs') →
       name_ r' = backing_file name
       ∧ mapping_ r' = Some (c_str (backing_file name))
       ∧ header_ r' = Some (c_str (backing_file name))
       ∧ is_Some (fs' !! c_str (backing_file name))).
Proof.
  intros Hname. split; [|split].
  - destruct name as [|a rest]; [done|].
    unfold backing_file. cbn [empty negb andb front_is erase_front].
    eexists. split; [reflexivity|].
    assert (Hget : ∀ s i, String.get i (replace "/" "_" s)
                          = underscore_separator <$> String.get i s)
      by (intros; apply get_replace).
    destruct (Ascii.eqb a "/") eqn:Ea.
    + split; [rewrite length_replace; simpl; lia|]. split.
      * intros i. exact (Hget rest i).
      * intros i. rewrite Hget. destruct (String.get i rest) as [c|]; [|done].
        simpl. unfold underscore_separator.
        destruct (Ascii.eqb_spec c "/") as [->|Hc]; [done|]. congruence.
    + split; [rewrite length_replace; simpl; lia|]. split.
      * intros i. apply Hget.
      * intros i. rewrite Hget.
        destruct (String.get i (String a rest)) as [c|]; [|done].
        simpl. unfold underscore_separator.
        destruct (Ascii.eqb_spec c "/") as [->|Hc]; [done|]. congruence.
  - intros Hfront.
    assert (H : backing_file (String "/" name) = backing_file name).
    { unfold backing_file. cbn [empty negb andb front_is erase_front].
      rewrite Ascii.eqb_refl, Hfront, andb_false_r. reflexivity. }
    split; [done | by rewrite H].
  - intros os r fs create chans capacity r' fs' Hopen.
    destruct (Open_true_inv _ _ _ _ _ _ _ _ _ Hopen)
      as (_ & _ & _ & _ & _ & _ & -> & needed & final & _ & _ & ->).
    do 3 (split; [reflexivity|]). rewrite lookup_insert_eq. by eexists.
Qed.

Lemma C9_backing_file_witness :
  backing_file "/virtual_audio_bridge_mic_feed"
  = backing_file "virtual_audio_bridge_mic_feed"
  ∧ c_str (backing_file "/virtual_audio_bridge_mic_feed")
    = c_str (backing_file "virtual_audio_bridge_mic_feed").
Proof.
  refine (proj1 (proj2 (C9_backing_file "virtual_audio_bridge_mic_feed" _)) _).
  - discriminate.
  - reflexivity.
Defined.

(** Only one leading separator is dropped, and inner ones are replaced. *)
Example backing_file_examples :
  backing_file "/virtual_audio_bridge_mic_feed"
  = "/tmp/virtual_audio_bridge_mic_feed.ring"
  ∧ backing_file "//a/b" = "/tmp/_a_b.ring"
  ∧ backing_file "/" = "/tmp/.ring".
Proof. repeat split. Qed.

(** ** The 32-bit boundary *)

Lemma do_calls_app r fs calls1 calls2 :
  do_calls r fs (calls1 ++ calls2)
  = do_calls r fs calls1 ≫= λ fs', do_calls r fs' calls2.
Proof.
  revert fs. induction calls1 as [|c calls1 IH]; intros fs; [done|].
  cbn [app do_calls]. destruct (do_call r fs c) as [fs1|]; [|done].
  cbn [mbind option_bind]. apply IH.
Qed.

(** Writing one frame into an empty ring and reading it moves both indices
    one step. *)
Lemma advance_one_frame r fs p region chans capacity index src out :
  header_ r = Some p → fs !! p = Some region →
  whole_file_mapped r region →
  ring_region region chans capacity index index →
  0 < capacity →
  chans ≤ Z.of_nat (length src) → chans ≤ Z.of_nat (length out) →
  ∃ fs' region',
    do_calls r fs [CallWrite (Some src) 1; CallRead (Some out) 1] = Some fs'
    ∧ fs' !! p = Some region'
    ∧ whole_file_mapped r region'
    ∧ ring_region region' chans capacity (wrap32 (index + 1)) (wrap32 (index + 1)).
Proof.
  intros Hheader Hfile Hmap Hring Hcap Hsrc Hout.
  assert (H1 : is_size_t 1) by (unfold is_size_t; lia).
  destruct (Write_mapped_spec region chans capacity index index Hring
              src 1 H1 ltac:(lia))
    as (region1 & Hw & Hlen1 & Hring1 & _).
  assert (Hmap1 : whole_file_mapped r region1)
    by exact (whole_file_mapped_length _ _ _ Hlen1 Hmap).
  rewrite (used_frames_empty region chans capacity index Hring) in *.
  rewrite Z.sub_0_r, Z.min_l in * by lia.
  destruct (Read_mapped_spec region1 chans capacity (wrap32 (index + 1)) index
              Hring1 out 1 H1 ltac:(lia))
    as (out' & Hr & _ & Hring2 & _).
  assert (Hused : used_frames capacity (wrap32 (index + 1)) index = Z.min 1 capacity).
  { unfold used_frames. rewrite wrap32_advance_write, Z.sub_diag.
    rewrite (wrap32_small 0) by (unfold is_u32; lia).
    by rewrite wrap32_small by (unfold is_u32; lia). }
  rewrite Hused, (Z.min_l 1 capacity), Z.min_id in * by lia.
  eexists _, _.
  split; [|split; [apply lookup_insert_eq | split; [|exact Hring2]]].
  - cbn [do_calls do_call].
    rewrite (Write_unfold r fs p region Hheader Hfile Hmap _ _ _ _ Hw) by lia.
    cbn [mbind option_bind].
    rewrite (Read_unfold r _ p region1 Hheader (lookup_insert_eq _ _ _) Hmap1
               _ _ _ _ _ Hr) by lia.
    reflexivity.
  - apply (whole_file_mapped_length _ region1); [apply length_insert|done].
Qed.

(** Every pair of equal indices is reached from a fresh ring by the calls
    themselves: after [n] frames written and read one at a time both indices
    are [n mod 2^32]. *)
Lemma equal_indices_reachable r p chans capacity src out (n : nat) :
  header_ r = Some p → 0 < capacity →
  chans ≤ Z.of_nat (length src) → chans ≤ Z.of_nat (length out) →
  ∀ fs region index,
    fs !! p = Some region →
    whole_file_mapped r region →
    ring_region region chans capacity index index →
    ∃ fs' region',
      do_calls r fs
        (concat (replicate n [CallWrite (Some src) 1; CallRead (Some out) 1]))
      = Some fs'
      ∧ fs' !! p = Some region'
      ∧ whole_file_mapped r region'
      ∧ ring_region region' chans capacity
                    (wrap32 (index + Z.of_nat n)) (wrap32 (index + Z.of_nat n)).
Proof.
  intros Hheader Hcap Hsrc Hout.
  induction n as [|n IH]; intros fs region index Hfile Hmap Hring.
  - exists fs, region. split; [done|]. split; [done|]. split; [done|].
    pose proof Hring as [_ _ _ _ _ _ Hi _ _].
    by rewrite Z.add_0_r, wrap32_small.
  - destruct (advance_one_frame r fs p region chans capacity index src out)
      as (fs1 & region1 & Hrun1 & Hfile1 & Hmap1 & Hring1); try done.
    destruct (IH fs1 region1 (wrap32 (index + 1)) Hfile1 Hmap1 Hring1)
      as (fs' & region' & Hrun & Hfile' & Hmap' & Hring').
    exists fs', region'. split; [|split; [done|split; [done|]]].
    + cbn [replicate concat]. rewrite do_calls_app, Hrun1. exact Hrun.
    + replace (wrap32 (index + Z.of_nat (S n)))
        with (wrap32 (wrap32 (index + 1) + Z.of_nat n)); [done|].
      unfold wrap32. rewrite Zplus_mod_idemp_l. f_equal. lia.
Qed.

(** The driver opens its rings with 48000 frames, which does not divide
    2^32: the frames with indices [2^32 - 1] and [23295], fewer than 48000
    apart, share slot 23295. *)
Example driver_capacity_slots_collide :
  ¬ (48000 | 2 ^ 32)
  ∧ frame_slot (2 ^ 32 - 1) 48000 = 23295
  ∧ frame_slot (2 ^ 32 - 1 + 23296) 48000 = 23295.
Proof.
  split; [|split; reflexivity].
  intros [q Hq]. lia.
Qed.

(** C6 (failing input). A ring of capacity 3 with both indices at
    [UINT32_MAX]: the counts are right (3 frames written, 3 read), but
    indices [2^32 - 1] and [0] both map to slot 0, so the second frame
    overwrites the first and the frames read are not the frames written. *)
Theorem C6_wraparound_overwrites :
  ring_region [kMagic; kVersion; 1; 3; 2 ^ 32 - 1; 2 ^ 32 - 1; 0; 0; 0]
              1 3 (2 ^ 32 - 1) (2 ^ 32 - 1)
  ∧ frame_slot (2 ^ 32 - 1 + 0) 3 = 0
  ∧ frame_slot (2 ^ 32 - 1 + 1) 3 = 0
  ∧ Write (opened (mkOs 3 true true) "/mic" 1 3)
          {[ "/tmp/mic.ring" :=
               [kMagic; kVersion; 1; 3; 2 ^ 32 - 1; 2 ^ 32 - 1; 0; 0; 0] ]}
          (Some [10; 20; 30]) 3
    = Some (3, {[ "/tmp/mic.ring" :=
                    [kMagic; kVersion; 1; 3; 2; 2 ^ 32 - 1; 20; 30; 0] ]})
  ∧ Read (opened (mkOs 3 true true) "/mic" 1 3)
         {[ "/tmp/mic.ring" :=
              [kMagic; kVersion; 1; 3; 2; 2 ^ 32 - 1; 20; 30; 0] ]}
         (Some [0; 0; 0]) 3
    = Some (3, Some [20; 20; 30],
            {[ "/tmp/mic.ring" := [kMagic; kVersion; 1; 3; 2; 2; 20; 30; 0] ]}).
Proof.
  split; [split; try reflexivity; unfold is_u32; simpl; lia|].
  repeat split; vm_compute; reflexivity.
Qed.

(** Across the boundary the round trip does hold when the capacity divides
    2^32 (a power of two): on an empty ring at any index, of an instance
    whose mapping reaches the end of the backing file, [n] frames written are
    read back unchanged. *)
Theorem roundtrip_capacity_divides r fs p region chans capacity index n src out :
  header_ r = Some p → fs !! p = Some region →
  whole_file_mapped r region →
  ring_region region chans capacity index index →
  0 < chans → (capacity | 2 ^ 32) →
  0 < n ≤ capacity →
  Z.of_nat (length src) = n * chans →
  n * chans ≤ Z.of_nat (length out) →
  ∃ fs1 out' fs2,
    Write r fs (Some src) n = Some (n, fs1)
    ∧ Read r fs1 (Some out) n = Some (n, Some out', fs2)
    ∧ take (Z.to_nat (n * chans)) out' = src.
Proof.
  intros Hheader Hfile Hmap Hring Hch Hdiv Hn Hsrc Hout.
  destruct (roundtrip_empty r fs p region chans capacity index
              Hheader Hfile Hmap Hring Hch n src out Hn Hsrc Hout)
    as (fs1 & out' & fs2 & Hw & Hr & Htake & _).
  - intros f g Hfg Hg. apply (slots_distinct_divides index capacity n); try lia.
    done.
  - by exists fs1, out', fs2.
Qed.

Lemma roundtrip_capacity_divides_witness :
  ∃ fs1 out' fs2,
    Write (opened (mkOs 3 true true) "/mic" 1 4)
          {[ "/tmp/mic.ring" :=
               [kMagic; kVersion; 1; 4; 2 ^ 32 - 1; 2 ^ 32 - 1; 0; 0; 0; 0] ]}
          (Some [10; 20; 30]) 3 = Some (3, fs1)
    ∧ Read (opened (mkOs 3 true true) "/mic" 1 4) fs1 (Some [0; 0; 0]) 3
      = Some (3, Some out', fs2)
    ∧ take (Z.to_nat (3 * 1)) out' = [10; 20; 30].
Proof.
  apply (roundtrip_capacity_divides _ _ "/tmp/mic.ring"
           [kMagic; kVersion; 1; 4; 2 ^ 32 - 1; 2 ^ 32 - 1; 0; 0; 0; 0]
           1 4 (2 ^ 32 - 1)).
  - reflexivity.
  - reflexivity.
  - unfold whole_file_mapped. vm_compute. lia.
  - split; try reflexivity; unfold is_u32; simpl; lia.
  - lia.
  - exists (2 ^ 30). reflexivity.
  - lia.
  - reflexivity.
  - simpl. lia.
Defined.

(** * More of the ring *)

(** ** Buffered frames *)

Lemma frame_slot_congruent a b capacity :
  wrap32 a = wrap32 b → frame_slot a capacity = frame_slot b capacity.
Proof. unfold frame_slot. by intros ->. Qed.

Lemma wrap32_add_l a b : wrap32 (wrap32 a + b) = wrap32 (a + b).
Proof. unfold wrap32. apply Zplus_mod_idemp_l. Qed.

Section frames.
Variables (region : list Z) (chans capacity : Z).
Hypothesis (Hch : is_u32 chans) (Hch0 : 0 < chans).
Hypothesis (Hcap : is_u32 capacity) (Hcap0 : 0 < capacity).
Hypothesis (Hsize : DataStart + capacity * chans ≤ Z.of_nat (length region)).

Lemma frame_at_length index :
  length (frame_at region chans capacity index) = Z.to_nat chans.
Proof using Hch0 Hcap0 Hsize.
  unfold frame_at. rewrite length_take, length_drop.
  pose proof (frame_slot_range index capacity Hcap0).
  change DataStart with 6 in *. nia.
Qed.

Lemma frame_at_lookup index c :
  0 ≤ c < chans →
  frame_at region chans capacity index !! Z.to_nat c
  = region !! Z.to_nat (DataStart + frame_slot index capacity * chans + c).
Proof using Hch0 Hcap0 Hsize.
  intros Hc. unfold frame_at.
  pose proof (frame_slot_range index capacity Hcap0).
  rewrite lookup_take_lt by lia. rewrite lookup_drop. f_equal.
  change DataStart with 6. nia.
Qed.

Lemma frames_from_length n : ∀ index,
  length (frames_from region chans capacity index n)
  = (n * Z.to_nat chans)%nat.
Proof using Hch0 Hcap0 Hsize.
  induction n as [|n IH]; intros index; [done|].
  cbn [frames_from]. rewrite length_app, frame_at_length, IH. lia.
Qed.

Lemma frames_from_lookup n : ∀ index f c,
  0 ≤ f < Z.of_nat n → 0 ≤ c < chans →
  frames_from region chans capacity index n !! Z.to_nat (f * chans + c)
  = region !! Z.to_nat (DataStart + frame_slot (index + f) capacity * chans + c).
Proof using Hch0 Hcap0 Hsize.
  induction n as [|n IH]; intros index f c Hf Hc; [lia|].
  cbn [frames_from].
  destruct (Z.eq_dec f 0) as [-> | Hf0].
  - rewrite lookup_app_l by (rewrite frame_at_length; lia).
    rewrite Z.mul_0_l, Z.add_0_l, Z.add_0_r. by apply frame_at_lookup.
  - assert (Hge : chans ≤ f * chans + c) by nia.
    rewrite lookup_app_r by (rewrite frame_at_length; lia).
    rewrite frame_at_length.
    replace (Z.to_nat (f * chans + c) - Z.to_nat chans)%nat
      with (Z.to_nat ((f - 1) * chans + c))
      by (replace ((f - 1) * chans + c) with (f * chans + c - chans) by ring; lia).
    rewrite IH by lia. by replace (index + 1 + (f - 1)) with (index + f) by lia.
Qed.

Lemma frames_from_prefix a : ∀ b index,
  (a ≤ b)%nat →
  frames_from region chans capacity index a
  = take (a * Z.to_nat chans) (frames_from region chans capacity index b).
Proof using Hch0 Hcap0 Hsize.
  induction a as [|a IH]; intros [|b] index Hab; try lia; cbn [frames_from];
    [done | by rewrite take_0 |].
  rewrite (IH b) by lia.
  replace (S a * Z.to_nat chans)%nat with (Z.to_nat chans + a * Z.to_nat chans)%nat
    by lia.
  by rewrite take_app_add' by (by rewrite frame_at_length).
Qed.
End frames.

(** Two lists of [n] frames with the same samples are equal. *)
Lemma frames_eq (l1 l2 : list Z) (n : nat) chans :
  0 < chans →
  length l1 = (n * Z.to_nat chans)%nat →
  length l2 = (n * Z.to_nat chans)%nat →
  (∀ f c, 0 ≤ f < Z.of_nat n → 0 ≤ c < chans →
     l1 !! Z.to_nat (f * chans + c) = l2 !! Z.to_nat (f * chans + c)) →
  l1 = l2.
Proof.
  intros Hch H1 H2 Hsame. apply list_eq. intros i.
  destruct (decide (i < n * Z.to_nat chans)%nat) as [Hi | Hi].
  - set (f := Z.of_nat i / chans). set (c := Z.of_nat i mod chans).
    assert (Hi' : Z.of_nat i = f * chans + c)
      by (unfold f, c; rewrite Z.mul_comm; apply Z.div_mod; lia).
    assert (Hc : 0 ≤ c < chans) by (apply Z.mod_pos_bound; lia).
    assert (Hf : 0 ≤ f < Z.of_nat n).
    { split; [apply Z.div_pos; lia|]. apply Z.div_lt_upper_bound; [lia|]. nia. }
    rewrite <- (Nat2Z.id i), Hi'. by apply Hsame.
  - rewrite (proj2 (lookup_ge_None l1 i)), (proj2 (lookup_ge_None l2 i)) by lia.
    done.
Qed.

Lemma frames_app_lookup (l1 l2 : list Z) (a : nat) chans f c :
  0 < chans → length l1 = (a * Z.to_nat chans)%nat →
  0 ≤ f → 0 ≤ c < chans →
  (l1 ++ l2) !! Z.to_nat (f * chans + c)
  = if decide (f < Z.of_nat a) then l1 !! Z.to_nat (f * chans + c)
    else l2 !! Z.to_nat ((f - Z.of_nat a) * chans + c).
Proof.
  intros Hch Hlen Hf Hc. destruct (decide (f < Z.of_nat a)) as [Hlt | Hge].
  - apply lookup_app_l. rewrite Hlen. nia.
  - assert (Z.of_nat a * chans ≤ f * chans) by nia.
    rewrite lookup_app_r by (rewrite Hlen; nia). f_equal. rewrite Hlen.
    replace ((f - Z.of_nat a) * chans + c)
      with (f * chans + c - Z.of_nat a * chans) by ring.
    nia.
Qed.

Lemma wrap32_rebase write read g :
  wrap32 (read + (wrap32 (write - read) + g)) = wrap32 (write + g).
Proof.
  unfold wrap32.
  replace (read + ((write - read) mod 2 ^ 32 + g))
    with ((write - read) mod 2 ^ 32 + (read + g)) by ring.
  rewrite Zplus_mod_idemp_l. f_equal. lia.
Qed.

(** The frames of a window no longer than the ring lie in distinct slots
    when the capacity divides 2^32, or when the window does not reach the
    32-bit boundary. *)
Lemma window_slots_distinct read capacity n f g :
  0 ≤ read → 0 < capacity →
  (capacity | 2 ^ 32) ∨ read + capacity ≤ 2 ^ 32 →
  n ≤ capacity → 0 ≤ f < g → g < n →
  frame_slot (read + f) capacity ≠ frame_slot (read + g) capacity.
Proof.
  intros Hr Hcap [Hdiv | Hnowrap] Hn Hfg Hg.
  - by apply (slots_distinct_divides read capacity n).
  - apply (slots_distinct_no_wrap read capacity n); lia.
Qed.

Section fifo.
Variables (r : SharedMemoryAudioRing) (fs : gmap string (list Z)).
Variables (p : string) (region : list Z) (chans capacity write read : Z).
Hypothesis (Hheader : header_ r = Some p) (Hfile : fs !! p = Some region).
Hypothesis (Hmap : whole_file_mapped r region).
Hypothesis (Hring : ring_region region chans capacity write read).
Hypothesis (Hch0 : 0 < chans).
Hypothesis (Hinv : wrap32 (write - read) ≤ capacity).

(** [Write] appends: the frames buffered afterwards are those buffered
    before, followed by the frames it accepted. *)
Lemma Write_fifo src frame_count :
  (capacity | 2 ^ 32) ∨ read + capacity ≤ 2 ^ 32 →
  is_size_t frame_count →
  frame_count * chans ≤ Z.of_nat (length src) →
  let used := wrap32 (write - read) in
  let to_write := Z.min frame_count (capacity - used) in
  ∃ region',
    Write r fs (Some src) frame_count = Some (to_write, <[p := region']> fs)
    ∧ ring_region region' chans capacity (wrap32 (write + to_write)) read
    ∧ frames_from region' chans capacity read (Z.to_nat (used + to_write))
      = frames_from region chans capacity read (Z.to_nat used)
          ++ take (Z.to_nat (to_write * chans)) src.
Proof using Hheader Hfile Hmap Hring Hch0 Hinv.
  intros Hwindow Hfc Hsrc used to_write.
  pose proof Hring as [_ _ _ _ Hcu Hcapu Hwu Hru Hsize].
  pose proof (wrap32_range (write - read)) as Hused. fold used in Hused, Hinv.
  assert (Huf : used_frames capacity write read = used)
    by (unfold used_frames; fold used; lia).
  destruct (Write_mapped_spec region chans capacity write read Hring
              src frame_count Hfc Hsrc)
    as (region' & Hw & Hlen & Hring' & H0 & Hout & Hin).
  rewrite Huf in *. fold to_write in Hw, Hring', H0, Hout, Hin.
  assert (Htw : 0 ≤ to_write ≤ capacity - used)
    by (unfold to_write, is_size_t, is_u32 in *; lia).
  exists region'. split; [|split; [done|]].
  { apply (Write_unfold r fs p region Hheader Hfile Hmap _ _ _ _ Hw).
    intros ->. split; [|apply H0]; unfold is_u32 in *; lia. }
  destruct (Z.eq_dec to_write 0) as [Hz | Hnz].
  { rewrite (H0 Hz), Hz, Z.add_0_r, Z.mul_0_l. cbn [Z.to_nat take].
    by rewrite app_nil_r. }
  assert (Hcap0 : 0 < capacity) by (unfold is_u32 in *; lia).
  assert (Hslot : ∀ g, frame_slot (write + g) capacity
                       = frame_slot (read + (used + g)) capacity).
  { intros g. apply frame_slot_congruent. symmetry. apply wrap32_rebase. }
  assert (Hdistinct : ∀ f g, 0 ≤ f < g → g < used + to_write →
            frame_slot (read + f) capacity ≠ frame_slot (read + g) capacity).
  { intros f g Hfg Hg.
    apply (window_slots_distinct read capacity (used + to_write)); try done;
      unfold is_u32 in *; lia. }
  assert (Hsize' : DataStart + capacity * chans ≤ Z.of_nat (length region'))
    by (rewrite Hlen; done).
  apply (frames_eq _ _ (Z.to_nat (used + to_write)) chans Hch0).
  { by apply frames_from_length. }
  { rewrite length_app, length_take, frames_from_length by done.
    assert (Hle : (Z.to_nat (to_write * chans) ≤ length src)%nat)
      by (unfold is_size_t in *; nia).
    rewrite Nat.min_l by exact Hle.
    rewrite Z2Nat.inj_mul, Z2Nat.inj_add by (unfold is_u32 in *; lia).
    by rewrite Nat.mul_add_distr_r. }
  intros f c Hf Hc.
  rewrite frames_from_lookup by (done || lia).
  rewrite (frames_app_lookup _ _ (Z.to_nat used) chans f c Hch0)
    by (by apply frames_from_length || lia).
  destruct (decide (f < Z.of_nat (Z.to_nat used))) as [Hlt | Hge].
  - rewrite frames_from_lookup by (done || lia).
    pose proof (frame_slot_range (read + f) capacity Hcap0).
    apply Hout.
    + change DataStart with 6. unfold is_u32 in *. nia.
    + change DataStart with 6. unfold off_write_index. unfold is_u32 in *. nia.
    + intros g Hg. unfold in_slot. rewrite Hslot.
      assert (Hne : frame_slot (read + f) capacity
                    ≠ frame_slot (read + (used + g)) capacity)
        by (apply Hdistinct; lia).
      pose proof (slot_ranges_disjoint _ _ chans c Hne Hc). lia.
  - rewrite Z2Nat.id in * by (unfold is_u32 in *; lia).
    assert (0 ≤ (f - used) * chans + c < to_write * chans) by nia.
    rewrite lookup_take_lt by lia.
    replace (read + f) with (read + (used + (f - used))) by lia.
    rewrite <- Hslot. apply Hin; [|lia|done].
    intros f' g' Hfg' Hg'. rewrite !Hslot.
    apply Hdistinct; unfold is_u32 in *; lia.
Qed.

(** [Read] takes from the front: it returns the oldest buffered frames in
    order, leaves the rest of the caller's buffer alone, and what stays
    buffered is what was buffered without the frames returned. *)
Lemma Read_fifo out frame_count :
  is_size_t frame_count →
  frame_count * chans ≤ Z.of_nat (length out) →
  let used := wrap32 (write - read) in
  let to_read := Z.min frame_count used in
  let region' := <[off_read_index := wrap32 (read + to_read)]> region in
  ∃ out',
    Read r fs (Some out) frame_count
    = Some (to_read, Some out', <[p := region']> fs)
    ∧ length out' = length out
    ∧ ring_region region' chans capacity write (wrap32 (read + to_read))
    ∧ take (Z.to_nat (to_read * chans)) out'
      = frames_from region chans capacity read (Z.to_nat to_read)
    ∧ drop (Z.to_nat (to_read * chans)) out'
      = drop (Z.to_nat (to_read * chans)) out
    ∧ frames_from region chans capacity read (Z.to_nat used)
      = frames_from region chans capacity read (Z.to_nat to_read)
          ++ frames_from region' chans capacity (wrap32 (read + to_read))
                         (Z.to_nat (used - to_read)).
Proof using Hheader Hfile Hmap Hring Hch0 Hinv.
  intros Hfc Hout used to_read.
  pose proof Hring as [_ _ _ _ Hcu Hcapu Hwu Hru Hsize].
  pose proof (wrap32_range (write - read)) as Hused. fold used in Hused, Hinv.
  assert (Huf : used_frames capacity write read = used)
    by (unfold used_frames; fold used; lia).
  destruct (Read_mapped_spec region chans capacity write read Hring
              out frame_count Hfc Hout)
    as (out' & Hr & Hlen & Hring' & H0 & Hrest & Hread).
  rewrite Huf in *. fold to_read in Hr, Hring', H0, Hrest, Hread.
  assert (Htr : 0 ≤ to_read ≤ used)
    by (unfold to_read, is_size_t, is_u32 in *; lia).
  intros region'. fold region' in Hr, Hring', H0.
  exists out'. split; [|split; [done|split; [done|]]].
  { apply (Read_unfold r fs p region Hheader Hfile Hmap _ _ _ _ _ Hr).
    intros ->. split; [|apply H0]; unfold is_u32 in *; lia. }
  destruct (Z.eq_dec capacity 0) as [Hc0 | Hc0].
  { assert (used = 0) by lia. assert (to_read = 0) by lia.
    replace (used - to_read) with 0 by lia.
    replace used with 0 by lia. replace to_read with 0 in * by lia.
    cbn [Z.to_nat Z.mul take drop frames_from app].
    destruct (H0 eq_refl) as [-> _]. done. }
  assert (Hcap0 : 0 < capacity) by (unfold is_u32 in *; lia).
  assert (Hsize' : DataStart + capacity * chans ≤ Z.of_nat (length region'))
    by (unfold region'; rewrite length_insert; done).
  split; [|split].
  - apply (frames_eq _ _ (Z.to_nat to_read) chans Hch0).
    + rewrite length_take. unfold is_size_t in *. nia.
    + by apply frames_from_length.
    + intros f c Hf Hc. rewrite lookup_take_lt by nia.
      rewrite frames_from_lookup by (done || lia). apply Hread; [lia | done].
  - apply list_eq. intros i. rewrite !lookup_drop.
    rewrite <- (Nat2Z.id (Z.to_nat (to_read * chans) + i)).
    apply Hrest. unfold is_u32 in *. nia.
  - apply (frames_eq _ _ (Z.to_nat used) chans Hch0).
    + by apply frames_from_length.
    + rewrite length_app, !frames_from_length by done. nia.
    + intros f c Hf Hc.
      rewrite frames_from_lookup by (done || lia).
      rewrite (frames_app_lookup _ _ (Z.to_nat to_read) chans f c Hch0)
        by (by apply frames_from_length || lia).
      destruct (decide (f < Z.of_nat (Z.to_nat to_read))) as [Hlt | Hge].
      * by rewrite frames_from_lookup by (done || lia).
      * rewrite frames_from_lookup by (done || lia).
        rewrite Z2Nat.id by lia.
        rewrite (frame_slot_congruent (wrap32 (read + to_read) + (f - to_read))
                   (read + f))
          by (rewrite wrap32_add_l; f_equal; lia).
        pose proof (frame_slot_range (read + f) capacity Hcap0).
        unfold region'. rewrite list_lookup_insert_ne; [done|].
        change DataStart with 6. unfold off_read_index. unfold is_u32 in *. nia.
Qed.
End fifo.

(** The ring is a queue of frames. [Write] appends: the frames buffered
    afterwards are those buffered before, followed by the frames it
    accepted. [Read] takes from the front: it returns the oldest buffered
    frames in order, leaves the rest of the caller's buffer alone, and what
    stays buffered is what was buffered without the frames returned. Frames
    are counted from the read index; across the 32-bit boundary of the
    indices this needs a capacity that divides 2^32. The instance is one
    whose mapping reaches the end of its backing file. *)
Theorem ring_is_fifo r fs p region chans capacity write read :
  header_ r = Some p → fs !! p = Some region →
  whole_file_mapped r region →
  ring_region region chans capacity write read →
  0 < chans →
  wrap32 (write - read) ≤ capacity →
  let used := wrap32 (write - read) in
  (∀ src frame_count,
     (capacity | 2 ^ 32) ∨ read + capacity ≤ 2 ^ 32 →
     is_size_t frame_count →
     frame_count * chans ≤ Z.of_nat (length src) →
     let to_write := Z.min frame_count (capacity - used) in
     ∃ region',
       Write r fs (Some src) frame_count = Some (to_write, <[p := region']> fs)
       ∧ ring_region region' chans capacity (wrap32 (write + to_write)) read
       ∧ frames_from region' chans capacity read (Z.to_nat (used + to_write))
         = frames_from region chans capacity read (Z.to_nat used)
             ++ take (Z.to_nat (to_write * chans)) src)
  ∧ (∀ out frame_count,
       is_size_t frame_count →
       frame_count * chans ≤ Z.of_nat (length out) →
       let to_read := Z.min frame_count used in
       ∃ out' region',
         Read r fs (Some out) frame_count
         = Some (to_read, Some out', <[p := region']> fs)
         ∧ ring_region region' chans capacity write (wrap32 (read + to_read))
         ∧ take (Z.to_nat (to_read * chans)) out'
           = frames_from region chans capacity read (Z.to_nat to_read)
         ∧ drop (Z.to_nat (to_read * chans)) out'
           = drop (Z.to_nat (to_read * chans)) out
         ∧ frames_from region chans capacity read (Z.to_nat used)
           = frames_from region chans capacity read (Z.to_nat to_read)
               ++ frames_from region' chans capacity (wrap32 (read + to_read))
                              (Z.to_nat (used - to_read))).
Proof.
  intros Hheader Hfile Hmap Hring Hch0 Hinv used. split.
  - intros src frame_count. by apply Write_fifo.
  - intros out frame_count Hfc Hout to_read.
    destruct (Read_fifo r fs p region chans capacity write read
                Hheader Hfile Hmap Hring Hch0 Hinv out frame_count Hfc Hout)
      as (out' & Hr & _ & Hrest).
    by eexists out', _.
Qed.

Lemma ring_is_fifo_witness :
  (∃ region',
     Write (opened (mkOs 3 true true) "/mic" 2 3)
           {[ "/tmp/mic.ring" := [kMagic; kVersion; 2; 3; 6; 4; 1; 2; 3; 4; 5; 6] ]}
           (Some [7; 8; 9; 10]) 2
     = Some (1, <[ "/tmp/mic.ring" := region' ]>
                  {[ "/tmp/mic.ring" := [kMagic; kVersion; 2; 3; 6; 4; 1; 2; 3; 4; 5; 6] ]})
     ∧ ring_region region' 2 3 7 4
     ∧ frames_from region' 2 3 4 3 = [3; 4; 5; 6] ++ [7; 8])
  ∧ (∃ out' region',
       Read (opened (mkOs 3 true true) "/mic" 2 3)
            {[ "/tmp/mic.ring" := [kMagic; kVersion; 2; 3; 6; 4; 1; 2; 3; 4; 5; 6] ]}
            (Some [0; 0; 0; 0]) 1
       = Some (1, Some out',
               <[ "/tmp/mic.ring" := region' ]>
                 {[ "/tmp/mic.ring" := [kMagic; kVersion; 2; 3; 6; 4; 1; 2; 3; 4; 5; 6] ]})
       ∧ ring_region region' 2 3 6 5
       ∧ take 2 out' = [3; 4]
       ∧ drop 2 out' = [0; 0]
       ∧ [3; 4; 5; 6] = [3; 4] ++ frames_from region' 2 3 5 1).
Proof.
  assert (Hring : ring_region [kMagic; kVersion; 2; 3; 6; 4; 1; 2; 3; 4; 5; 6]
                    2 3 6 4)
    by (split; try reflexivity; unfold is_u32; simpl; lia).
  assert (Hinv : wrap32 (6 - 4) ≤ 3) by (vm_compute; discriminate).
  assert (Hmap : whole_file_mapped
                   (opened (mkOs 3 true true) "/mic" 2 3)
                   [kMagic; kVersion; 2; 3; 6; 4; 1; 2; 3; 4; 5; 6])
    by (unfold whole_file_mapped; vm_compute; lia).
  split.
  - refine (proj1 (ring_is_fifo (opened (mkOs 3 true true) "/mic" 2 3)
              {[ "/tmp/mic.ring" := [kMagic; kVersion; 2; 3; 6; 4; 1; 2; 3; 4; 5; 6] ]}
              "/tmp/mic.ring" [kMagic; kVersion; 2; 3; 6; 4; 1; 2; 3; 4; 5; 6]
              2 3 6 4 eq_refl eq_refl Hmap Hring _ Hinv) [7; 8; 9; 10] 2 _ _ _).
    + lia.
    + right. lia.
    + unfold is_size_t. lia.
    + simpl. lia.
  - refine (proj2 (ring_is_fifo (opened (mkOs 3 true true) "/mic" 2 3)
              {[ "/tmp/mic.ring" := [kMagic; kVersion; 2; 3; 6; 4; 1; 2; 3; 4; 5; 6] ]}
              "/tmp/mic.ring" [kMagic; kVersion; 2; 3; 6; 4; 1; 2; 3; 4; 5; 6]
              2 3 6 4 eq_refl eq_refl Hmap Hring _ Hinv) [0; 0; 0; 0] 1 _ _).
    + lia.
    + unfold is_size_t. lia.
    + simpl. lia.
Defined.

(** ** What the calls leave alone *)

Lemma Write_mapped_keeps region chans capacity write read src n k region' :
  ring_region region chans capacity write read →
  is_size_t n → n * chans ≤ Z.of_nat (length src) →
  Write_mapped region src n = Some (k, region') →
  length region' = length region
  ∧ ∀ i, (i < 6)%nat → i ≠ off_write_index → region' !! i = region !! i.
Proof.
  intros Hring Hn Hsrc Hw.
  pose proof Hring as [_ _ _ _ Hcu Hcapu _ _ _].
  pose proof (used_frames_range capacity write read
                ltac:(unfold is_u32 in *; lia)) as Hused.
  destruct (Write_mapped_spec region chans capacity write read Hring src n Hn Hsrc)
    as (region1 & Hw1 & Hlen & _ & H0 & Hout & _).
  rewrite Hw in Hw1. injection Hw1 as -> <-. split; [done|].
  intros i Hi Hne.
  destruct (Z.eq_dec (Z.min n (capacity - used_frames capacity write read)) 0)
    as [Hz | Hnz]; [by rewrite (H0 Hz)|].
  rewrite <- (Nat2Z.id i). apply Hout; [lia | by rewrite Nat2Z.id |].
  intros f Hf. apply header_not_in_slot;
    [unfold is_u32 in *; lia | lia | change DataStart with 6; lia].
Qed.

Lemma Write_keeps r fs p region chans capacity write read src n k fs' :
  header_ r = Some p → fs !! p = Some region →
  whole_file_mapped r region →
  ring_region region chans capacity write read →
  is_size_t n → n * chans ≤ Z.of_nat (length src) →
  Write r fs (Some src) n = Some (k, fs') →
  ∃ region',
    fs' !! p = Some region'
    ∧ length region' = length region
    ∧ ∀ i, (i < 6)%nat → i ≠ off_write_index → region' !! i = region !! i.
Proof.
  intros Hheader Hfile Hmap Hring Hn Hsrc Hwrite.
  pose proof Hring as [_ _ _ _ Hcu Hcapu _ _ _].
  pose proof (used_frames_range capacity write read
                ltac:(unfold is_u32 in *; lia)) as Hused.
  destruct (Write_mapped_spec region chans capacity write read Hring src n Hn Hsrc)
    as (region1 & Hw & _ & _ & H0 & _).
  rewrite (Write_unfold r fs p region Hheader Hfile Hmap _ _ _ _ Hw) in Hwrite
    by (intros ->; split; [|apply H0]; lia).
  injection Hwrite as _ <-. exists region1.
  split; [apply lookup_insert_eq|].
  exact (Write_mapped_keeps _ _ _ _ _ _ _ _ _ Hring Hn Hsrc Hw).
Qed.

(** [Write] changes the write index and the slots of the frames it accepts,
    nothing else: not the magic, version, channels or capacity, not the read
    index, not the size of the file. [Read] changes the read index and
    nothing else: no sample and not the write index. The instance is one
    whose mapping reaches the end of its backing file. *)
Theorem calls_change_only_their_part r fs p region chans capacity write read :
  header_ r = Some p → fs !! p = Some region →
  whole_file_mapped r region →
  ring_region region chans capacity write read →
  (∀ src frame_count,
     is_size_t frame_count → frame_count * chans ≤ Z.of_nat (length src) →
     ∃ n region',
       Write r fs (Some src) frame_count = Some (n, <[p := region']> fs)
       ∧ length region' = length region
       ∧ (∀ i, (i < 6)%nat → i ≠ off_write_index → region' !! i = region !! i)
       ∧ (∀ k, DataStart ≤ k →
            (∀ f, 0 ≤ f < n → ¬ in_slot chans capacity (write + f) k) →
            region' !! Z.to_nat k = region !! Z.to_nat k))
  ∧ (∀ out frame_count,
       is_size_t frame_count → frame_count * chans ≤ Z.of_nat (length out) →
       ∃ n out' region',
         Read r fs (Some out) frame_count = Some (n, Some out', <[p := region']> fs)
         ∧ length region' = length region
         ∧ ∀ i, i ≠ off_read_index → region' !! i = region !! i).
Proof.
  intros Hheader Hfile Hmap Hring.
  pose proof Hring as [_ _ _ _ Hcu Hcapu _ _ _].
  pose proof (used_frames_range capacity write read
                ltac:(unfold is_u32 in *; lia)) as Hused.
  split.
  - intros src n Hn Hsrc.
    destruct (Write_mapped_spec region chans capacity write read Hring src n Hn Hsrc)
      as (region' & Hw & Hlen & _ & H0 & Hout & _).
    eexists _, region'. split; [|split; [done|split]].
    + apply (Write_unfold r fs p region Hheader Hfile Hmap _ _ _ _ Hw).
      intros ->. split; [|apply H0]; lia.
    + intros i Hi Hne.
      destruct (Z.eq_dec (Z.min n (capacity - used_frames capacity write read)) 0)
        as [Hz | Hnz]; [by rewrite (H0 Hz)|].
      rewrite <- (Nat2Z.id i). apply Hout; [lia | by rewrite Nat2Z.id |].
      intros f Hf. apply header_not_in_slot;
        [unfold is_u32 in *; lia | lia | change DataStart with 6; lia].
    + intros k Hk Hno. apply Hout; [change DataStart with 6 in Hk; lia | |done].
      change DataStart with 6 in Hk. unfold off_write_index. lia.
  - intros out n Hn Hout.
    destruct (Read_mapped_spec region chans capacity write read Hring out n Hn Hout)
      as (out' & Hr & _ & _ & H0 & _).
    eexists _, out', _. split; [|split].
    + apply (Read_unfold r fs p region Hheader Hfile Hmap _ _ _ _ _ Hr).
      intros ->. split; [|apply H0]; lia.
    + apply length_insert.
    + intros i Hi. by apply list_lookup_insert_ne.
Qed.

Lemma calls_change_only_their_part_witness :
  (∀ src frame_count,
     is_size_t frame_count → frame_count * 2 ≤ Z.of_nat (length src) →
     ∃ n region',
       Write (opened (mkOs 3 true true) "/mic" 2 3)
             {[ "/tmp/mic.ring" := [kMagic; kVersion; 2; 3; 5; 4; 1; 2; 3; 4; 5; 6] ]}
             (Some src) frame_count
       = Some (n, <[ "/tmp/mic.ring" := region' ]>
                    {[ "/tmp/mic.ring" := [kMagic; kVersion; 2; 3; 5; 4; 1; 2; 3; 4; 5; 6] ]})
       ∧ length region' = 12%nat
       ∧ (∀ i, (i < 6)%nat → i ≠ off_write_index →
            region' !! i = [kMagic; kVersion; 2; 3; 5; 4; 1; 2; 3; 4; 5; 6] !! i)
       ∧ (∀ k, DataStart ≤ k →
            (∀ f, 0 ≤ f < n → ¬ in_slot 2 3 (5 + f) k) →
            region' !! Z.to_nat k
            = [kMagic; kVersion; 2; 3; 5; 4; 1; 2; 3; 4; 5; 6] !! Z.to_nat k))
  ∧ (∀ out frame_count,
       is_size_t frame_count → frame_count * 2 ≤ Z.of_nat (length out) →
       ∃ n out' region',
         Read (opened (mkOs 3 true true) "/mic" 2 3)
              {[ "/tmp/mic.ring" := [kMagic; kVersion; 2; 3; 5; 4; 1; 2; 3; 4; 5; 6] ]}
              (Some out) frame_count
         = Some (n, Some out',
                 <[ "/tmp/mic.ring" := region' ]>
                   {[ "/tmp/mic.ring" := [kMagic; kVersion; 2; 3; 5; 4; 1; 2; 3; 4; 5; 6] ]})
         ∧ length region' = 12%nat
         ∧ ∀ i, i ≠ off_read_index →
             region' !! i = [kMagic; kVersion; 2; 3; 5; 4; 1; 2; 3; 4; 5; 6] !! i).
Proof.
  refine (calls_change_only_their_part (opened (mkOs 3 true true) "/mic" 2 3)
            {[ "/tmp/mic.ring" := [kMagic; kVersion; 2; 3; 5; 4; 1; 2; 3; 4; 5; 6] ]}
            "/tmp/mic.ring" [kMagic; kVersion; 2; 3; 5; 4; 1; 2; 3; 4; 5; 6]
            2 3 5 4 _ _ _ _).
  - reflexivity.
  - reflexivity.
  - unfold whole_file_mapped. vm_compute. lia.
  - split; try reflexivity; unfold is_u32; simpl; lia.
Defined.

(** ** Two rings *)

Lemma Write_inv r fs buf n k fs' p :
  header_ r = Some p →
  Write r fs buf n = Some (k, fs') →
  (fs' = fs ∧ k = 0 ∧ (buf = None ∨ n = 0))
  ∨ (∃ src file region',
       buf = Some src ∧ n ≠ 0 ∧ fs !! p = Some file
       ∧ Write_mapped (in_mapping r file) src n = Some (k, region')
       ∧ fs' = <[p := region' ++ past_mapping r file]> fs).
Proof.
  intros Hheader. unfold Write. rewrite Hheader.
  destruct buf as [src|]; [|intros [= <- <-]; left; eauto].
  destruct (Z.eqb_spec n 0) as [-> | Hn]; [intros [= <- <-]; left; eauto|].
  destruct (fs !! p) as [file|] eqn:Efile; [|done]. cbn [mbind option_bind].
  destruct (Write_mapped (in_mapping r file) src n)
    as [[k' region']|] eqn:Ew; [|done].
  cbn [mbind option_bind]. intros [= <- <-]. right. eauto 10.
Qed.

Lemma Read_inv r fs buf n k out fs' p :
  header_ r = Some p →
  Read r fs buf n = Some (k, out, fs') →
  (fs' = fs ∧ k = 0 ∧ out = buf ∧ (buf = None ∨ n = 0))
  ∨ (∃ b file out' region',
       buf = Some b ∧ n ≠ 0 ∧ fs !! p = Some file
       ∧ Read_mapped (in_mapping r file) b n = Some (k, out', region')
       ∧ out = Some out' ∧ fs' = <[p := region' ++ past_mapping r file]> fs).
Proof.
  intros Hheader. unfold Read. rewrite Hheader.
  destruct buf as [b|]; [|intros [= <- <- <-]; left; eauto].
  destruct (Z.eqb_spec n 0) as [-> | Hn]; [intros [= <- <- <-]; left; eauto|].
  destruct (fs !! p) as [file|] eqn:Efile; [|done]. cbn [mbind option_bind].
  destruct (Read_mapped (in_mapping r file) b n)
    as [[[k' out'] region']|] eqn:Er; [|done].
  cbn [mbind option_bind]. intros [= <- <- <-]. right. eauto 12.
Qed.

Lemma Write_idle r fs buf n :
  buf = None ∨ n = 0 → Write r fs buf n = Some (0, fs).
Proof.
  intros [-> | ->]; unfold Write; destruct (header_ r); try done.
  by destruct buf.
Qed.

Lemma Read_idle r fs buf n :
  buf = None ∨ n = 0 → Read r fs buf n = Some (0, buf, fs).
Proof.
  intros [-> | ->]; unfold Read; destruct (header_ r); try done.
  by destruct buf.
Qed.

Lemma Write_step r fs p file src n k region' :
  header_ r = Some p → fs !! p = Some file → n ≠ 0 →
  Write_mapped (in_mapping r file) src n = Some (k, region') →
  Write r fs (Some src) n
  = Some (k, <[p := region' ++ past_mapping r file]> fs).
Proof.
  intros Hheader Hfile Hn Hw. unfold Write. rewrite Hheader.
  destruct (Z.eqb_spec n 0); [done|]. rewrite Hfile. cbn [mbind option_bind].
  by rewrite Hw.
Qed.

Lemma Read_step r fs p file b n k out' region' :
  header_ r = Some p → fs !! p = Some file → n ≠ 0 →
  Read_mapped (in_mapping r file) b n = Some (k, out', region') →
  Read r fs (Some b) n
  = Some (k, Some out', <[p := region' ++ past_mapping r file]> fs).
Proof.
  intros Hheader Hfile Hn Hr. unfold Read. rewrite Hheader.
  destruct (Z.eqb_spec n 0); [done|]. rewrite Hfile. cbn [mbind option_bind].
  by rewrite Hr.
Qed.

(** Rings on different backing files do not interfere: a [Read] on one
    returns the same count and samples whether a [Write] on the other came
    before it or comes after it, and both orders leave the same files. *)
Theorem rings_do_not_interfere rA rB fs pA pB a n b m k fs1 j out fs2 :
  header_ rA = Some pA → header_ rB = Some pB → pA ≠ pB →
  Write rA fs a n = Some (k, fs1) →
  Read rB fs1 b m = Some (j, out, fs2) →
  ∃ fs1',
    Read rB fs b m = Some (j, out, fs1')
    ∧ Write rA fs1' a n = Some (k, fs2).
Proof.
  intros HA HB Hne Hw Hr.
  destruct (Write_inv _ _ _ _ _ _ _ HA Hw)
    as [(-> & -> & Hidle) | (src & regA & regA' & -> & Hn & HfA & HwA & ->)].
  { exists fs2. split; [done|]. by apply Write_idle. }
  destruct (Read_inv _ _ _ _ _ _ _ _ HB Hr)
    as [(-> & -> & -> & Hidle)
       | (buf & regB & out' & regB' & -> & Hm & HfB & HrB & -> & ->)].
  { exists fs. split; [by apply Read_idle|]. by apply Write_step. }
  rewrite lookup_insert_ne in HfB by done.
  exists (<[pB := regB' ++ past_mapping rB regB]> fs). split.
  - by apply Read_step.
  - rewrite insert_insert_ne by done.
    apply Write_step; try done. by rewrite lookup_insert_ne.
Qed.

Lemma rings_do_not_interfere_witness :
  ∃ fs1',
    Read (opened (mkOs 4 true true) "/tap" 1 2)
         {[ "/tmp/mic.ring" := [kMagic; kVersion; 2; 3; 5; 4; 1; 2; 3; 4; 5; 6];
            "/tmp/tap.ring" := [kMagic; kVersion; 1; 2; 1; 0; 9; 8] ]}
         (Some [0; 0]) 2
    = Some (1, Some [9; 0], fs1')
    ∧ Write (opened (mkOs 3 true true) "/mic" 2 3) fs1' (Some [7; 8]) 1
      = Some (1,
              {[ "/tmp/mic.ring" := [kMagic; kVersion; 2; 3; 6; 4; 1; 2; 3; 4; 7; 8];
                 "/tmp/tap.ring" := [kMagic; kVersion; 1; 2; 1; 1; 9; 8] ]}).
Proof.
  refine (rings_do_not_interfere
            (opened (mkOs 3 true true) "/mic" 2 3)
            (opened (mkOs 4 true true) "/tap" 1 2)
            {[ "/tmp/mic.ring" := [kMagic; kVersion; 2; 3; 5; 4; 1; 2; 3; 4; 5; 6];
               "/tmp/tap.ring" := [kMagic; kVersion; 1; 2; 1; 0; 9; 8] ]}
            "/tmp/mic.ring" "/tmp/tap.ring" (Some [7; 8]) 1 (Some [0; 0]) 2 1
            {[ "/tmp/mic.ring" := [kMagic; kVersion; 2; 3; 6; 4; 1; 2; 3; 4; 7; 8];
               "/tmp/tap.ring" := [kMagic; kVersion; 1; 2; 1; 0; 9; 8] ]}
            1 (Some [9; 0]) _ _ _ _ _ _).
  - reflexivity.
  - reflexivity.
  - discriminate.
  - vm_compute. reflexivity.
  - vm_compute. reflexivity.
Defined.

(** ** Frames are neither lost nor invented *)

Lemma transferred_spec r fs p region chans capacity write read c :
  header_ r = Some p → fs !! p = Some region →
  whole_file_mapped r region →
  ring_region region chans capacity write read →
  wrap32 (write - read) ≤ capacity →
  valid_call chans c →
  ∃ w t fs' region',
    transferred r fs c = Some (w, t, fs')
    ∧ fs' !! p = Some region'
    ∧ whole_file_mapped r region'
    ∧ ring_region region' chans capacity (wrap32 (write + w)) (wrap32 (read + t))
    ∧ 0 ≤ w ∧ 0 ≤ t
    ∧ 0 ≤ wrap32 (write - read) + w - t ≤ capacity
    ∧ wrap32 (wrap32 (write + w) - wrap32 (read + t))
      = wrap32 (write - read) + w - t.
Proof.
  intros Hheader Hfile Hmap Hring Hinv Hvalid.
  pose proof Hring as [_ _ _ _ Hcu Hcapu Hwu Hru _].
  pose proof (wrap32_range (write - read)) as Hu. unfold is_u32 in Hu.
  assert (Hused : used_frames capacity write read = wrap32 (write - read))
    by (unfold used_frames; lia).
  assert (Hidle : ∃ w t fs' region',
            Some (0, 0, fs) = Some (w, t, fs')
            ∧ fs' !! p = Some region'
            ∧ whole_file_mapped r region'
            ∧ ring_region region' chans capacity
                (wrap32 (write + w)) (wrap32 (read + t))
            ∧ 0 ≤ w ∧ 0 ≤ t
            ∧ 0 ≤ wrap32 (write - read) + w - t ≤ capacity
            ∧ wrap32 (wrap32 (write + w) - wrap32 (read + t))
              = wrap32 (write - read) + w - t).
  { exists 0, 0, fs, region.
    rewrite !Z.add_0_r, (wrap32_small write), (wrap32_small read) by done.
    do 4 (split; [done|]). lia. }
  destruct c as [[src|] n | [out|] n]; cbn [transferred];
    rewrite ?Write_null, ?Read_null; try exact Hidle; destruct Hvalid as [Hn Hbuf].
  - destruct (Write_mapped_spec region chans capacity write read Hring src n Hn Hbuf)
      as (region' & Hw & Hlen' & Hring' & H0 & _).
    rewrite Hused in *.
    rewrite (Write_unfold r fs p region Hheader Hfile Hmap _ _ _ _ Hw)
      by (intros ->; split; [|apply H0]; lia).
    cbn [mbind option_bind].
    eexists _, 0, _, region'. split; [done|].
    rewrite lookup_insert_eq, Z.add_0_r, (wrap32_small read) by done.
    split; [done|].
    split; [exact (whole_file_mapped_length _ _ _ Hlen' Hmap)|].
    split; [done|].
    unfold is_size_t in Hn. split; [lia|]. split; [done|]. split; [lia|].
    rewrite wrap32_advance_write, Z.sub_0_r.
    apply wrap32_small. unfold is_u32 in *. lia.
  - destruct (Read_mapped_spec region chans capacity write read Hring out n Hn Hbuf)
      as (out' & Hr & _ & Hring' & H0 & _).
    rewrite Hused in *.
    rewrite (Read_unfold r fs p region Hheader Hfile Hmap _ _ _ _ _ Hr)
      by (intros ->; split; [|apply H0]; lia).
    cbn [mbind option_bind].
    eexists 0, _, _, _. split; [done|].
    rewrite lookup_insert_eq, Z.add_0_r, (wrap32_small write) by done.
    split; [done|].
    split; [apply (whole_file_mapped_length _ region);
            [apply length_insert|exact Hmap]|].
    split; [done|].
    unfold is_size_t in Hn. split; [done|]. split; [lia|]. split; [lia|].
    rewrite wrap32_advance_read, Z.add_0_r.
    apply wrap32_small. unfold is_u32 in *. lia.
Qed.

(** Over any sequence of calls on an instance whose mapping reaches the end
    of its backing file, the ring neither loses nor invents frames: the
    frames returned by the [Read]s never exceed those buffered at the start
    plus those accepted by the [Write]s, the difference is what the header
    reports as buffered afterwards, and it never exceeds the capacity. *)
Theorem frames_conserved r p chans capacity calls :
  header_ r = Some p →
  Forall (valid_call chans) calls →
  ∀ fs region write read,
    fs !! p = Some region →
    whole_file_mapped r region →
    ring_region region chans capacity write read →
    wrap32 (write - read) ≤ capacity →
    ∃ written taken fs' region',
      total_transferred r fs calls = Some (written, taken, fs')
      ∧ fs' !! p = Some region'
      ∧ ring_region region' chans capacity
                    (wrap32 (write + written)) (wrap32 (read + taken))
      ∧ 0 ≤ written ∧ 0 ≤ taken
      ∧ taken ≤ wrap32 (write - read) + written
      ∧ wrap32 (write - read) + written - taken ≤ capacity
      ∧ wrap32 (wrap32 (write + written) - wrap32 (read + taken))
        = wrap32 (write - read) + written - taken.
Proof.
  intros Hheader Hvalid. induction Hvalid as [|c calls Hc _ IH];
    intros fs region write read Hfile Hmap Hring Hinv.
  - pose proof Hring as [_ _ _ _ _ _ Hwu Hru _].
    pose proof (wrap32_range (write - read)) as Hu. unfold is_u32 in Hu.
    exists 0, 0, fs, region. cbn [total_transferred].
    rewrite !Z.add_0_r, (wrap32_small write), (wrap32_small read) by done.
    do 3 (split; [done|]). lia.
  - destruct (transferred_spec r fs p region chans capacity write read c
                Hheader Hfile Hmap Hring Hinv Hc)
      as (w1 & t1 & fs1 & region1 & Hstep & Hfile1 & Hmap1 & Hring1
          & Hw1 & Ht1 & Hb1 & Hu1).
    destruct (IH fs1 region1 _ _ Hfile1 Hmap1 Hring1 ltac:(lia))
      as (w2 & t2 & fs2 & region2 & Hrest & Hfile2 & Hring2 & Hw2 & Ht2 & Hle & Hb2 & Hu2).
    exists (w1 + w2), (t1 + t2), fs2, region2.
    cbn [total_transferred]. rewrite Hstep. cbn [mbind option_bind].
    rewrite Hrest. cbn [mbind option_bind].
    rewrite !wrap32_add_l, <- !Z.add_assoc in Hring2, Hu2.
    split; [done|]. split; [done|]. split; [done|]. lia.
Qed.

Lemma frames_conserved_witness :
  ∃ written taken fs' region',
    total_transferred (opened (mkOs 3 true true) "/mic" 2 3)
      {[ "/tmp/mic.ring" := [kMagic; kVersion; 2; 3; 5; 4; 1; 2; 3; 4; 5; 6] ]}
      [CallWrite (Some [7; 8]) 1; CallRead (Some [0; 0; 0; 0; 0; 0]) 3;
       CallRead (Some [0; 0]) 1]
    = Some (written, taken, fs')
    ∧ fs' !! "/tmp/mic.ring" = Some region'
    ∧ ring_region region' 2 3 (wrap32 (5 + written)) (wrap32 (4 + taken))
    ∧ 0 ≤ written ∧ 0 ≤ taken
    ∧ taken ≤ wrap32 (5 - 4) + written
    ∧ wrap32 (5 - 4) + written - taken ≤ 3
    ∧ wrap32 (wrap32 (5 + written) - wrap32 (4 + taken))
      = wrap32 (5 - 4) + written - taken.
Proof.
  refine (frames_conserved (opened (mkOs 3 true true) "/mic" 2 3)
            "/tmp/mic.ring" 2 3
            [CallWrite (Some [7; 8]) 1; CallRead (Some [0; 0; 0; 0; 0; 0]) 3;
             CallRead (Some [0; 0]) 1] _ _
            {[ "/tmp/mic.ring" := [kMagic; kVersion; 2; 3; 5; 4; 1; 2; 3; 4; 5; 6] ]}
            [kMagic; kVersion; 2; 3; 5; 4; 1; 2; 3; 4; 5; 6] 5 4 _ _ _ _).
  - reflexivity.
  - repeat constructor; unfold is_size_t; simpl; lia.
  - reflexivity.
  - unfold whole_file_mapped. vm_compute. lia.
  - split; try reflexivity; unfold is_u32; simpl; lia.
  - vm_compute. discriminate.
Defined.

(** ** Open: failure, and the files it touches *)

Lemma Open_false_inv os r fs name create chans capacity r' fs' :
  Open os r fs name create chans capacity = Some (false, r', fs') →
  let path := c_str (backing_file name) in
  (header_ r' = None ∧ mapping_ r' = None ∧ mapping_size_ r' = 0
   ∧ shm_fd_ r' < 0 ∧ name_ r' = "" ∧ is_open r' = false)
  ∧ (fs' = fs
     ∨ (create = true ∧ fs !! path = None ∧ fs' = <[path := []]> fs)
     ∨ fs' = <[path := sized_file fs name chans capacity]> fs).
Proof.
  intros Hopen path. unfold Open in Hopen. fold path in Hopen.
  assert (Hclosed : ∀ x : SharedMemoryAudioRing,
            header_ (Close x) = None ∧ mapping_ (Close x) = None
            ∧ mapping_size_ (Close x) = 0 ∧ shm_fd_ (Close x) < 0
            ∧ name_ (Close x) = "" ∧ is_open (Close x) = false).
  { intros x. unfold Close, is_open. cbn.
    destruct (mapping_ x); repeat split; try done;
      destruct (Z.leb_spec 0 (shm_fd_ x)); lia. }
  destruct (empty name || (chans =? 0) || (capacity =? 0)).
  { injection Hopen as <- <-. split; [apply Hclosed | by left]. }
  destruct (sys_open os fs path create) as [fd fs1] eqn:Eopen.
  assert (Hfs1 : (fd < 0 ∧ fs1 = fs)
                 ∨ (0 ≤ fd ∧ fs1 = fs ∧ is_Some (fs !! path))
                 ∨ (0 ≤ fd ∧ create = true ∧ fs !! path = None
                    ∧ fs1 = <[path := []]> fs)).
  { unfold sys_open in Eopen. destruct (Z.ltb_spec (open_fd os) 0).
    - injection Eopen as <- <-. left. split; [lia|done].
    - destruct (fs !! path) eqn:Efile.
      + injection Eopen as <- <-. right. left. eauto.
      + destruct create; injection Eopen as <- <-.
        * right. right. eauto.
        * left. split; [lia|done]. }
  cbn [shm_fd_ mapping_ mapping_size_ header_ name_] in Hopen.
  destruct (Z.ltb_spec fd 0) as [Hneg | Hfd].
  { injection Hopen as <- <-. split.
    - destruct (Hclosed r) as (? & ? & ? & ? & ? & ?). cbn. repeat split; done.
    - destruct Hfs1 as [[_ ->] | [(? & _) | (? & _)]]; [by left | lia..]. }
  destruct (sys_ftruncate os fs1 path (to_off_t (MappingSize chans capacity)))
    as [truncated fs2] eqn:Etrunc.
  assert (Hsized : ∀ x, fs1 !! path = Some x →
            <[path := resize (Z.to_nat (MappingSize chans capacity / sizeof_float)) 0 x]> fs1
            = <[path := sized_file fs name chans capacity]> fs).
  { intros x Hx. unfold sized_file. fold path.
    destruct Hfs1 as [[? _] | [(_ & -> & _) | (_ & _ & Hnone & ->)]]; [lia| |].
    - by rewrite Hx.
    - rewrite lookup_insert_eq in Hx. injection Hx as <-.
      by rewrite Hnone, insert_insert_eq. }
  assert (Hfs2 : fs2 = fs1
                 ∨ fs2 = <[path := sized_file fs name chans capacity]> fs).
  { unfold sys_ftruncate in Etrunc.
    destruct (negb (ftruncate_ok os)); cbn [orb] in Etrunc;
      [injection Etrunc as _ <-; by left|].
    destruct (Z.ltb_spec (to_off_t (MappingSize chans capacity)) 0) as [|Hlen];
      [injection Etrunc as _ <-; by left|].
    destruct (fs1 !! path) as [x|] eqn:Ex; injection Etrunc as _ <-; [|by left].
    right. pose proof (MappingSize_range chans capacity) as Hrange.
    unfold to_off_t, is_size_t in *.
    destruct (Z.ltb_spec (MappingSize chans capacity) (2 ^ 63)); [|lia].
    by apply Hsized. }
  assert (Hfiles : fs2 = fs
                   ∨ (create = true ∧ fs !! path = None ∧ fs2 = <[path := []]> fs)
                   ∨ fs2 = <[path := sized_file fs name chans capacity]> fs).
  { destruct Hfs2 as [-> | ->]; [|by right; right].
    destruct Hfs1 as [[_ ->] | [(_ & -> & _) | (_ & ? & ? & ->)]]; eauto. }
  destruct truncated; cbn [negb] in Hopen.
  2: { injection Hopen as <- <-. split; [apply Hclosed | done]. }
  destruct (sys_mmap os path (MappingSize chans capacity)) as [m|].
  2: { injection Hopen as <- <-. split; [apply Hclosed | done]. }
  unfold InitializeIfNeeded in Hopen. cbn [header_ mapping_size_] in Hopen.
  destruct (fs2 !! m) as [region|]; [|done]. cbn [mbind option_bind] in Hopen.
  destruct (reset_needed region create chans capacity) as [[|]|];
    cbn [mbind option_bind] in Hopen; [|done..].
  destruct (reset region _ chans capacity); cbn [mbind option_bind] in Hopen; done.
Qed.

(** A failed [Open] leaves the instance as the constructor does, whatever it
    held before: nothing is mapped, the accessors return 0 and [Write] and
    [Read] transfer nothing. The backing file is unchanged, or was created
    empty by [open], or was sized by [ftruncate] before [mmap] failed. *)
Theorem Open_failure os r fs name create chans capacity r' fs' :
  Open os r fs name create chans capacity = Some (false, r', fs') →
  (is_open r' = false ∧ mapping_ r' = None ∧ mapping_size_ r' = 0
   ∧ shm_fd_ r' < 0 ∧ name_ r' = "")
  ∧ channels r' fs' = Some 0 ∧ capacity_frames r' fs' = Some 0
  ∧ (∀ buf n, Write r' fs' buf n = Some (0, fs')
              ∧ Read r' fs' buf n = Some (0, buf, fs'))
  ∧ (fs' = fs
     ∨ (create = true ∧ fs !! c_str (backing_file name) = None
        ∧ fs' = <[c_str (backing_file name) := []]> fs)
     ∨ fs' = <[c_str (backing_file name) := sized_file fs name chans capacity]> fs).
Proof.
  intros Hopen.
  destruct (Open_false_inv _ _ _ _ _ _ _ _ _ Hopen)
    as ((Hh & Hm & Hs & Hfd & Hn & Hio) & Hfiles).
  split; [done|]. unfold channels, capacity_frames, Write, Read. rewrite Hh.
  do 2 (split; [done|]). split; [|done]. by intros [b|] n.
Qed.

Lemma Open_failure_witness :
  (is_open unopened = false ∧ mapping_ unopened = None
   ∧ mapping_size_ unopened = 0 ∧ shm_fd_ unopened < 0 ∧ name_ unopened = "")
  ∧ channels unopened {[ "/tmp/mic.ring" := [kMagic; kVersion; 2; 3; 5; 4; 0; 0; 0; 0; 0; 0] ]}
    = Some 0
  ∧ capacity_frames unopened
      {[ "/tmp/mic.ring" := [kMagic; kVersion; 2; 3; 5; 4; 0; 0; 0; 0; 0; 0] ]}
    = Some 0
  ∧ (∀ buf n,
       Write unopened
         {[ "/tmp/mic.ring" := [kMagic; kVersion; 2; 3; 5; 4; 0; 0; 0; 0; 0; 0] ]} buf n
       = Some (0, {[ "/tmp/mic.ring" := [kMagic; kVersion; 2; 3; 5; 4; 0; 0; 0; 0; 0; 0] ]})
       ∧ Read unopened
           {[ "/tmp/mic.ring" := [kMagic; kVersion; 2; 3; 5; 4; 0; 0; 0; 0; 0; 0] ]} buf n
         = Some (0, buf,
                 {[ "/tmp/mic.ring" := [kMagic; kVersion; 2; 3; 5; 4; 0; 0; 0; 0; 0; 0] ]}))
  ∧ (({[ "/tmp/mic.ring" := [kMagic; kVersion; 2; 3; 5; 4; 0; 0; 0; 0; 0; 0] ]}
        : gmap string (list Z))
     = {[ "/tmp/mic.ring" := [kMagic; kVersion; 2; 3; 5; 4] ]}
     ∨ (false = true
        ∧ ({[ "/tmp/mic.ring" := [kMagic; kVersion; 2; 3; 5; 4] ]}
             : gmap string (list Z)) !! c_str (backing_file "/mic") = None
        ∧ ({[ "/tmp/mic.ring" := [kMagic; kVersion; 2; 3; 5; 4; 0; 0; 0; 0; 0; 0] ]}
             : gmap string (list Z))
          = <[c_str (backing_file "/mic") := []]>
              {[ "/tmp/mic.ring" := [kMagic; kVersion; 2; 3; 5; 4] ]})
     ∨ ({[ "/tmp/mic.ring" := [kMagic; kVersion; 2; 3; 5; 4; 0; 0; 0; 0; 0; 0] ]}
          : gmap string (list Z))
       = <[c_str (backing_file "/mic") :=
             sized_file {[ "/tmp/mic.ring" := [kMagic; kVersion; 2; 3; 5; 4] ]}
                        "/mic" 2 3]>
           {[ "/tmp/mic.ring" := [kMagic; kVersion; 2; 3; 5; 4] ]}).
Proof.
  refine (Open_failure (mkOs 3 true false)
            (opened (mkOs 5 true true) "/tap" 1 2)
            {[ "/tmp/mic.ring" := [kMagic; kVersion; 2; 3; 5; 4] ]}
            "/mic" false 2 3 unopened
            {[ "/tmp/mic.ring" := [kMagic; kVersion; 2; 3; 5; 4; 0; 0; 0; 0; 0; 0] ]} _).
  vm_compute. reflexivity.
Defined.

Lemma Open_other_files os r fs name create chans capacity ok r' fs' q :
  Open os r fs name create chans capacity = Some (ok, r', fs') →
  q ≠ c_str (backing_file name) → fs' !! q = fs !! q.
Proof.
  intros Hopen Hq. destruct ok.
  - destruct (Open_true_inv _ _ _ _ _ _ _ _ _ Hopen)
      as (_ & _ & _ & _ & _ & _ & _ & needed & final & _ & _ & ->).
    by rewrite lookup_insert_ne.
  - destruct (Open_false_inv _ _ _ _ _ _ _ _ _ Hopen)
      as (_ & [-> | [(_ & _ & ->) | ->]]); by rewrite ?lookup_insert_ne.
Qed.

(** Whatever its outcome, [Open] reads and writes no file but the backing
    file of the name it is given; when it succeeds, that file has exactly
    the size of the mapping. *)
Theorem Open_touches_one_file os r fs name create chans capacity ok r' fs' :
  Open os r fs name create chans capacity = Some (ok, r', fs') →
  (∀ q, q ≠ c_str (backing_file name) → fs' !! q = fs !! q)
  ∧ (ok = true →
     ∃ region, fs' !! c_str (backing_file name) = Some region
       ∧ length region = Z.to_nat (MappingSize chans capacity / sizeof_float)).
Proof.
  intros Hopen. split; [intros q; by eapply Open_other_files|].
  intros ->.
  destruct (Open_true_inv _ _ _ _ _ _ _ _ _ Hopen)
    as (_ & _ & _ & _ & _ & Hsize & _ & needed & final & _ & Hfinal & ->).
  exists final. rewrite lookup_insert_eq. split; [done|].
  destruct needed.
  - apply reset_inv in Hfinal as [H6 ->];
      [|lia|apply sized_file_length].
    rewrite fresh_region_length by done. apply sized_file_length.
  - injection Hfinal as <-. apply sized_file_length.
Qed.

Lemma Open_touches_one_file_witness :
  (∀ q, q ≠ c_str (backing_file "/mic") →
     ({[ "/tmp/mic.ring" := fresh_region 12 2 3;
         "/tmp/tap.ring" := [kMagic; kVersion; 1; 2; 1; 0; 9; 8] ]}
        : gmap string (list Z)) !! q
     = ({[ "/tmp/tap.ring" := [kMagic; kVersion; 1; 2; 1; 0; 9; 8] ]}
          : gmap string (list Z)) !! q)
  ∧ (true = true →
     ∃ region,
       ({[ "/tmp/mic.ring" := fresh_region 12 2 3;
           "/tmp/tap.ring" := [kMagic; kVersion; 1; 2; 1; 0; 9; 8] ]}
          : gmap string (list Z)) !! c_str (backing_file "/mic") = Some region
       ∧ length region = Z.to_nat (MappingSize 2 3 / sizeof_float)).
Proof.
  refine (Open_touches_one_file (mkOs 3 true true) unopened
            {[ "/tmp/tap.ring" := [kMagic; kVersion; 1; 2; 1; 0; 9; 8] ]}
            "/mic" true 2 3 true (opened (mkOs 3 true true) "/mic" 2 3)
            {[ "/tmp/mic.ring" := fresh_region 12 2 3;
               "/tmp/tap.ring" := [kMagic; kVersion; 1; 2; 1; 0; 9; 8] ]} _).
  vm_compute. reflexivity.
Defined.

(** ** A second process attaches *)

(** Two instances with the same pointer and the same mapping size see the
    same memory. *)
Lemma Write_header r1 r2 fs buf n :
  header_ r1 = header_ r2 → mapping_size_ r1 = mapping_size_ r2 →
  Write r1 fs buf n = Write r2 fs buf n.
Proof.
  unfold Write, in_mapping, past_mapping, mapping_cells. by intros -> ->.
Qed.

Lemma Read_header r1 r2 fs buf n :
  header_ r1 = header_ r2 → mapping_size_ r1 = mapping_size_ r2 →
  Read r1 fs buf n = Read r2 fs buf n.
Proof.
  unfold Read, in_mapping, past_mapping, mapping_cells. by intros -> ->.
Qed.

Lemma Open_attach_inv os r fs name chans capacity r' fs' file :
  fs !! c_str (backing_file name) = Some file →
  length file = Z.to_nat (MappingSize chans capacity / sizeof_float) →
  header_matches file chans capacity →
  Open os r fs name false chans capacity = Some (true, r', fs') →
  r' = opened os name chans capacity ∧ fs' = fs.
Proof.
  intros Hfile Hlen Hmatch Hopen.
  destruct (Open_true_inv _ _ _ _ _ _ _ _ _ Hopen)
    as (_ & Hc0 & Hcap0 & _ & _ & _ & -> & needed & final & Hneeded & Hfinal & ->).
  split; [done|].
  unfold sized_file in *. rewrite Hfile in *. cbn [default] in *.
  destruct (reset_needed_sized _ _ _ _ _ Hc0 Hcap0 Hneeded) as [_ Hfalse].
  rewrite (Hfalse Hmatch) in Hfinal. injection Hfinal as <-.
  rewrite <- Hlen, resize_all. by apply insert_id.
Qed.

(** What the process that created a ring writes, a second process that
    attaches to the same backing file with [create = false] and the same
    geometry reads: attaching changes no file, and its [Read] returns the
    written samples, in order. *)
Theorem attached_reader_gets_frames osA rA fs name chans capacity rA' fs1 src n :
  is_u32 chans → is_u32 capacity →
  24 + 4 * chans * capacity < 2 ^ 64 →
  Open osA rA fs name true chans capacity = Some (true, rA', fs1) →
  0 < n ≤ capacity →
  Z.of_nat (length src) = n * chans →
  ∃ fs2,
    Write rA' fs1 (Some src) n = Some (n, fs2)
    ∧ ∀ osB rB nameB rB' fs3 out,
        c_str (backing_file nameB) = c_str (backing_file name) →
        Open osB rB fs2 nameB false chans capacity = Some (true, rB', fs3) →
        n * chans ≤ Z.of_nat (length out) →
        fs3 = fs2
        ∧ ∃ out' fs4,
            Read rB' fs3 (Some out) n = Some (n, Some out', fs4)
            ∧ take (Z.to_nat (n * chans)) out' = src.
Proof.
  intros Hc Hcap Hfit Hopen Hn Hsrc.
  destruct (Open_true_inv _ _ _ _ _ _ _ _ _ Hopen) as (_ & Hc0 & Hcap0 & _).
  destruct (Open_create_inv _ _ _ _ _ _ _ _ Hopen) as (-> & H6 & ->).
  set (p := c_str (backing_file name)).
  set (cells := Z.to_nat (MappingSize chans capacity / sizeof_float)) in *.
  set (region := fresh_region cells chans capacity).
  assert (Hcells : Z.of_nat cells = DataStart + capacity * chans).
  { unfold cells. rewrite cells_exact by (unfold is_u32 in *; lia).
    rewrite Z2Nat.id; [done|]. change DataStart with 6. unfold is_u32 in *. nia. }
  assert (Hring : ring_region region chans capacity 0 0)
    by (apply fresh_region_ring; [done..|lia]).
  assert (Hfile : <[p := region]> fs !! p = Some region) by apply lookup_insert_eq.
  assert (Hsz : is_size_t n) by (unfold is_size_t, is_u32 in *; lia).
  assert (Hch0 : 0 < chans) by (unfold is_u32 in *; lia).
  assert (Hdistinct : ∀ f g, 0 ≤ f < g → g < n →
            frame_slot (0 + f) capacity ≠ frame_slot (0 + g) capacity).
  { intros f g Hfg Hg. apply (slots_distinct_no_wrap 0 capacity n); try lia.
    unfold is_u32 in *. lia. }
  assert (Hsrc' : n * chans ≤ Z.of_nat (length src)) by lia.
  destruct (Write_mapped_spec region chans capacity 0 0 Hring src n Hsz Hsrc')
    as (region1 & Hw & Hlen1 & _).
  destruct (Write_mapped_keeps _ _ _ _ _ _ _ _ _ Hring Hsz Hsrc' Hw)
    as [_ Hkeep].
  assert (Hused : Z.min n (capacity - used_frames capacity 0 0) = n).
  { unfold used_frames. rewrite Z.sub_diag, wrap32_small by (unfold is_u32; lia).
    lia. }
  rewrite Hused in Hw.
  assert (HmapA : whole_file_mapped (opened osA name chans capacity) region)
    by (by apply opened_maps_fresh).
  assert (HmapB : ∀ osB nameB,
            whole_file_mapped (opened osB nameB chans capacity) region)
    by (intros; by apply opened_maps_fresh).
  exists (<[p := region1]> (<[p := region]> fs)). split.
  { apply (Write_unfold (opened osA name chans capacity) _ p region eq_refl
             Hfile HmapA _ _ _ _ Hw). lia. }
  intros osB rB nameB rB' fs3 out Hsame Hattach Hout.
  assert (Hfile2 : <[p := region1]> (<[p := region]> fs) !! c_str (backing_file nameB)
                   = Some region1) by (rewrite Hsame; apply lookup_insert_eq).
  assert (Hlen2 : length region1 = cells)
    by (rewrite Hlen1; unfold region; by rewrite fresh_region_length).
  assert (Hmatch : header_matches region1 chans capacity).
  { unfold header_matches.
    rewrite !Hkeep
      by (unfold off_magic, off_version, off_channels, off_capacity_frames,
            off_write_index; lia).
    done. }
  destruct (Open_attach_inv _ _ _ _ _ _ _ _ region1 Hfile2 Hlen2 Hmatch Hattach)
    as [-> ->].
  split; [done|].
  destruct (roundtrip_empty (opened osB nameB chans capacity) (<[p := region]> fs)
              p region chans capacity 0
              ltac:(cbn; by rewrite Hsame) Hfile (HmapB osB nameB) Hring Hch0
              n src out Hn Hsrc Hout Hdistinct)
    as (fs1 & out' & fs2 & Hw' & Hr' & Htake & _).
  rewrite (Write_header _ (opened osA name chans capacity)) in Hw'
    by (cbn; by rewrite ?Hsame).
  rewrite (Write_unfold (opened osA name chans capacity) _ p region eq_refl
             Hfile HmapA _ _ _ _ Hw) in Hw' by lia.
  injection Hw' as <-. by exists out', fs2.
Qed.

Lemma attached_reader_gets_frames_witness :
  ∃ fs2,
    Write (opened (mkOs 3 true true) "/tap" 2 3)
          {[ "/tmp/tap.ring" := fresh_region 12 2 3 ]}
          (Some [11; 12; 21; 22]) 2 = Some (2, fs2)
    ∧ ∀ osB rB nameB rB' fs3 out,
        c_str (backing_file nameB) = c_str (backing_file "/tap") →
        Open osB rB fs2 nameB false 2 3 = Some (true, rB', fs3) →
        2 * 2 ≤ Z.of_nat (length out) →
        fs3 = fs2
        ∧ ∃ out' fs4,
            Read rB' fs3 (Some out) 2 = Some (2, Some out', fs4)
            ∧ take (Z.to_nat (2 * 2)) out' = [11; 12; 21; 22].
Proof.
  refine (attached_reader_gets_frames (mkOs 3 true true) unopened ∅ "/tap" 2 3
            (opened (mkOs 3 true true) "/tap" 2 3)
            {[ "/tmp/tap.ring" := fresh_region 12 2 3 ]}
            [11; 12; 21; 22] 2 _ _ _ _ _ _).
  - unfold is_u32. lia.
  - unfold is_u32. lia.
  - lia.
  - vm_compute. reflexivity.
  - lia.
  - simpl. lia.
Defined.


(** * The driver *)

(** ** Open stays inside the mapping *)

Lemma reset_needed_Some region create chans capacity :
  (4 ≤ length region)%nat →
  is_Some (reset_needed region create chans capacity).
Proof.
  intros Hlen. unfold reset_needed, load. destruct create; [done|].
  destruct (lookup_lt_is_Some_2 region off_magic) as [v0 ->];
    [unfold off_magic; lia|]. cbn [mbind option_bind].
  destruct (negb (v0 =? kMagic)); [done|].
  destruct (lookup_lt_is_Some_2 region off_version) as [v1 ->];
    [unfold off_version; lia|]. cbn [mbind option_bind].
  destruct (negb (v1 =? kVersion)); [done|].
  destruct (lookup_lt_is_Some_2 region off_channels) as [v2 ->];
    [unfold off_channels; lia|]. cbn [mbind option_bind].
  destruct (negb (v2 =? chans)); [done|].
  destruct (lookup_lt_is_Some_2 region off_capacity_frames) as [v3 ->];
    [unfold off_capacity_frames; lia|]. cbn [mbind option_bind]. done.
Qed.

Lemma Open_defined os r fs name create chans capacity :
  0 ≤ chans → 0 ≤ capacity →
  24 + 4 * chans * capacity < 2 ^ 64 →
  ∃ ok r' fs', Open os r fs name create chans capacity = Some (ok, r', fs').
Proof.
  intros Hc Hcap Hfit. unfold Open.
  destruct (empty name || (chans =? 0) || (capacity =? 0)); [eauto|].
  destruct (sys_open os fs (c_str (backing_file name)) create) as [fd fs1].
  destruct (fd <? 0); [eauto|].
  cbn [shm_fd_ mapping_ mapping_size_ header_ name_].
  destruct (sys_ftruncate os fs1 (c_str (backing_file name))
              (to_off_t (MappingSize chans capacity)))
    as [[|] fs2] eqn:Etrunc; cbn [negb]; [|eauto].
  destruct (sys_ftruncate_inv _ _ _ _ _ Etrunc) as (Hlen & file & Hfile & ->).
  destruct (sys_mmap os (c_str (backing_file name)) (MappingSize chans capacity))
    as [m|] eqn:Emap; [|eauto].
  destruct (sys_mmap_inv _ _ _ _ Emap) as [-> _].
  unfold InitializeIfNeeded. cbn [header_ mapping_size_].
  rewrite lookup_insert_eq. cbn [mbind option_bind].
  set (region := resize _ 0 file).
  pose proof (MappingSize_exact chans capacity Hc Hcap Hfit) as Hsize.
  assert (Hoff : to_off_t (MappingSize chans capacity) = MappingSize chans capacity).
  { unfold to_off_t in *.
    destruct (Z.ltb_spec (MappingSize chans capacity) (2 ^ 63)); lia. }
  assert (Hregion : length region
                    = Z.to_nat (MappingSize chans capacity / sizeof_float))
    by (unfold region; rewrite length_resize, Hoff; done).
  assert (H6 : (6 ≤ length region)%nat).
  { rewrite Hregion, cells_exact by done. change DataStart with 6. nia. }
  destruct (reset_needed_Some region create chans capacity ltac:(lia))
    as [needed ->]. cbn [mbind option_bind].
  destruct needed; [|eauto].
  rewrite (reset_Some region) by (done || lia). cbn [mbind option_bind]. eauto.
Qed.

(** When the size of the mapping fits [size_t], [Open] never reads or writes
    outside the mapping: the header tests, the [memset] and the stamps of
    [InitializeIfNeeded] all fall inside it. The call returns, and what it
    returns is what [is_open] says afterwards. *)
Theorem Open_never_faults os r fs name create chans capacity :
  0 ≤ chans → 0 ≤ capacity →
  24 + 4 * chans * capacity < 2 ^ 64 →
  ∃ ok r' fs',
    Open os r fs name create chans capacity = Some (ok, r', fs')
    ∧ is_open r' = ok.
Proof.
  intros Hc Hcap Hfit.
  destruct (Open_defined os r fs name create chans capacity Hc Hcap Hfit)
    as (ok & r' & fs' & Hopen).
  exists ok, r', fs'. split; [done|]. destruct ok.
  - by destruct (Open_true_inv _ _ _ _ _ _ _ _ _ Hopen)
      as (_ & _ & _ & _ & _ & _ & -> & _).
  - by destruct (Open_false_inv _ _ _ _ _ _ _ _ _ Hopen)
      as ((_ & _ & _ & _ & _ & ?) & _).
Qed.

Lemma Open_never_faults_witness :
  ∃ ok r' fs',
    Open (mkOs 3 true true) unopened
         {[ "/tmp/mic.ring" := [kMagic; kVersion; 2; 3; 5; 4] ]}
         "/mic" false 2 3 = Some (ok, r', fs')
    ∧ is_open r' = ok.
Proof.
  refine (Open_never_faults (mkOs 3 true true) unopened
            {[ "/tmp/mic.ring" := [kMagic; kVersion; 2; 3; 5; 4] ]}
            "/mic" false 2 3 _ _ _); lia.
Defined.

(** ** The driver's I/O *)

Lemma ring_paths_differ :
  c_str (backing_file kMicFeedRingName) ≠ c_str (backing_file kSpeakerTapRingName).
Proof. vm_compute. discriminate. Qed.

Lemma memset_at_Some buf start cells :
  0 ≤ start → 0 ≤ cells → start + cells ≤ Z.of_nat (length buf) →
  memset_at buf start cells
  = Some (take (Z.to_nat start) buf ++ replicate (Z.to_nat cells) 0
          ++ drop (Z.to_nat (start + cells)) buf).
Proof.
  intros. unfold memset_at.
  by destruct (Z.leb_spec (start + cells) (Z.of_nat (length buf))); [|lia].
Qed.

Section io.
Variables kReadInput kWriteMix : Z.
Variables (d : Driver) (fs : gmap string (list Z)).

(** [ReadInput], once the ring has answered. *)
Lemma DoIO_ReadInput n frames got out fs' :
  Read (g_mic_feed_ring d) fs (Some frames) n = Some (got, Some out, fs') →
  0 ≤ got ≤ n → is_u32 n →
  n * kChannelCount ≤ Z.of_nat (length out) →
  DriverDoIOOperation kReadInput kWriteMix d fs kObjectIDDevice kReadInput n
                      (Some frames)
  = Some (kAudioHardwareNoError,
          Some (take (Z.to_nat (got * kChannelCount)) out
                ++ replicate (Z.to_nat ((n - got) * kChannelCount)) 0
                ++ drop (Z.to_nat (n * kChannelCount)) out),
          fs').
Proof.
  intros Hread Hgot Hn Hlen. unfold DriverDoIOOperation.
  rewrite Z.eqb_refl. cbn [negb andb].
  rewrite Z.eqb_refl. cbn [negb andb].
  rewrite Hread. cbn [mbind option_bind].
  unfold kChannelCount, is_u32 in *.
  destruct (Z.ltb_spec got n) as [Hlt | Hge].
  - rewrite (wrap64_small (got * 2)) by (unfold is_size_t; lia).
    rewrite (wrap64_small ((n - got) * 2)) by (unfold is_size_t; lia).
    rewrite (wrap64_small (sizeof_float * _))
      by (unfold is_size_t, sizeof_float; lia).
    replace (sizeof_float * ((n - got) * 2) / sizeof_float) with ((n - got) * 2)
      by (rewrite (Z.mul_comm sizeof_float), Z.div_mul; unfold sizeof_float; lia).
    rewrite memset_at_Some by lia. cbn [mbind option_bind].
    by replace (got * 2 + (n - got) * 2) with (n * 2) by lia.
  - replace got with n by lia.
    replace (Z.to_nat ((n - n) * 2)) with 0%nat by lia.
    change (replicate 0 0 ++ ?l) with l. by rewrite take_drop.
Qed.

Lemma zero_filled (out : list Z) got n (front : list Z) :
  0 ≤ got ≤ n → n * kChannelCount ≤ Z.of_nat (length out) →
  take (Z.to_nat (got * kChannelCount)) out = front →
  take (Z.to_nat (n * kChannelCount))
       (take (Z.to_nat (got * kChannelCount)) out
        ++ replicate (Z.to_nat ((n - got) * kChannelCount)) 0
        ++ drop (Z.to_nat (n * kChannelCount)) out)
  = front ++ replicate (Z.to_nat ((n - got) * kChannelCount)) 0
  ∧ drop (Z.to_nat (n * kChannelCount))
         (take (Z.to_nat (got * kChannelCount)) out
          ++ replicate (Z.to_nat ((n - got) * kChannelCount)) 0
          ++ drop (Z.to_nat (n * kChannelCount)) out)
    = drop (Z.to_nat (n * kChannelCount)) out.
Proof.
  intros Hgot Hlen <-. unfold kChannelCount in *. rewrite !app_assoc.
  assert (Hfront : length (take (Z.to_nat (got * 2)) out
                           ++ replicate (Z.to_nat ((n - got) * 2)) 0)
                   = Z.to_nat (n * 2)).
  { rewrite length_app, length_take, length_replicate. lia. }
  split.
  - by rewrite take_app_length'.
  - by rewrite drop_app_length'.
Qed.

Lemma ReadInput_frames p region capacity write read frames n :
  header_ (g_mic_feed_ring d) = Some p → fs !! p = Some region →
  whole_file_mapped (g_mic_feed_ring d) region →
  ring_region region kChannelCount capacity write read →
  wrap32 (write - read) ≤ capacity →
  is_u32 n →
  n * kChannelCount ≤ Z.of_nat (length frames) →
  let got := Z.min n (wrap32 (write - read)) in
  ∃ frames',
    DriverDoIOOperation kReadInput kWriteMix d fs kObjectIDDevice kReadInput n
                        (Some frames)
    = Some (kAudioHardwareNoError, Some frames',
            <[p := <[off_read_index := wrap32 (read + got)]> region]> fs)
    ∧ take (Z.to_nat (n * kChannelCount)) frames'
      = frames_from region kChannelCount capacity read (Z.to_nat got)
          ++ replicate (Z.to_nat ((n - got) * kChannelCount)) 0
    ∧ drop (Z.to_nat (n * kChannelCount)) frames'
      = drop (Z.to_nat (n * kChannelCount)) frames.
Proof.
  intros Hheader Hfile Hmap Hring Hinv Hn Hlen got.
  pose proof (wrap32_range (write - read)) as Hused.
  assert (Hsz : is_size_t n) by (unfold is_size_t, is_u32 in *; lia).
  destruct (Read_fifo _ fs p region kChannelCount capacity write read
              Hheader Hfile Hmap Hring ltac:(done) Hinv frames n Hsz Hlen)
    as (out & Hread & Hlen' & _ & Htake & Hdrop & _).
  fold got in Hread, Htake, Hdrop.
  assert (Hgot : 0 ≤ got ≤ n) by (unfold got, is_u32 in *; lia).
  eexists. split.
  { apply (DoIO_ReadInput n frames got out _ Hread Hgot Hn). by rewrite Hlen'. }
  destruct (zero_filled out got n _ Hgot ltac:(by rewrite Hlen') Htake)
    as [-> ->].
  split; [done|].
  replace (Z.to_nat (n * kChannelCount))
    with (Z.to_nat (got * kChannelCount) + Z.to_nat ((n - got) * kChannelCount))%nat
    by (unfold kChannelCount; lia).
  by rewrite <- !drop_drop, Hdrop.
Qed.

Lemma ReadInput_unopened frames n :
  header_ (g_mic_feed_ring d) = None →
  is_u32 n →
  n * kChannelCount ≤ Z.of_nat (length frames) →
  DriverDoIOOperation kReadInput kWriteMix d fs kObjectIDDevice kReadInput n
                      (Some frames)
  = Some (kAudioHardwareNoError,
          Some (replicate (Z.to_nat (n * kChannelCount)) 0
                ++ drop (Z.to_nat (n * kChannelCount)) frames),
          fs).
Proof.
  intros Hnone Hn Hlen.
  assert (Hread : Read (g_mic_feed_ring d) fs (Some frames) n
                  = Some (0, Some frames, fs))
    by (unfold Read; by rewrite Hnone).
  rewrite (DoIO_ReadInput n frames 0 frames fs Hread)
    by (done || unfold is_u32 in *; lia).
  by rewrite Z.sub_0_r.
Qed.

(** [ReadInput] in the two states the driver's own [Open] leaves. With the
    mic feed ring open, on a mapping that reaches the end of the file and a
    header of the driver's two channels whose frame buffer the file holds,
    it returns no error and fills the host's buffer with the oldest buffered
    frames, in order, and with silence where the ring runs short; it
    consumes the frames it delivers and leaves the rest of the buffer alone.
    With the ring not open (its [Open] failed) it returns no error, delivers
    silence and changes no file. *)
Theorem ReadInput_delivers frames n :
  is_u32 n →
  n * kChannelCount ≤ Z.of_nat (length frames) →
  (∀ p region capacity write read,
     header_ (g_mic_feed_ring d) = Some p → fs !! p = Some region →
     whole_file_mapped (g_mic_feed_ring d) region →
     ring_region region kChannelCount capacity write read →
     wrap32 (write - read) ≤ capacity →
     let got := Z.min n (wrap32 (write - read)) in
     ∃ frames',
       DriverDoIOOperation kReadInput kWriteMix d fs kObjectIDDevice kReadInput n
                           (Some frames)
       = Some (kAudioHardwareNoError, Some frames',
               <[p := <[off_read_index := wrap32 (read + got)]> region]> fs)
       ∧ take (Z.to_nat (n * kChannelCount)) frames'
         = frames_from region kChannelCount capacity read (Z.to_nat got)
             ++ replicate (Z.to_nat ((n - got) * kChannelCount)) 0
       ∧ drop (Z.to_nat (n * kChannelCount)) frames'
         = drop (Z.to_nat (n * kChannelCount)) frames)
  ∧ (header_ (g_mic_feed_ring d) = None →
     DriverDoIOOperation kReadInput kWriteMix d fs kObjectIDDevice kReadInput n
                         (Some frames)
     = Some (kAudioHardwareNoError,
             Some (replicate (Z.to_nat (n * kChannelCount)) 0
                   ++ drop (Z.to_nat (n * kChannelCount)) frames),
             fs)).
Proof.
  intros Hn Hlen. split.
  - intros p region capacity write read Hheader Hfile Hmap Hring Hinv.
    by apply ReadInput_frames.
  - intros Hnone. by apply ReadInput_unopened.
Qed.

Lemma DoIO_WriteMix n frames k fs' :
  kWriteMix ≠ kReadInput →
  Write (g_speaker_tap_ring d) fs (Some frames) n = Some (k, fs') →
  DriverDoIOOperation kReadInput kWriteMix d fs kObjectIDDevice kWriteMix n
                      (Some frames)
  = Some (kAudioHardwareNoError, Some frames, fs').
Proof.
  intros Hne Hwrite.
  unfold DriverDoIOOperation. rewrite Z.eqb_refl. cbn [negb andb].
  destruct (Z.eqb_spec kWriteMix kReadInput) as [|_]; [done|].
  rewrite Z.eqb_refl. cbn [negb andb].
  by rewrite Hwrite.
Qed.

(** [WriteMix], with the speaker tap ring open on a mapping that reaches the
    end of the file, leaves the host's buffer as it is and appends its
    frames to the ring, as many as the ring has room for; the frames that do
    not fit are dropped and the status is no error all the same. The frames
    buffered are counted from the read index: the statement is for a
    capacity that divides 2^32, or a read index at least the capacity below
    2^32. *)
Theorem WriteMix_taps p region capacity write read frames n :
  kWriteMix ≠ kReadInput →
  header_ (g_speaker_tap_ring d) = Some p → fs !! p = Some region →
  whole_file_mapped (g_speaker_tap_ring d) region →
  ring_region region kChannelCount capacity write read →
  wrap32 (write - read) ≤ capacity →
  (capacity | 2 ^ 32) ∨ read + capacity ≤ 2 ^ 32 →
  is_u32 n →
  n * kChannelCount ≤ Z.of_nat (length frames) →
  let used := wrap32 (write - read) in
  let accepted := Z.min n (capacity - used) in
  ∃ region',
    DriverDoIOOperation kReadInput kWriteMix d fs kObjectIDDevice kWriteMix n
                        (Some frames)
    = Some (kAudioHardwareNoError, Some frames, <[p := region']> fs)
    ∧ ring_region region' kChannelCount capacity (wrap32 (write + accepted)) read
    ∧ frames_from region' kChannelCount capacity read (Z.to_nat (used + accepted))
      = frames_from region kChannelCount capacity read (Z.to_nat used)
          ++ take (Z.to_nat (accepted * kChannelCount)) frames.
Proof.
  intros Hne Hheader Hfile Hmap Hring Hinv Hslots Hn Hlen used accepted.
  assert (Hsz : is_size_t n) by (unfold is_size_t, is_u32 in *; lia).
  destruct (Write_fifo _ fs p region kChannelCount capacity write read
              Hheader Hfile Hmap Hring ltac:(done) Hinv frames n Hslots Hsz Hlen)
    as (region' & Hwrite & Hring' & Hframes).
  exists region'. split; [|done]. by eapply DoIO_WriteMix.
Qed.

(** [DriverDoIOOperation] on the device refuses exactly the operations
    [DriverWillDoIOOperation] declines, and carries out the ones it
    announces; whenever its status is an error, the buffer and the files are
    as before. *)
Theorem DoIO_agrees_with_WillDo dev op n buffer st buffer' fs' :
  DriverDoIOOperation kReadInput kWriteMix d fs dev op n buffer
  = Some (st, buffer', fs') →
  (st ≠ kAudioHardwareNoError → buffer' = buffer ∧ fs' = fs)
  ∧ (dev = kObjectIDDevice →
     (st = kAudioHardwareUnsupportedOperationError
      ↔ DriverWillDoIOOperation kReadInput kWriteMix dev op true true
        = (kAudioHardwareNoError, Some (false, false)))
     ∧ (is_Some buffer →
        (st = kAudioHardwareNoError
         ↔ DriverWillDoIOOperation kReadInput kWriteMix dev op true true
           = (kAudioHardwareNoError, Some (true, true)))))
  ∧ (dev ≠ kObjectIDDevice →
     st = kAudioHardwareBadObjectError
     ∧ DriverWillDoIOOperation kReadInput kWriteMix dev op true true
       = (kAudioHardwareBadObjectError, None)).
Proof.
  unfold DriverDoIOOperation, DriverWillDoIOOperation.
  destruct (Z.eqb_spec dev kObjectIDDevice) as [Hdev | Hdev]; cbn [negb orb andb].
  2: { intros [= <- <- <-]. split; [done|]. split; [done|]. done. }
  destruct (Z.eqb_spec op kReadInput) as [Hr | Hr]; cbn [negb orb andb].
  - destruct buffer as [frames|].
    2: { intros [= <- <- <-]. split; [done|]. split; [|done].
         intros _. split; [done|]. by intros [? ?]. }
    destruct (Read _ _ _ _) as [[[got [out|]] fs1]|]; cbn [mbind option_bind];
      try done.
    assert (∀ x : option (list Z),
              x ≫= (λ frames0, Some (kAudioHardwareNoError, Some frames0, fs1))
              = Some (st, buffer', fs') → st = kAudioHardwareNoError) as Hst
      by (intros [x|]; cbn [mbind option_bind]; congruence).
    intros Hdo.
    assert (st = kAudioHardwareNoError) as ->.
    { destruct (got <? n); [by eapply Hst | congruence]. }
    split; [done|]. split; [|done]. intros _. split; [done|]. done.
  - destruct (Z.eqb_spec op kWriteMix) as [Hw | Hw]; cbn [negb orb andb].
    + destruct buffer as [frames|].
      2: { intros [= <- <- <-]. split; [done|]. split; [|done].
           intros _. split; [done|]. by intros [? ?]. }
      destruct (Write _ _ _ _) as [[k fs1]|]; cbn [mbind option_bind]; [|done].
      intros [= <- <- <-]. split; [done|]. split; [|done].
      intros _. split; [done|]. done.
    + intros [= <- <- <-]. split; [done|]. split; [|done].
      intros _. split; [done|]. intros _. split; done.
Qed.
End io.

Lemma ReadInput_delivers_witness :
  ∃ frames',
    DriverDoIOOperation 1 2
      (mkDriver None 1 1 2 100 0 (opened (mkOs 3 true true) "/mic" 2 3) unopened)
      {[ "/tmp/mic.ring" := [kMagic; kVersion; 2; 3; 6; 4; 1; 2; 3; 4; 5; 6] ]}
      kObjectIDDevice 1 3 (Some [9; 9; 9; 9; 9; 9; 9; 9])
    = Some (kAudioHardwareNoError, Some frames',
            <[ "/tmp/mic.ring" :=
                 <[off_read_index := wrap32 (4 + Z.min 3 (wrap32 (6 - 4)))]>
                   [kMagic; kVersion; 2; 3; 6; 4; 1; 2; 3; 4; 5; 6] ]>
              {[ "/tmp/mic.ring" := [kMagic; kVersion; 2; 3; 6; 4; 1; 2; 3; 4; 5; 6] ]})
    ∧ take (Z.to_nat (3 * kChannelCount)) frames'
      = [3; 4; 5; 6] ++ [0; 0]
    ∧ drop (Z.to_nat (3 * kChannelCount)) frames' = [9; 9].
Proof.
  refine (proj1 (ReadInput_delivers 1 2
            (mkDriver None 1 1 2 100 0 (opened (mkOs 3 true true) "/mic" 2 3) unopened)
            {[ "/tmp/mic.ring" := [kMagic; kVersion; 2; 3; 6; 4; 1; 2; 3; 4; 5; 6] ]}
            [9; 9; 9; 9; 9; 9; 9; 9] 3 _ _)
            "/tmp/mic.ring" [kMagic; kVersion; 2; 3; 6; 4; 1; 2; 3; 4; 5; 6]
            3 6 4 _ _ _ _ _).
  - unfold is_u32. lia.
  - unfold kChannelCount. simpl. lia.
  - reflexivity.
  - reflexivity.
  - unfold whole_file_mapped. vm_compute. lia.
  - split; try reflexivity; unfold is_u32, kChannelCount; simpl; lia.
  - vm_compute. discriminate.
Defined.

(** [ReadInput] takes the channel count from the header: on a file stamped
    with three channels [Read] copies three samples for each frame, into a
    buffer the host sized for the driver's two. *)
Example ReadInput_three_channel_header :
  DriverDoIOOperation 1 2
    (mkDriver None 1 1 2 100 0 (opened (mkOs 3 true true) "/mic" 3 2) unopened)
    {[ "/tmp/mic.ring" := [kMagic; kVersion; 3; 2; 1; 0; 1; 2; 3; 4; 5; 6] ]}
    kObjectIDDevice 1 1 (Some [9; 9])
  = None.
Proof. vm_compute. reflexivity. Qed.

Lemma WriteMix_taps_witness :
  ∃ region',
    DriverDoIOOperation 1 2
      (mkDriver None 1 1 2 100 0 unopened (opened (mkOs 3 true true) "/tap" 2 3))
      {[ "/tmp/tap.ring" := [kMagic; kVersion; 2; 3; 6; 4; 1; 2; 3; 4; 5; 6] ]}
      kObjectIDDevice 2 2 (Some [7; 8; 9; 10])
    = Some (kAudioHardwareNoError, Some [7; 8; 9; 10],
            <[ "/tmp/tap.ring" := region' ]>
              {[ "/tmp/tap.ring" := [kMagic; kVersion; 2; 3; 6; 4; 1; 2; 3; 4; 5; 6] ]})
    ∧ ring_region region' kChannelCount 3 7 4
    ∧ frames_from region' kChannelCount 3 4 3 = [3; 4; 5; 6] ++ [7; 8].
Proof.
  refine (WriteMix_taps 1 2
            (mkDriver None 1 1 2 100 0 unopened (opened (mkOs 3 true true) "/tap" 2 3))
            {[ "/tmp/tap.ring" := [kMagic; kVersion; 2; 3; 6; 4; 1; 2; 3; 4; 5; 6] ]}
            "/tmp/tap.ring" [kMagic; kVersion; 2; 3; 6; 4; 1; 2; 3; 4; 5; 6]
            3 6 4 [7; 8; 9; 10] 2 _ _ _ _ _ _ _ _ _).
  - lia.
  - reflexivity.
  - reflexivity.
  - unfold whole_file_mapped. vm_compute. lia.
  - split; try reflexivity; unfold is_u32, kChannelCount; simpl; lia.
  - vm_compute. discriminate.
  - right. lia.
  - unfold is_u32. lia.
  - unfold kChannelCount. simpl. lia.
Defined.

Lemma DoIO_agrees_with_WillDo_witness :
  (kAudioHardwareUnsupportedOperationError ≠ kAudioHardwareNoError →
   Some [7; 8] = Some [7; 8] ∧ (∅ : gmap string (list Z)) = ∅)
  ∧ (kObjectIDDevice = kObjectIDDevice →
     (kAudioHardwareUnsupportedOperationError
      = kAudioHardwareUnsupportedOperationError
      ↔ DriverWillDoIOOperation 1 2 kObjectIDDevice 5 true true
        = (kAudioHardwareNoError, Some (false, false)))
     ∧ (is_Some (Some [7; 8]) →
        (kAudioHardwareUnsupportedOperationError = kAudioHardwareNoError
         ↔ DriverWillDoIOOperation 1 2 kObjectIDDevice 5 true true
           = (kAudioHardwareNoError, Some (true, true)))))
  ∧ (kObjectIDDevice ≠ kObjectIDDevice →
     kAudioHardwareUnsupportedOperationError = kAudioHardwareBadObjectError
     ∧ DriverWillDoIOOperation 1 2 kObjectIDDevice 5 true true
       = (kAudioHardwareBadObjectError, None)).
Proof.
  refine (DoIO_agrees_with_WillDo 1 2 loaded ∅ kObjectIDDevice 5 1 (Some [7; 8])
            kAudioHardwareUnsupportedOperationError (Some [7; 8]) ∅ _).
  reflexivity.
Defined.

(** ** DriverInitialize *)

Lemma Open_create_outcome os r fs name chans capacity ok r' fs' :
  Open os r fs name true chans capacity = Some (ok, r', fs') →
  (ok = true ∧ is_open r' = true
   ∧ r' = opened os name chans capacity
   ∧ fs' = <[c_str (backing_file name) :=
               fresh_region (Z.to_nat (MappingSize chans capacity / sizeof_float))
                            chans capacity]> fs)
  ∨ (ok = false ∧ is_open r' = false).
Proof.
  intros Hopen. destruct ok.
  - destruct (Open_create_inv _ _ _ _ _ _ _ _ Hopen) as (-> & _ & ->). by left.
  - destruct (Open_false_inv _ _ _ _ _ _ _ _ _ Hopen) as ((_ & _ & _ & _ & _ & ?) & _).
    by right.
Qed.

Lemma DriverInitialize_inv os_mic os_tap d fs in_host st d' fs' :
  DriverInitialize os_mic os_tap d fs in_host = Some (st, d', fs') →
  ∃ ok1 ok2 fs1,
    Open os_mic (g_mic_feed_ring d) fs kMicFeedRingName true kChannelCount 48000
    = Some (ok1, g_mic_feed_ring d', fs1)
    ∧ Open os_tap (g_speaker_tap_ring d) fs1 kSpeakerTapRingName true
           kChannelCount 48000
      = Some (ok2, g_speaker_tap_ring d', fs')
    ∧ st = kAudioHardwareNoError
    ∧ g_host d' = in_host
    ∧ g_ref_count d' = g_ref_count d
    ∧ g_io_client_count d' = g_io_client_count d
    ∧ g_clock_seed d' = g_clock_seed d
    ∧ g_anchor_host_time d' = g_anchor_host_time d
    ∧ g_anchor_sample_time d' = g_anchor_sample_time d.
Proof.
  unfold DriverInitialize. intros Hinit.
  destruct (Open os_mic _ fs _ _ _ _) as [[[ok1 mic] fs1]|] eqn:Hmic; [|done].
  cbn [mbind option_bind] in Hinit.
  destruct (Open os_tap _ fs1 _ _ _ _) as [[[ok2 tap] fs2]|] eqn:Htap; [|done].
  cbn [mbind option_bind] in Hinit. injection Hinit as <- <- <-.
  exists ok1, ok2, fs1. cbn [g_mic_feed_ring g_speaker_tap_ring g_host g_ref_count
    g_io_client_count g_clock_seed g_anchor_host_time g_anchor_sample_time].
  by rewrite Htap.
Qed.

Lemma ring_cells :
  MappingSize kChannelCount 48000 / sizeof_float
  = DataStart + 48000 * kChannelCount.
Proof. apply cells_exact; unfold kChannelCount; lia. Qed.

(** A ring of the driver that is open after [DriverInitialize] is the one
    [Open] created: empty, two channels, 48000 frames. *)
Lemma DriverInitialize_mic os_mic os_tap d fs in_host st d' fs' :
  DriverInitialize os_mic os_tap d fs in_host = Some (st, d', fs') →
  is_open (g_mic_feed_ring d') = true →
  g_mic_feed_ring d' = opened os_mic kMicFeedRingName kChannelCount 48000
  ∧ fs' !! c_str (backing_file kMicFeedRingName)
    = Some (fresh_region (Z.to_nat (DataStart + 48000 * kChannelCount))
                         kChannelCount 48000).
Proof.
  intros Hinit Hopen.
  destruct (DriverInitialize_inv _ _ _ _ _ _ _ _ Hinit)
    as (ok1 & ok2 & fs1 & Hmic & Htap & _).
  destruct (Open_create_outcome _ _ _ _ _ _ _ _ _ Hmic)
    as [(_ & _ & Hr & ->) | [_ Hclosed]]; [|congruence].
  split; [done|].
  rewrite (Open_other_files _ _ _ _ _ _ _ _ _ _ _ Htap)
    by apply ring_paths_differ.
  by rewrite lookup_insert_eq, ring_cells.
Qed.

Lemma DriverInitialize_tap os_mic os_tap d fs in_host st d' fs' :
  DriverInitialize os_mic os_tap d fs in_host = Some (st, d', fs') →
  is_open (g_speaker_tap_ring d') = true →
  g_speaker_tap_ring d' = opened os_tap kSpeakerTapRingName kChannelCount 48000
  ∧ fs' !! c_str (backing_file kSpeakerTapRingName)
    = Some (fresh_region (Z.to_nat (DataStart + 48000 * kChannelCount))
                         kChannelCount 48000).
Proof.
  intros Hinit Hopen.
  destruct (DriverInitialize_inv _ _ _ _ _ _ _ _ Hinit)
    as (ok1 & ok2 & fs1 & Hmic & Htap & _).
  destruct (Open_create_outcome _ _ _ _ _ _ _ _ _ Htap)
    as [(_ & _ & Hr & ->) | [_ Hclosed]]; [|congruence].
  split; [done|].
  by rewrite lookup_insert_eq, ring_cells.
Qed.

(** [DriverInitialize] always returns no error, whatever the operating
    system answers: each ring is afterwards either open on a freshly stamped,
    empty ring of two channels and 48000 frames, or not open at all. It
    touches no file but the two backing files and none of the counters. *)
Theorem DriverInitialize_returns os_mic os_tap d fs in_host :
  ∃ d' fs',
    DriverInitialize os_mic os_tap d fs in_host
    = Some (kAudioHardwareNoError, d', fs')
    ∧ (∀ q, q ≠ c_str (backing_file kMicFeedRingName) →
            q ≠ c_str (backing_file kSpeakerTapRingName) →
            fs' !! q = fs !! q)
    ∧ (is_open (g_mic_feed_ring d') = false
       ∨ g_mic_feed_ring d' = opened os_mic kMicFeedRingName kChannelCount 48000
         ∧ fs' !! c_str (backing_file kMicFeedRingName)
           = Some (fresh_region (Z.to_nat (DataStart + 48000 * kChannelCount))
                                kChannelCount 48000))
    ∧ (is_open (g_speaker_tap_ring d') = false
       ∨ g_speaker_tap_ring d'
         = opened os_tap kSpeakerTapRingName kChannelCount 48000
         ∧ fs' !! c_str (backing_file kSpeakerTapRingName)
           = Some (fresh_region (Z.to_nat (DataStart + 48000 * kChannelCount))
                                kChannelCount 48000))
    ∧ g_host d' = in_host
    ∧ g_ref_count d' = g_ref_count d
    ∧ g_io_client_count d' = g_io_client_count d.
Proof.
  destruct (Open_defined os_mic (g_mic_feed_ring d) fs kMicFeedRingName true
              kChannelCount 48000)
    as (ok1 & mic & fs1 & Hmic); [unfold kChannelCount; lia..|].
  destruct (Open_defined os_tap (g_speaker_tap_ring d) fs1
              kSpeakerTapRingName true kChannelCount 48000)
    as (ok2 & tap & fs2 & Htap); [unfold kChannelCount; lia..|].
  assert (Hinit : DriverInitialize os_mic os_tap d fs in_host
                  = Some (kAudioHardwareNoError,
                          {| g_host := in_host; g_ref_count := g_ref_count d;
                             g_io_client_count := g_io_client_count d;
                             g_clock_seed := g_clock_seed d;
                             g_anchor_host_time := g_anchor_host_time d;
                             g_anchor_sample_time := g_anchor_sample_time d;
                             g_mic_feed_ring := mic; g_speaker_tap_ring := tap |},
                          fs2)).
  { unfold DriverInitialize. rewrite Hmic. cbn [mbind option_bind].
    by rewrite Htap. }
  eexists _, _. split; [exact Hinit|]. split; [|split; [|split]].
  - intros q Hq1 Hq2.
    rewrite (Open_other_files _ _ _ _ _ _ _ _ _ _ q Htap Hq2).
    exact (Open_other_files _ _ _ _ _ _ _ _ _ _ q Hmic Hq1).
  - destruct (is_open mic) eqn:Eopen; [right|by left].
    by apply (DriverInitialize_mic _ _ _ _ _ _ _ _ Hinit).
  - destruct (is_open tap) eqn:Eopen; [right|by left].
    by apply (DriverInitialize_tap _ _ _ _ _ _ _ _ Hinit).
  - done.
Qed.

(** ** Attaching to an existing ring, and a willing operating system *)

Lemma Open_attach_succeeds os r fs name chans capacity file :
  0 ≤ open_fd os → ftruncate_ok os = true → mmap_ok os = true →
  name ≠ "" → 0 < chans → 0 < capacity →
  24 + 4 * chans * capacity < 2 ^ 63 →
  fs !! c_str (backing_file name) = Some file →
  Z.of_nat (length file) = DataStart + capacity * chans →
  header_matches file chans capacity →
  Open os r fs name false chans capacity
  = Some (true, opened os name chans capacity, fs).
Proof.
  intros Hfd Htrunc Hmap Hname Hc Hcap Hfit Hfile Hlen (M0 & M1 & M2 & M3).
  assert (Hsize : MappingSize chans capacity = 24 + 4 * chans * capacity)
    by (apply MappingSize_exact; lia).
  assert (Hcells : MappingSize chans capacity / sizeof_float
                   = DataStart + capacity * chans)
    by (apply cells_exact; lia).
  unfold Open.
  destruct name as [|a rest]; [done|]. cbn [empty orb].
  destruct (Z.eqb_spec chans 0); [lia|].
  destruct (Z.eqb_spec capacity 0); [lia|]. cbn [orb].
  set (p := c_str (backing_file (String a rest))) in *.
  unfold sys_open. destruct (Z.ltb_spec (open_fd os) 0); [lia|].
  rewrite Hfile.
  destruct (Z.ltb_spec (open_fd os) 0); [lia|]. cbn [mapping_size_].
  unfold sys_ftruncate, to_off_t. rewrite Htrunc, Hsize.
  destruct (Z.ltb_spec (24 + 4 * chans * capacity) (2 ^ 63)); [|lia].
  destruct (Z.ltb_spec (24 + 4 * chans * capacity) 0); [lia|].
  cbn [negb orb]. rewrite Hfile. cbn [negb].
  unfold sys_mmap. rewrite Hmap.
  destruct (Z.eqb_spec (24 + 4 * chans * capacity) 0); [lia|]. cbn [negb orb].
  rewrite <- Hsize, Hcells.
  replace (Z.to_nat (DataStart + capacity * chans)) with (length file) by lia.
  rewrite resize_all, insert_id by done.
  unfold InitializeIfNeeded. cbn [header_ mapping_size_]. fold p.
  rewrite Hfile. cbn [mbind option_bind].
  unfold reset_needed, load. rewrite M0, M1, M2, M3. cbn [mbind option_bind].
  rewrite !Z.eqb_refl. cbn [negb mbind option_bind].
  unfold opened. by fold p.
Qed.

Lemma DriverInitialize_willing os_mic os_tap d fs in_host :
  0 ≤ open_fd os_mic → ftruncate_ok os_mic = true → mmap_ok os_mic = true →
  0 ≤ open_fd os_tap → ftruncate_ok os_tap = true → mmap_ok os_tap = true →
  DriverInitialize os_mic os_tap d fs in_host
  = Some (kAudioHardwareNoError,
          {| g_host := in_host; g_ref_count := g_ref_count d;
             g_io_client_count := g_io_client_count d;
             g_clock_seed := g_clock_seed d;
             g_anchor_host_time := g_anchor_host_time d;
             g_anchor_sample_time := g_anchor_sample_time d;
             g_mic_feed_ring :=
               opened os_mic kMicFeedRingName kChannelCount 48000;
             g_speaker_tap_ring :=
               opened os_tap kSpeakerTapRingName kChannelCount 48000 |},
          <[c_str (backing_file kSpeakerTapRingName) :=
              fresh_region (Z.to_nat (DataStart + 48000 * kChannelCount))
                           kChannelCount 48000]>
            (<[c_str (backing_file kMicFeedRingName) :=
                 fresh_region (Z.to_nat (DataStart + 48000 * kChannelCount))
                              kChannelCount 48000]> fs)).
Proof.
  intros. unfold DriverInitialize.
  rewrite Open_create_succeeds by (done || unfold kChannelCount; lia).
  cbn [mbind option_bind].
  rewrite Open_create_succeeds by (done || unfold kChannelCount; lia).
  reflexivity.
Qed.

(** ** From one process to the other, through the driver *)

Lemma fresh_region_matches cells chans capacity :
  header_matches (fresh_region cells chans capacity) chans capacity.
Proof. by repeat split. Qed.

Section bridge.
Variables kReadInput kWriteMix : Z.
Variables (os_mic os_tap : OsAnswers) (d : Driver) (fs : gmap string (list Z)).
Variables (in_host : option Z).
Variables (st : OSStatus) (d1 : Driver) (fs1 : gmap string (list Z)).
Hypothesis Hinit :
  DriverInitialize os_mic os_tap d fs in_host = Some (st, d1, fs1).

Local Abbreviation cells := (Z.to_nat (DataStart + 48000 * kChannelCount)).
Local Abbreviation fresh := (fresh_region cells kChannelCount 48000).

Lemma fresh_ring : ring_region fresh kChannelCount 48000 0 0.
Proof.
  apply fresh_region_ring; unfold is_u32, kChannelCount; [lia..|].
  change DataStart with 6. lia.
Qed.

Lemma attach_to_fresh os r name r' fs2 :
  fs1 !! c_str (backing_file name) = Some fresh →
  Open os r fs1 name false kChannelCount 48000 = Some (true, r', fs2) →
  header_ r' = Some (c_str (backing_file name))
  ∧ whole_file_mapped r' fresh
  ∧ fs2 = fs1.
Proof using Type.
  intros Hfile Hattach.
  assert (Hlen : length fresh
                 = Z.to_nat (MappingSize kChannelCount 48000 / sizeof_float)).
  { rewrite fresh_region_length, ring_cells; [done|].
    change DataStart with 6. unfold kChannelCount. lia. }
  destruct (Open_attach_inv _ _ _ _ _ _ _ _ fresh Hfile Hlen
              (fresh_region_matches _ _ _) Hattach) as [-> ->].
  split; [reflexivity|].
  split; [exact (opened_maps _ _ _ _ _ Hlen) | reflexivity].
Qed.

Lemma driver_ring_maps os name :
  whole_file_mapped (opened os name kChannelCount 48000) fresh.
Proof using Type.
  apply opened_maps.
  rewrite fresh_region_length, ring_cells; [reflexivity|].
  change DataStart with 6. unfold kChannelCount. lia.
Qed.

(** What a process writes into the mic feed ring reaches the host: after
    [DriverInitialize] has opened the ring, a process that attaches to its
    backing file and writes [k] frames makes the next [ReadInput] deliver
    these frames, in order, followed by silence when more than [k] frames
    are asked for. *)
Theorem mic_feed_reaches_host osH rH nameH rH' fs2 src k :
  is_open (g_mic_feed_ring d1) = true →
  c_str (backing_file nameH) = c_str (backing_file kMicFeedRingName) →
  Open osH rH fs1 nameH false kChannelCount 48000 = Some (true, rH', fs2) →
  0 < k ≤ 48000 →
  Z.of_nat (length src) = k * kChannelCount →
  ∃ fs3,
    Write rH' fs2 (Some src) k = Some (k, fs3)
    ∧ ∀ frames n,
        is_u32 n →
        n * kChannelCount ≤ Z.of_nat (length frames) →
        ∃ frames' fs4,
          DriverDoIOOperation kReadInput kWriteMix d1 fs3 kObjectIDDevice
                              kReadInput n (Some frames)
          = Some (kAudioHardwareNoError, Some frames', fs4)
          ∧ take (Z.to_nat (n * kChannelCount)) frames'
            = take (Z.to_nat (Z.min n k * kChannelCount)) src
                ++ replicate (Z.to_nat ((n - Z.min n k) * kChannelCount)) 0.
Proof using Hinit.
  intros Hopen Hsame Hattach Hk Hsrc.
  destruct (DriverInitialize_mic _ _ _ _ _ _ _ _ Hinit Hopen) as [Hmic Hfile].
  set (p := c_str (backing_file kMicFeedRingName)) in *.
  rewrite <- Hsame in Hfile.
  destruct (attach_to_fresh _ _ _ _ _ Hfile Hattach) as (HheaderH & HmapH & ->).
  rewrite Hsame in Hfile, HheaderH.
  pose proof fresh_ring as Hring.
  assert (Hzero : wrap32 (0 - 0) = 0) by done.
  assert (Hksz : is_size_t k) by (unfold is_size_t; lia).
  assert (Hsrc' : k * kChannelCount ≤ Z.of_nat (length src)) by lia.
  destruct (Write_fifo rH' fs1 p fresh kChannelCount 48000 0 0 HheaderH Hfile
              HmapH Hring
              ltac:(done) ltac:(rewrite Hzero; lia) src k
              ltac:(right; lia) Hksz Hsrc')
    as (region' & Hwrite & Hring' & Hframes).
  assert (Hmap' : whole_file_mapped (g_mic_feed_ring d1) region').
  { destruct (Write_keeps _ _ _ _ _ _ _ _ _ _ _ _ HheaderH Hfile HmapH Hring
                Hksz Hsrc' Hwrite) as (region1 & Hlook & Hlen1 & _).
    rewrite lookup_insert_eq in Hlook. injection Hlook as <-.
    apply (whole_file_mapped_length _ fresh); [exact Hlen1|].
    rewrite Hmic. apply driver_ring_maps. }
  rewrite Hzero in Hwrite, Hring', Hframes.
  replace (Z.min k (48000 - 0)) with k in * by lia.
  rewrite Z.add_0_l in Hring', Hframes.
  rewrite (wrap32_small k) in Hring' by (unfold is_u32; lia).
  cbn [Z.to_nat frames_from app] in Hframes.
  rewrite take_ge in Hframes by lia.
  exists (<[p := region']> fs1). split; [done|].
  intros frames n Hn Hlen.
  assert (Hused : wrap32 (k - 0) = k)
    by (rewrite Z.sub_0_r; apply wrap32_small; unfold is_u32; lia).
  destruct (ReadInput_frames kReadInput kWriteMix d1 (<[p := region']> fs1)
              p region' 48000 k 0 frames n)
    as (frames' & Hdo & Htake & _);
    [by rewrite Hmic | apply lookup_insert_eq | exact Hmap' | done | lia
     | done | done |].
  rewrite Hused in Hdo, Htake.
  eexists frames', _. split; [exact Hdo|].
  rewrite Htake. f_equal.
  destruct Hring' as [_ _ _ _ _ _ _ _ Hsize'].
  rewrite (frames_from_prefix region' kChannelCount 48000 ltac:(done) ltac:(lia)
             Hsize' (Z.to_nat (Z.min n k)) (Z.to_nat k) 0) by (unfold is_u32 in *; lia).
  rewrite Hframes. f_equal. unfold kChannelCount, is_u32 in *. lia.
Qed.

(** What the host plays reaches a process that listens: after
    [DriverInitialize] has opened the speaker tap ring, the frames of a
    [WriteMix] are what a process that attaches to the backing file of that
    ring reads, in order. *)
Theorem speaker_tap_reaches_reader frames n :
  kWriteMix ≠ kReadInput →
  is_open (g_speaker_tap_ring d1) = true →
  0 < n ≤ 48000 →
  n * kChannelCount ≤ Z.of_nat (length frames) →
  ∃ fs2,
    DriverDoIOOperation kReadInput kWriteMix d1 fs1 kObjectIDDevice kWriteMix n
                        (Some frames)
    = Some (kAudioHardwareNoError, Some frames, fs2)
    ∧ ∀ osH rH nameH rH' fs3 out,
        c_str (backing_file nameH) = c_str (backing_file kSpeakerTapRingName) →
        Open osH rH fs2 nameH false kChannelCount 48000 = Some (true, rH', fs3) →
        n * kChannelCount ≤ Z.of_nat (length out) →
        fs3 = fs2
        ∧ ∃ out' fs4,
            Read rH' fs3 (Some out) n = Some (n, Some out', fs4)
            ∧ take (Z.to_nat (n * kChannelCount)) out'
              = take (Z.to_nat (n * kChannelCount)) frames.
Proof using Hinit.
  intros Hne Hopen Hn Hlen.
  destruct (DriverInitialize_tap _ _ _ _ _ _ _ _ Hinit Hopen) as [Htap Hfile].
  set (p := c_str (backing_file kSpeakerTapRingName)) in *.
  pose proof fresh_ring as Hring.
  assert (Hzero : wrap32 (0 - 0) = 0) by done.
  assert (Hheader : header_ (g_speaker_tap_ring d1) = Some p) by (by rewrite Htap).
  assert (Hmap : whole_file_mapped (g_speaker_tap_ring d1) fresh)
    by (rewrite Htap; apply driver_ring_maps).
  assert (Hsz : is_size_t n) by (unfold is_size_t; lia).
  destruct (Write_fifo _ fs1 p fresh kChannelCount 48000 0 0 Hheader Hfile Hmap
              Hring ltac:(done) ltac:(rewrite Hzero; lia) frames n
              ltac:(right; lia) Hsz Hlen)
    as (region' & Hwrite & Hring' & Hframes).
  rewrite Hzero in Hwrite, Hring', Hframes.
  replace (Z.min n (48000 - 0)) with n in * by lia.
  rewrite Z.add_0_l in Hring', Hframes.
  rewrite (wrap32_small n) in Hring' by (unfold is_u32; lia).
  cbn [Z.to_nat frames_from app] in Hframes.
  exists (<[p := region']> fs1). split; [by eapply DoIO_WriteMix|].
  intros osH rH nameH rH' fs3 out Hsame Hattach Hout.
  assert (Hkeep : length region' = length fresh ∧
            ∀ i, (i < 6)%nat → i ≠ off_write_index → region' !! i = fresh !! i).
  { destruct (Write_keeps _ _ _ _ _ _ _ _ _ _ _ _ Hheader Hfile Hmap Hring
                Hsz Hlen Hwrite) as (region1 & Hlook & Hkeep).
    rewrite lookup_insert_eq in Hlook. injection Hlook as <-. exact Hkeep. }
  destruct Hkeep as [Hlen' Hkeep].
  assert (Hfile2 : <[p := region']> fs1 !! c_str (backing_file nameH) = Some region')
    by (rewrite Hsame; apply lookup_insert_eq).
  assert (Hmatch : header_matches region' kChannelCount 48000).
  { unfold header_matches.
    rewrite !Hkeep
      by (unfold off_magic, off_version, off_channels, off_capacity_frames,
            off_write_index; lia).
    apply fresh_region_matches. }
  assert (Hlen2 : length region'
                  = Z.to_nat (MappingSize kChannelCount 48000 / sizeof_float)).
  { rewrite Hlen', fresh_region_length, ring_cells; [done|].
    change DataStart with 6. unfold kChannelCount. lia. }
  destruct (Open_attach_inv _ _ _ _ _ _ _ _ region' Hfile2 Hlen2 Hmatch Hattach)
    as [-> ->].
  split; [done|].
  assert (Hused : wrap32 (n - 0) = n)
    by (rewrite Z.sub_0_r; apply wrap32_small; unfold is_u32; lia).
  destruct (Read_fifo (opened osH nameH kChannelCount 48000) (<[p := region']> fs1)
              p region' kChannelCount 48000 n 0
              ltac:(cbn; by rewrite Hsame) ltac:(apply lookup_insert_eq)
              (opened_maps _ _ _ _ _ Hlen2) Hring'
              ltac:(done) ltac:(lia) out n Hsz Hout)
    as (out' & Hread & _ & _ & Htake & _).
  rewrite Hused, Z.min_id in Hread, Htake.
  eexists out', _. split; [exact Hread|].
  by rewrite Htake, Hframes.
Qed.
End bridge.

(** A driver initialised on an empty file system by an operating system
    that grants every call. *)
Local Abbreviation os_demo := (mkOs 3 true true).
Local Abbreviation fresh_demo :=
  (fresh_region (Z.to_nat (DataStart + 48000 * kChannelCount)) kChannelCount 48000).
Local Abbreviation driver_demo :=
  (mkDriver None 1 0 1 0 0
     (opened os_demo kMicFeedRingName kChannelCount 48000)
     (opened os_demo kSpeakerTapRingName kChannelCount 48000)).
Local Abbreviation files_demo :=
  (<[c_str (backing_file kSpeakerTapRingName) := fresh_demo]>
     (<[c_str (backing_file kMicFeedRingName) := fresh_demo]>
        (∅ : gmap string (list Z)))).

Lemma mic_feed_reaches_host_witness :
  ∃ fs3,
    Write (opened os_demo "virtual_audio_bridge_mic_feed" kChannelCount 48000)
          files_demo (Some [5; 6]) 1 = Some (1, fs3)
    ∧ ∀ frames n,
        is_u32 n →
        n * kChannelCount ≤ Z.of_nat (length frames) →
        ∃ frames' fs4,
          DriverDoIOOperation 1 2 driver_demo fs3 kObjectIDDevice 1 n (Some frames)
          = Some (kAudioHardwareNoError, Some frames', fs4)
          ∧ take (Z.to_nat (n * kChannelCount)) frames'
            = take (Z.to_nat (Z.min n 1 * kChannelCount)) [5; 6]
                ++ replicate (Z.to_nat ((n - Z.min n 1) * kChannelCount)) 0.
Proof.
  refine (mic_feed_reaches_host 1 2 os_demo os_demo loaded ∅ None
            kAudioHardwareNoError driver_demo files_demo _
            os_demo unopened "virtual_audio_bridge_mic_feed"
            (opened os_demo "virtual_audio_bridge_mic_feed" kChannelCount 48000)
            files_demo [5; 6] 1 _ _ _ _ _).
  - apply DriverInitialize_willing; (reflexivity || (simpl; lia)).
  - reflexivity.
  - reflexivity.
  - apply (Open_attach_succeeds _ _ _ _ _ _ fresh_demo).
    + simpl. lia.
    + reflexivity.
    + reflexivity.
    + discriminate.
    + unfold kChannelCount. lia.
    + lia.
    + unfold kChannelCount. lia.
    + rewrite lookup_insert_ne by (vm_compute; discriminate).
      apply lookup_insert_eq.
    + rewrite fresh_region_length;
        change DataStart with 6; unfold kChannelCount; lia.
    + apply fresh_region_matches.
  - lia.
  - reflexivity.
Defined.

Lemma speaker_tap_reaches_reader_witness :
  ∃ fs2,
    DriverDoIOOperation 1 2 driver_demo files_demo kObjectIDDevice 2 1
                        (Some [5; 6; 7; 8])
    = Some (kAudioHardwareNoError, Some [5; 6; 7; 8], fs2)
    ∧ ∀ osH rH nameH rH' fs3 out,
        c_str (backing_file nameH) = c_str (backing_file kSpeakerTapRingName) →
        Open osH rH fs2 nameH false kChannelCount 48000 = Some (true, rH', fs3) →
        1 * kChannelCount ≤ Z.of_nat (length out) →
        fs3 = fs2
        ∧ ∃ out' fs4,
            Read rH' fs3 (Some out) 1 = Some (1, Some out', fs4)
            ∧ take (Z.to_nat (1 * kChannelCount)) out'
              = take (Z.to_nat (1 * kChannelCount)) [5; 6; 7; 8].
Proof.
  refine (speaker_tap_reaches_reader 1 2 os_demo os_demo loaded ∅ None
            kAudioHardwareNoError driver_demo files_demo _
            [5; 6; 7; 8] 1 _ _ _ _).
  - apply DriverInitialize_willing; (reflexivity || (simpl; lia)).
  - lia.
  - reflexivity.
  - lia.
  - unfold kChannelCount. simpl. lia.
Defined.

(** ** Reference and client counts *)

Lemma DriverAddRef_fields d :
  g_ref_count (DriverAddRef d).2 = wrap32 (g_ref_count d + 1)
  ∧ g_io_client_count (DriverAddRef d).2 = g_io_client_count d
  ∧ clock (DriverAddRef d).2 = clock d
  ∧ g_mic_feed_ring (DriverAddRef d).2 = g_mic_feed_ring d
  ∧ g_speaker_tap_ring (DriverAddRef d).2 = g_speaker_tap_ring d.
Proof. done. Qed.

Lemma DriverRelease_fields d :
  g_ref_count (DriverRelease d).2
  = (if g_ref_count d =? 0 then 0 else wrap32 (g_ref_count d - 1))
  ∧ g_io_client_count (DriverRelease d).2 = g_io_client_count d
  ∧ clock (DriverRelease d).2 = clock d
  ∧ g_mic_feed_ring (DriverRelease d).2 = g_mic_feed_ring d
  ∧ g_speaker_tap_ring (DriverRelease d).2 = g_speaker_tap_ring d.
Proof.
  unfold DriverRelease. by destruct (Z.eqb_spec (g_ref_count d) 0).
Qed.

Lemma add_refs_count n : ∀ d,
  is_u32 (g_ref_count d) →
  g_ref_count d + Z.of_nat n < 2 ^ 32 →
  g_ref_count (add_refs d n) = g_ref_count d + Z.of_nat n
  ∧ g_io_client_count (add_refs d n) = g_io_client_count d
  ∧ clock (add_refs d n) = clock d
  ∧ g_mic_feed_ring (add_refs d n) = g_mic_feed_ring d
  ∧ g_speaker_tap_ring (add_refs d n) = g_speaker_tap_ring d.
Proof.
  induction n as [|n IH]; intros d Hu Hn.
  - change (add_refs d 0) with d. rewrite Z.add_0_r. done.
  - destruct (IH d Hu ltac:(lia)) as (Hc & Hio & Hclock & Hmic & Htap).
    change (add_refs d (S n)) with (DriverAddRef (add_refs d n)).2.
    destruct (DriverAddRef_fields (add_refs d n)) as (-> & -> & -> & -> & ->).
    rewrite Hc, wrap32_small by (unfold is_u32 in *; lia).
    split; [lia|done].
Qed.

Lemma releases_count n : ∀ d,
  is_u32 (g_ref_count d) →
  g_ref_count (releases d n) = Z.max 0 (g_ref_count d - Z.of_nat n)
  ∧ g_io_client_count (releases d n) = g_io_client_count d
  ∧ clock (releases d n) = clock d
  ∧ g_mic_feed_ring (releases d n) = g_mic_feed_ring d
  ∧ g_speaker_tap_ring (releases d n) = g_speaker_tap_ring d.
Proof.
  induction n as [|n IH]; intros d Hu.
  - change (releases d 0) with d. unfold is_u32 in Hu. split; [lia|done].
  - destruct (IH d Hu) as (Hc & Hio & Hclock & Hmic & Htap).
    change (releases d (S n)) with (DriverRelease (releases d n)).2.
    destruct (DriverRelease_fields (releases d n)) as (-> & -> & -> & -> & ->).
    split; [|done]. rewrite Hc.
    destruct (Z.eqb_spec (Z.max 0 (g_ref_count d - Z.of_nat n)) 0); [lia|].
    rewrite wrap32_small by (unfold is_u32 in *; lia). lia.
Qed.

(** Reference counting: [DriverAddRef] and [DriverRelease] return the new
    count; after [m] references taken and [n] dropped the count is the old
    one plus [m] minus [n], and never less than 0: a [DriverRelease] too
    many leaves it at 0. Nothing else of the driver changes. *)
Theorem reference_count_balances d m n :
  is_u32 (g_ref_count d) →
  g_ref_count d + Z.of_nat m < 2 ^ 32 →
  let d' := releases (add_refs d m) n in
  g_ref_count d' = Z.max 0 (g_ref_count d + Z.of_nat m - Z.of_nat n)
  ∧ (DriverAddRef d').1 = g_ref_count (DriverAddRef d').2
  ∧ (DriverRelease d').1 = g_ref_count (DriverRelease d').2
  ∧ g_io_client_count d' = g_io_client_count d
  ∧ clock d' = clock d
  ∧ g_mic_feed_ring d' = g_mic_feed_ring d
  ∧ g_speaker_tap_ring d' = g_speaker_tap_ring d.
Proof.
  intros Hu Hm d'.
  destruct (add_refs_count m d Hu Hm) as (Hc & Hio & Hclock & Hmic & Htap).
  destruct (releases_count n (add_refs d m)) as (Hc' & Hio' & Hclock' & Hmic' & Htap').
  { rewrite Hc. unfold is_u32 in *. lia. }
  fold d' in Hc', Hio', Hclock', Hmic', Htap'.
  rewrite Hc', Hio', Hclock', Hmic', Htap', Hc.
  split; [done|]. split; [done|]. split; [|done].
  unfold DriverRelease. by destruct (g_ref_count d' =? 0) eqn:E; [apply Z.eqb_eq in E|].
Qed.

Lemma reference_count_balances_witness :
  g_ref_count (releases (add_refs loaded 2) 5) = Z.max 0 (1 + 2 - 5)
  ∧ (DriverAddRef (releases (add_refs loaded 2) 5)).1
    = g_ref_count (DriverAddRef (releases (add_refs loaded 2) 5)).2
  ∧ (DriverRelease (releases (add_refs loaded 2) 5)).1
    = g_ref_count (DriverRelease (releases (add_refs loaded 2) 5)).2
  ∧ g_io_client_count (releases (add_refs loaded 2) 5) = 0
  ∧ clock (releases (add_refs loaded 2) 5) = (1, 0, 0)
  ∧ g_mic_feed_ring (releases (add_refs loaded 2) 5) = unopened
  ∧ g_speaker_tap_ring (releases (add_refs loaded 2) 5) = unopened.
Proof.
  refine (reference_count_balances loaded 2 5 _ _).
  - unfold is_u32. simpl. lia.
  - unfold kChannelCount. simpl. lia.
Defined.

Lemma DriverStartIO_fields d now :
  (DriverStartIO d now kObjectIDDevice).1 = kAudioHardwareNoError
  ∧ g_io_client_count (DriverStartIO d now kObjectIDDevice).2
    = wrap32 (g_io_client_count d + 1)
  ∧ clock (DriverStartIO d now kObjectIDDevice).2
    = (if g_io_client_count d =? 0
       then (wrap64 (g_clock_seed d + 1), now, 0) else clock d)
  ∧ g_ref_count (DriverStartIO d now kObjectIDDevice).2 = g_ref_count d
  ∧ g_mic_feed_ring (DriverStartIO d now kObjectIDDevice).2 = g_mic_feed_ring d
  ∧ g_speaker_tap_ring (DriverStartIO d now kObjectIDDevice).2
    = g_speaker_tap_ring d.
Proof.
  unfold DriverStartIO, clock. cbn.
  by destruct (g_io_client_count d =? 0).
Qed.

Lemma DriverStopIO_fields d :
  (DriverStopIO d kObjectIDDevice).1 = kAudioHardwareNoError
  ∧ g_io_client_count (DriverStopIO d kObjectIDDevice).2
    = (if 0 <? g_io_client_count d
       then wrap32 (g_io_client_count d - 1) else g_io_client_count d)
  ∧ clock (DriverStopIO d kObjectIDDevice).2 = clock d
  ∧ g_ref_count (DriverStopIO d kObjectIDDevice).2 = g_ref_count d
  ∧ g_mic_feed_ring (DriverStopIO d kObjectIDDevice).2 = g_mic_feed_ring d
  ∧ g_speaker_tap_ring (DriverStopIO d kObjectIDDevice).2
    = g_speaker_tap_ring d.
Proof.
  unfold DriverStopIO, clock. cbn.
  by destruct (0 <? g_io_client_count d).
Qed.

Lemma start_clients_running times : ∀ d,
  0 < g_io_client_count d →
  g_io_client_count d + Z.of_nat (length times) < 2 ^ 32 →
  g_io_client_count (start_clients d times)
  = g_io_client_count d + Z.of_nat (length times)
  ∧ clock (start_clients d times) = clock d
  ∧ g_ref_count (start_clients d times) = g_ref_count d
  ∧ g_mic_feed_ring (start_clients d times) = g_mic_feed_ring d
  ∧ g_speaker_tap_ring (start_clients d times) = g_speaker_tap_ring d.
Proof.
  induction times as [|now times IH]; intros d Hpos Hlen.
  - change (start_clients d []) with d. cbn [length]. split; [lia|done].
  - change (start_clients d (now :: times))
      with (start_clients (DriverStartIO d now kObjectIDDevice).2 times).
    cbn [length] in Hlen.
    destruct (DriverStartIO_fields d now) as (_ & Hc & Hclock & Href & Hmic & Htap).
    rewrite wrap32_small in Hc by (unfold is_u32; lia).
    destruct (Z.eqb_spec (g_io_client_count d) 0) as [|_]; [lia|].
    destruct (IH (DriverStartIO d now kObjectIDDevice).2)
      as (-> & -> & -> & -> & ->); [lia..|].
    rewrite Hc, Hclock, Href, Hmic, Htap. cbn [length]. split; [lia|done].
Qed.

Lemma stop_clients_count n : ∀ d,
  is_u32 (g_io_client_count d) →
  g_io_client_count (stop_clients d n)
  = Z.max 0 (g_io_client_count d - Z.of_nat n)
  ∧ clock (stop_clients d n) = clock d
  ∧ g_ref_count (stop_clients d n) = g_ref_count d
  ∧ g_mic_feed_ring (stop_clients d n) = g_mic_feed_ring d
  ∧ g_speaker_tap_ring (stop_clients d n) = g_speaker_tap_ring d.
Proof.
  induction n as [|n IH]; intros d Hu.
  - change (stop_clients d 0) with d. unfold is_u32 in Hu. split; [lia|done].
  - destruct (IH d Hu) as (Hc & Hclock & Href & Hmic & Htap).
    change (stop_clients d (S n))
      with (DriverStopIO (stop_clients d n) kObjectIDDevice).2.
    destruct (DriverStopIO_fields (stop_clients d n)) as (_ & -> & -> & -> & -> & ->).
    split; [|done]. rewrite Hc.
    destruct (Z.ltb_spec 0 (Z.max 0 (g_io_client_count d - Z.of_nat n))); [|lia].
    rewrite wrap32_small by (unfold is_u32 in *; lia). lia.
Qed.

(** Clients of the device are counted. The first client that starts I/O on
    an idle device anchors the clock at its host time, with sample time 0
    and a new seed; the clients that start after it and every stop leave the
    clock alone. After as many stops as starts the device is idle again, and
    a stop too many leaves the count at 0. The rings and the reference count
    are not touched. *)
Theorem io_clients_counted d t0 times n :
  g_io_client_count d = 0 →
  Z.of_nat (length times) + 1 < 2 ^ 32 →
  let running := start_clients d (t0 :: times) in
  let stopped := stop_clients running n in
  g_io_client_count running = Z.of_nat (length times) + 1
  ∧ clock running = (wrap64 (g_clock_seed d + 1), t0, 0)
  ∧ g_io_client_count stopped
    = Z.max 0 (Z.of_nat (length times) + 1 - Z.of_nat n)
  ∧ clock stopped = clock running
  ∧ g_ref_count stopped = g_ref_count d
  ∧ g_mic_feed_ring stopped = g_mic_feed_ring d
  ∧ g_speaker_tap_ring stopped = g_speaker_tap_ring d.
Proof.
  intros Hidle Hlen running stopped.
  destruct (DriverStartIO_fields d t0) as (_ & Hc & Hclock & Href & Hmic & Htap).
  rewrite Hidle in Hc, Hclock. change (0 =? 0) with true in Hclock.
  change (wrap32 (0 + 1)) with 1 in Hc.
  destruct (start_clients_running times (DriverStartIO d t0 kObjectIDDevice).2)
    as (Hc1 & Hclock1 & Href1 & Hmic1 & Htap1); [lia..|].
  change (start_clients (DriverStartIO d t0 kObjectIDDevice).2 times)
    with running in *.
  rewrite Hc in Hc1. rewrite Hclock in Hclock1.
  destruct (stop_clients_count n running)
    as (Hc2 & Hclock2 & Href2 & Hmic2 & Htap2).
  { rewrite Hc1. unfold is_u32. lia. }
  fold stopped in Hc2, Hclock2, Href2, Hmic2, Htap2.
  rewrite Hc2, Hclock2, Href2, Hmic2, Htap2, Hc1, Hclock1, Href1, Hmic1, Htap1.
  split; [lia|]. split; [done|]. split; [f_equal; lia|]. done.
Qed.

Lemma io_clients_counted_witness :
  g_io_client_count (start_clients loaded [100; 200; 300]) = 2 + 1
  ∧ clock (start_clients loaded [100; 200; 300]) = (wrap64 (1 + 1), 100, 0)
  ∧ g_io_client_count (stop_clients (start_clients loaded [100; 200; 300]) 4)
    = Z.max 0 (2 + 1 - 4)
  ∧ clock (stop_clients (start_clients loaded [100; 200; 300]) 4)
    = clock (start_clients loaded [100; 200; 300])
  ∧ g_ref_count (stop_clients (start_clients loaded [100; 200; 300]) 4) = 1
  ∧ g_mic_feed_ring (stop_clients (start_clients loaded [100; 200; 300]) 4)
    = unopened
  ∧ g_speaker_tap_ring (stop_clients (start_clients loaded [100; 200; 300]) 4)
    = unopened.
Proof.
  refine (io_clients_counted loaded 100 [200; 300] 4 _ _).
  - reflexivity.
  - unfold kChannelCount. simpl. lia.
Defined.


(** ** The property tables *)

Lemma is_case_In x labels : is_case x labels = true ↔ In x labels.
Proof.
  unfold is_case. rewrite existsb_exists. split.
  - intros (y & Hy & Heq). apply Z.eqb_eq in Heq. by subst.
  - intros Hx. exists x. split; [done | apply Z.eqb_refl].
Qed.

Section tables.
Variable kAudioObjectPlugInObject : Z.
Variables kAudioObjectPropertyScopeInput kAudioObjectPropertyScopeOutput : Z.
Variables kAudioObjectPropertyBaseClass kAudioObjectPropertyClass
          kAudioObjectPropertyOwner kAudioObjectPropertyName
          kAudioObjectPropertyManufacturer kAudioObjectPropertyOwnedObjects
          kAudioObjectPropertyControlList : Z.
Variables kAudioPlugInPropertyDeviceList
          kAudioPlugInPropertyTranslateUIDToDevice kAudioPlugInPropertyBoxList
          kAudioPlugInPropertyClockDeviceList
          kAudioPlugInPropertyResourceBundle : Z.
Variables kAudioDevicePropertyDeviceUID kAudioDevicePropertyModelUID
          kAudioDevicePropertyTransportType kAudioDevicePropertyStreams
          kAudioDevicePropertyStreamConfiguration
          kAudioDevicePropertyNominalSampleRate
          kAudioDevicePropertyAvailableNominalSampleRates
          kAudioDevicePropertyBufferFrameSize
          kAudioDevicePropertyBufferFrameSizeRange
          kAudioDevicePropertyZeroTimeStampPeriod
          kAudioDevicePropertyDeviceIsAlive kAudioDevicePropertyDeviceIsRunning
          kAudioDevicePropertyClockDomain kAudioDevicePropertyRelatedDevices
          kAudioDevicePropertyClockIsStable kAudioDevicePropertyIsHidden
          kAudioDevicePropertySafetyOffset kAudioDevicePropertyLatency
          kAudioDevicePropertyPreferredChannelsForStereo
          kAudioDevicePropertyDeviceCanBeDefaultDevice
          kAudioDevicePropertyDeviceCanBeDefaultSystemDevice : Z.
Variables kAudioStreamPropertyDirection kAudioStreamPropertyTerminalType
          kAudioStreamPropertyStartingChannel kAudioStreamPropertyLatency
          kAudioStreamPropertyVirtualFormat
          kAudioStreamPropertyAvailableVirtualFormats
          kAudioStreamPropertyPhysicalFormat
          kAudioStreamPropertyAvailablePhysicalFormats
          kAudioStreamPropertyIsActive : Z.
Variables sizeof_AudioStreamBasicDescription sizeof_AudioValueRange
          sizeof_AudioStreamRangedDescription sizeof_AudioBuffer
          offsetof_AudioBufferList_mBuffers : Z.

Local Abbreviation HasProperty :=
  (DriverHasProperty kAudioObjectPlugInObject
     kAudioObjectPropertyScopeInput kAudioObjectPropertyScopeOutput
     kAudioObjectPropertyBaseClass kAudioObjectPropertyClass
     kAudioObjectPropertyOwner kAudioObjectPropertyName
     kAudioObjectPropertyManufacturer kAudioObjectPropertyOwnedObjects
     kAudioObjectPropertyControlList
     kAudioPlugInPropertyDeviceList
     kAudioPlugInPropertyTranslateUIDToDevice kAudioPlugInPropertyBoxList
     kAudioPlugInPropertyClockDeviceList
     kAudioPlugInPropertyResourceBundle
     kAudioDevicePropertyDeviceUID kAudioDevicePropertyModelUID
     kAudioDevicePropertyTransportType kAudioDevicePropertyStreams
     kAudioDevicePropertyStreamConfiguration
     kAudioDevicePropertyNominalSampleRate
     kAudioDevicePropertyAvailableNominalSampleRates
     kAudioDevicePropertyBufferFrameSize
     kAudioDevicePropertyBufferFrameSizeRange
     kAudioDevicePropertyZeroTimeStampPeriod
     kAudioDevicePropertyDeviceIsAlive kAudioDevicePropertyDeviceIsRunning
     kAudioDevicePropertyClockDomain kAudioDevicePropertyRelatedDevices
     kAudioDevicePropertyClockIsStable kAudioDevicePropertyIsHidden
     kAudioDevicePropertySafetyOffset kAudioDevicePropertyLatency
     kAudioDevicePropertyPreferredChannelsForStereo
     kAudioDevicePropertyDeviceCanBeDefaultDevice
     kAudioDevicePropertyDeviceCanBeDefaultSystemDevice
     kAudioStreamPropertyDirection kAudioStreamPropertyTerminalType
     kAudioStreamPropertyStartingChannel kAudioStreamPropertyLatency
     kAudioStreamPropertyVirtualFormat
     kAudioStreamPropertyAvailableVirtualFormats
     kAudioStreamPropertyPhysicalFormat
     kAudioStreamPropertyAvailablePhysicalFormats
     kAudioStreamPropertyIsActive).

Local Abbreviation GetPropertyDataSize :=
  (DriverGetPropertyDataSize kAudioObjectPlugInObject
     kAudioObjectPropertyScopeInput kAudioObjectPropertyScopeOutput
     kAudioObjectPropertyBaseClass kAudioObjectPropertyClass
     kAudioObjectPropertyOwner kAudioObjectPropertyName
     kAudioObjectPropertyManufacturer kAudioObjectPropertyOwnedObjects
     kAudioObjectPropertyControlList
     kAudioPlugInPropertyDeviceList
     kAudioPlugInPropertyTranslateUIDToDevice kAudioPlugInPropertyBoxList
     kAudioPlugInPropertyClockDeviceList
     kAudioPlugInPropertyResourceBundle
     kAudioDevicePropertyDeviceUID kAudioDevicePropertyModelUID
     kAudioDevicePropertyTransportType kAudioDevicePropertyStreams
     kAudioDevicePropertyStreamConfiguration
     kAudioDevicePropertyNominalSampleRate
     kAudioDevicePropertyAvailableNominalSampleRates
     kAudioDevicePropertyBufferFrameSize
     kAudioDevicePropertyBufferFrameSizeRange
     kAudioDevicePropertyZeroTimeStampPeriod
     kAudioDevicePropertyDeviceIsAlive kAudioDevicePropertyDeviceIsRunning
     kAudioDevicePropertyClockDomain kAudioDevicePropertyRelatedDevices
     kAudioDevicePropertyClockIsStable kAudioDevicePropertyIsHidden
     kAudioDevicePropertySafetyOffset kAudioDevicePropertyLatency
     kAudioDevicePropertyPreferredChannelsForStereo
     kAudioDevicePropertyDeviceCanBeDefaultDevice
     kAudioDevicePropertyDeviceCanBeDefaultSystemDevice
     kAudioStreamPropertyDirection kAudioStreamPropertyTerminalType
     kAudioStreamPropertyStartingChannel kAudioStreamPropertyLatency
     kAudioStreamPropertyVirtualFormat
     kAudioStreamPropertyAvailableVirtualFormats
     kAudioStreamPropertyPhysicalFormat
     kAudioStreamPropertyAvailablePhysicalFormats
     kAudioStreamPropertyIsActive
     sizeof_AudioStreamBasicDescription sizeof_AudioValueRange
     sizeof_AudioStreamRangedDescription sizeof_AudioBuffer
     offsetof_AudioBufferList_mBuffers).

Local Abbreviation IsPropertySettable :=
  (DriverIsPropertySettable kAudioObjectPlugInObject
     kAudioDevicePropertyNominalSampleRate kAudioDevicePropertyBufferFrameSize
     kAudioStreamPropertyVirtualFormat kAudioStreamPropertyPhysicalFormat).

(** Every property [DriverHasProperty] reports has a size:
    [DriverGetPropertyDataSize] answers it with no error and stores a size
    through [out_data_size]. *)
Theorem reported_property_has_size object_id address :
  HasProperty object_id (Some address) = true →
  ∃ size,
    GetPropertyDataSize object_id (Some address) true
    = (kAudioHardwareNoError, Some size)
    ∧ is_u32 size.
Proof.
  unfold DriverHasProperty, DriverGetPropertyDataSize. cbn [negb].
  destruct (IsKnownObject _ object_id); cbn [negb]; [|intros [=]].
  destruct (object_id =? kObjectIDPlugIn _).
  { intros H. case_in H; [|discriminate H]. clear H.
    repeat (next_case; [stored_size|]). not_a_case. }
  destruct (object_id =? kObjectIDDevice).
  { intros H. case_in H; [clear H|case_in H; [clear H|discriminate H]];
      repeat (next_case; [stored_size|]); not_a_case. }
  destruct (is_case object_id _); [|intros [=]].
  intros H. case_in H; [|discriminate H]. clear H.
  repeat (next_case; [stored_size|]). not_a_case.
Qed.

(** The two tables differ in one place only. When
    [DriverGetPropertyDataSize] answers with no error for a property that
    [DriverHasProperty] denies, the object is the device, the selector is
    one of the five properties [DriverHasProperty] reports in the input and
    output scopes only, and the scope asked for is another one:
    [DriverGetPropertyDataSize] does not look at the scope of these. *)
Theorem size_of_unreported_property object_id address size :
  GetPropertyDataSize object_id (Some address) true
  = (kAudioHardwareNoError, size) →
  HasProperty object_id (Some address) = false →
  object_id = kObjectIDDevice
  ∧ In (mSelector address)
       [kAudioDevicePropertySafetyOffset; kAudioDevicePropertyLatency;
        kAudioDevicePropertyPreferredChannelsForStereo;
        kAudioDevicePropertyDeviceCanBeDefaultDevice;
        kAudioDevicePropertyDeviceCanBeDefaultSystemDevice]
  ∧ mScope address ≠ kAudioObjectPropertyScopeInput
  ∧ mScope address ≠ kAudioObjectPropertyScopeOutput.
Proof.
  unfold DriverHasProperty, DriverGetPropertyDataSize. cbn [negb].
  destruct (IsKnownObject _ object_id); cbn [negb]; [|intros [=]].
  destruct (object_id =? kObjectIDPlugIn _).
  { intros Hsize Hhas. case_in Hhas; [discriminate Hhas|]. clear Hhas.
    repeat (case_in Hsize; [exfalso; clear Hsize; not_a_case|]).
    discriminate Hsize. }
  destruct (Z.eqb_spec object_id kObjectIDDevice) as [Hdev | _].
  { intros Hsize Hhas. case_in Hhas; [discriminate Hhas|].
    case_in Hhas.
    - apply orb_false_iff in Hhas as [Hin Hout].
      apply Z.eqb_neq in Hin, Hout. by apply is_case_In in E0.
    - clear Hhas.
      repeat (case_in Hsize; [exfalso; clear Hsize; not_a_case|]).
      discriminate Hsize. }
  destruct (is_case object_id _); [|intros [=]].
  intros Hsize Hhas. case_in Hhas; [discriminate Hhas|]. clear Hhas.
  repeat (case_in Hsize; [exfalso; clear Hsize; not_a_case|]).
  discriminate Hsize.
Qed.

(** A property [DriverIsPropertySettable] reports as settable is a property
    of the object: [DriverHasProperty] reports it. The identifier of the
    plug-in is a label of the same [switch] as the other three objects,
    hence another value. *)
Theorem settable_property_exists object_id address :
  ¬ In (kObjectIDPlugIn kAudioObjectPlugInObject)
       [kObjectIDDevice; kObjectIDStreamInput; kObjectIDStreamOutput] →
  IsPropertySettable object_id (Some address) true
  = (kAudioHardwareNoError, Some true) →
  HasProperty object_id (Some address) = true.
Proof.
  intros Hplugin. unfold DriverIsPropertySettable, DriverHasProperty.
  cbn [negb]. destruct (IsKnownObject _ object_id); cbn [negb]; [|intros [=]].
  unfold kObjectIDPlugIn in *. cbn [In] in Hplugin.
  destruct (Z.eqb_spec object_id kObjectIDDevice) as [-> | Hdev];
    cbn [andb orb].
  - destruct (Z.eqb_spec kObjectIDDevice kAudioObjectPlugInObject);
      [exfalso; apply Hplugin; auto|].
    change (kObjectIDDevice =? kObjectIDStreamInput) with false.
    change (kObjectIDDevice =? kObjectIDStreamOutput) with false.
    cbn [orb andb]. intros Hsettable.
    next_case; [done|]. exfalso. no_label E.
    repeat match goal with
           | Hf : (_ =? _) = false |- _ => rewrite ?Hf in Hsettable; clear Hf
           end.
    discriminate Hsettable.
  - intros Hsettable.
    destruct (Z.eqb_spec object_id kObjectIDStreamInput) as [-> | Hin];
      [|destruct (Z.eqb_spec object_id kObjectIDStreamOutput) as [-> | Hout]];
      cbn [orb andb] in Hsettable; [| |congruence].
    + destruct (Z.eqb_spec kObjectIDStreamInput kAudioObjectPlugInObject);
        [exfalso; apply Hplugin; auto|].
      change (is_case kObjectIDStreamInput
                [kObjectIDStreamInput; kObjectIDStreamOutput]) with true.
      cbv iota.
      next_case; [done|]. exfalso. no_label E.
      repeat match goal with
             | Hf : (_ =? _) = false |- _ => rewrite ?Hf in Hsettable; clear Hf
             end.
      discriminate Hsettable.
    + destruct (Z.eqb_spec kObjectIDStreamOutput kAudioObjectPlugInObject);
        [exfalso; apply Hplugin; auto|].
      change (is_case kObjectIDStreamOutput
                [kObjectIDStreamInput; kObjectIDStreamOutput]) with true.
      cbv iota.
      next_case; [done|]. exfalso. no_label E.
      repeat match goal with
             | Hf : (_ =? _) = false |- _ => rewrite ?Hf in Hsettable; clear Hf
             end.
      discriminate Hsettable.
Qed.
End tables.

(** The tables at one assignment of the constants of the headers: the
    plug-in object is 1, the input and output scopes are 10 and 11, the
    selectors are numbered from 101 in the order of their declaration above
    (the stream latency shares 130 with the device latency), and the sizes
    are 40, 16, 56, 16 and 8. *)
Local Abbreviation HasProperty_at :=
  (DriverHasProperty
     1 10 11 101 102 103 104 105 106 107 108 109 110 111 112 113
     114 115 116 117 118 119 120 121 122 123 124 125 126 127 128
     129 130 131 132 133 134 135 136 130 138 139 140 141 142).
Local Abbreviation GetPropertyDataSize_at :=
  (DriverGetPropertyDataSize
     1 10 11 101 102 103 104 105 106 107 108 109 110 111 112 113
     114 115 116 117 118 119 120 121 122 123 124 125 126 127 128
     129 130 131 132 133 134 135 136 130 138 139 140 141 142 40
     16 56 16 8).
Local Abbreviation IsPropertySettable_at :=
  (DriverIsPropertySettable 1 118 120 138 140).

Lemma reported_property_has_size_witness :
  ∃ size,
    GetPropertyDataSize_at kObjectIDDevice
      (Some {| mSelector := 129; mScope := 10; mElement := 0 |}) true
    = (kAudioHardwareNoError, Some size)
    ∧ is_u32 size.
Proof.
  refine (reported_property_has_size
     1 10 11 101 102 103 104 105 106 107 108 109 110 111 112 113
     114 115 116 117 118 119 120 121 122 123 124 125 126 127 128
     129 130 131 132 133 134 135 136 130 138 139 140 141 142 40
     16 56 16 8
     kObjectIDDevice {| mSelector := 129; mScope := 10; mElement := 0 |} _).
  reflexivity.
Defined.

Lemma size_of_unreported_property_witness :
  kObjectIDDevice = kObjectIDDevice
  ∧ In (mSelector {| mSelector := 129; mScope := 0; mElement := 0 |})
       [129; 130; 131; 132; 133]
  ∧ mScope {| mSelector := 129; mScope := 0; mElement := 0 |} ≠ 10
  ∧ mScope {| mSelector := 129; mScope := 0; mElement := 0 |} ≠ 11.
Proof.
  refine (size_of_unreported_property
     1 10 11 101 102 103 104 105 106 107 108 109 110 111 112 113
     114 115 116 117 118 119 120 121 122 123 124 125 126 127 128
     129 130 131 132 133 134 135 136 130 138 139 140 141 142 40
     16 56 16 8
     kObjectIDDevice {| mSelector := 129; mScope := 0; mElement := 0 |}
     (Some 4) _ _).
  - reflexivity.
  - reflexivity.
Defined.

Lemma settable_property_exists_witness :
  HasProperty_at kObjectIDStreamOutput
    (Some {| mSelector := 140; mScope := 0; mElement := 0 |}) = true.
Proof.
  refine (settable_property_exists
     1 10 11 101 102 103 104 105 106 107 108 109 110 111 112 113
     114 115 116 117 118 119 120 121 122 123 124 125 126 127 128
     129 130 131 132 133 134 135 136 130 138 139 140 141 142
     kObjectIDStreamOutput {| mSelector := 140; mScope := 0; mElement := 0 |}
     _ _).
  - unfold kObjectIDPlugIn. simpl. intros [H | [H | [H | []]]]; discriminate H.
  - reflexivity.
Defined.
